(** * FiPy [Variable]: lazy evaluation and staleness propagation

    A shallow embedding of [fipy/variables/variable.py].  Python objects
    live in a heap indexed by object identity; a weak reference is an
    identity that may no longer be bound in the heap.  The class
    [Variable] is the record [variable] here. *)

From stdpp Require Import gmap list fin_maps.

(** ** Data model *)

(** Exceptions that can leave [getValue], [__setitem__] and [put]. *)
Inductive exn :=
  | EvaluationError
  | TypeError
  | IndexError
  | ValueError
  | DanglingReference.

(** [_calcValue] is a method: [Variable._calcValue] returns the stored
    value, an operator variable applies its [op] to the values of its
    operands. *)
Inductive calc (V : Type) :=
  | Leaf
  | Operator (op : list (option V) → exn + option V).
Arguments Leaf {V}.
Arguments Operator {V} op.

(** The classes that [isinstance] distinguishes in this file. *)
Inductive VClass := CVariable | C_Constant.

#[global] Instance VClass_eq_dec : EqDecision VClass.
Proof. solve_decision. Defined.

(** The attributes of a [Variable] instance.  [stale] is only ever
    assigned the literals 0 and 1 and only read as a truth value, so it
    is a [bool] here ([true] for 1).  [value] is [None] for Python's
    [None].  [subscribedVariables] holds weak references, i.e. object
    identities that may have been reclaimed.  [markCount] and
    [calcCount] are instrumentation: they count how often the guarded
    body of [_markStale], respectively [_calcValue], ran on the object;
    nothing reads them. *)
Record variable (V : Type) := mkVariable {
  requiredVariables : list nat;
  subscribedVariables : list nat;
  value : option V;
  stale : bool;
  _cached : bool;
  cls : VClass;
  calcValue : calc V;
  opShape : option (list nat);
  markCount : nat;
  calcCount : nat
}.
Arguments mkVariable {V}.
Arguments requiredVariables {V}.
Arguments subscribedVariables {V}.
Arguments value {V}.
Arguments stale {V}.
Arguments _cached {V}.
Arguments cls {V}.
Arguments calcValue {V}.
Arguments opShape {V}.
Arguments markCount {V}.
Arguments calcCount {V}.

Abbreviation heap V := (gmap nat (variable V)).

Definition with_requiredVariables {V} (l : list nat) (v : variable V) : variable V :=
  mkVariable l (subscribedVariables v) (value v) (stale v) (_cached v)
             (cls v) (calcValue v) (opShape v) (markCount v) (calcCount v).

Definition with_subscribedVariables {V} (l : list nat) (v : variable V) : variable V :=
  mkVariable (requiredVariables v) l (value v) (stale v) (_cached v)
             (cls v) (calcValue v) (opShape v) (markCount v) (calcCount v).

Definition with_value {V} (x : option V) (v : variable V) : variable V :=
  mkVariable (requiredVariables v) (subscribedVariables v) x (stale v) (_cached v)
             (cls v) (calcValue v) (opShape v) (markCount v) (calcCount v).

Definition with_stale {V} (b : bool) (v : variable V) : variable V :=
  mkVariable (requiredVariables v) (subscribedVariables v) (value v) b (_cached v)
             (cls v) (calcValue v) (opShape v) (markCount v) (calcCount v).

Definition with_cached {V} (b : bool) (v : variable V) : variable V :=
  mkVariable (requiredVariables v) (subscribedVariables v) (value v) (stale v) b
             (cls v) (calcValue v) (opShape v) (markCount v) (calcCount v).

Definition tick_mark {V} (v : variable V) : variable V :=
  mkVariable (requiredVariables v) (subscribedVariables v) (value v) (stale v) (_cached v)
             (cls v) (calcValue v) (opShape v) (S (markCount v)) (calcCount v).

Definition tick_calc {V} (v : variable V) : variable V :=
  mkVariable (requiredVariables v) (subscribedVariables v) (value v) (stale v) (_cached v)
             (cls v) (calcValue v) (opShape v) (markCount v) (S (calcCount v)).

(** [sub() is not None] for a weak reference [sub]. *)
Definition resolves {V} (h : heap V) (sub : nat) : bool :=
  bool_decide (is_Some (h !! sub)).

(** ** The dependency graph and the staleness propagator *)

(** [getSubscribedVariables]: rebinds [self.subscribedVariables] to the
    list of the references that still resolve and returns that list. *)
Definition getSubscribedVariables {V} (h : heap V) (self : nat) : heap V * list nat :=
  match h !! self with
  | Some v =>
      let subs := filter (λ sub, resolves h sub = true) (subscribedVariables v) in
      (<[self := with_subscribedVariables subs v]> h, subs)
  | None => (h, [])
  end.

(** The loop of [__markStale] over the list returned by
    [getSubscribedVariables]; [visit] is [subscriber()._markStale()].
    The list comprehension built a new list object, so the loop runs
    over a snapshot. *)
Fixpoint for_subscribers {V} (visit : heap V → nat → option (heap V))
    (subs : list nat) (h : heap V) : option (heap V) :=
  match subs with
  | [] => Some h
  | subscriber :: rest =>
      match (if resolves h subscriber then visit h subscriber else Some h) with
      | Some h' => for_subscribers visit rest h'
      | None => None
      end
  end.

Definition __markStale {V} (visit : heap V → nat → option (heap V))
    (h : heap V) (self : nat) : option (heap V) :=
  let '(h1, subs) := getSubscribedVariables h self in
  for_subscribers visit subs h1.

(** [_markStale].  The recursion of the source is not structural; the
    model takes the recursion depth that is allowed as [fuel] and
    answers [None] when it is used up.  A method is never invoked on a
    reclaimed object (the caller tests [subscriber()] first), the model
    leaves the heap alone there. *)
Fixpoint _markStale {V} (fuel : nat) (h : heap V) (self : nat) : option (heap V) :=
  match fuel with
  | 0 => None
  | S fuel' =>
      match h !! self with
      | None => Some h
      | Some v =>
          if stale v then Some h
          else __markStale (_markStale fuel')
                 (<[self := tick_mark (with_stale true v)]> h) self
      end
  end.

(** [_markFresh]: clears the flag of [self], then runs [__markStale]. *)
Definition _markFresh {V} (fuel : nat) (h : heap V) (self : nat) : option (heap V) :=
  match h !! self with
  | None => Some h
  | Some v => __markStale (_markStale fuel) (<[self := with_stale false v]> h) self
  end.

(** ** Caching switches *)

(** The class attributes [_cacheAlways] (set from the environment
    variable FIPY_CACHE and the flags --cache / --no-cache) and
    [_cacheNever]. *)
Record config := mkConfig {
  _cacheAlways : bool;
  _cacheNever : bool
}.

Definition _isCached {V} (cfg : config) (v : variable V) : bool :=
  _cacheAlways cfg || (_cached v && negb (_cacheNever cfg)).

(** A [for var in self.requiredVariables] loop; required variables are
    strong references. *)
Fixpoint for_required {V} (visit : heap V → nat → option (heap V))
    (vars : list nat) (h : heap V) : option (heap V) :=
  match vars with
  | [] => Some h
  | var :: rest =>
      match visit h var with
      | Some h' => for_required visit rest h'
      | None => None
      end
  end.

(** [cacheMe] and [dontCacheMe]; [None] when [fuel] is used up.  On an
    identity that is not bound (which a strong reference never is) the
    model leaves the heap alone. *)
Fixpoint cacheMe {V} (fuel : nat) (h : heap V) (self : nat) (recursive : bool)
    : option (heap V) :=
  match fuel with
  | 0 => None
  | S fuel' =>
      match h !! self with
      | None => Some h
      | Some v =>
          let h1 := <[self := with_cached true v]> h in
          if recursive
          then for_required (λ h' var, cacheMe fuel' h' var true) (requiredVariables v) h1
          else Some h1
      end
  end.

Fixpoint dontCacheMe {V} (fuel : nat) (h : heap V) (self : nat) (recursive : bool)
    : option (heap V) :=
  match fuel with
  | 0 => None
  | S fuel' =>
      match h !! self with
      | None => Some h
      | Some v =>
          let h1 := <[self := with_cached false v]> h in
          if recursive
          then for_required (λ h' var, dontCacheMe fuel' h' var false) (requiredVariables v) h1
          else Some h1
      end
  end.

(** ** The evaluation engine *)

(** What the engine needs of [fipy.tools.numerix] and
    [fipy.tools.dimensions.physicalField], which are libraries outside
    this file.  [nx_array cur x] is what [_makeValue] stores for a value
    [x] that is not [None] when the slot holds [cur]; [nx_fill mask x]
    is the temporary array of the mask's shape filled with [x] and
    [nx_where] the masked merge of [setValue]; [nx_setitem] and [nx_put]
    are the element writes. *)
Class Numerix (V : Type) := {
  nx_array : option V → V → V;
  nx_getShape : V → list nat;
  nx_isDimensionless : V → bool;
  nx_fill : V → V → exn + V;
  nx_where : V → V → option V → exn + V;
  nx_setitem : V → nat → V → exn + V;
  nx_put : V → list nat → V → exn + V
}.

(** A call ends by returning, by raising (the heap is the one at the
    point of the raise), or has used up its fuel. *)
Inductive outcome (V A : Type) :=
  | Ret (a : A) (h : heap V)
  | Raise (e : exn) (h : heap V)
  | NoFuel.
Arguments Ret {V A} a h.
Arguments Raise {V A} e h.
Arguments NoFuel {V A}.

Definition M (V A : Type) : Type := heap V → outcome V A.

Definition ret {V A} (a : A) : M V A := λ h, Ret a h.

Definition bind {V A B} (k : A → M V B) (m : M V A) : M V B :=
  λ h, match m h with
       | Ret a h' => k a h'
       | Raise e h' => Raise e h'
       | NoFuel => NoFuel
       end.

#[global] Instance M_ret {V} : MRet (M V) := λ A, ret.
#[global] Instance M_bind {V} : MBind (M V) := λ A B, bind.

Definition raise {V A} (e : exn) : M V A := λ h, Raise e h.

(** A propagation step inside a call. *)
Definition lift {V} (f : heap V → option (heap V)) : M V unit :=
  λ h, match f h with Some h' => Ret tt h' | None => NoFuel end.

(** Reading [self]; a dead identity is a dangling reference. *)
Definition this {V} (self : nat) : M V (variable V) :=
  λ h, match h !! self with Some v => Ret v h | None => Raise DanglingReference h end.

Definition modify {V} (self : nat) (f : variable V → variable V) : M V unit :=
  λ h, match h !! self with
       | Some v => Ret tt (<[self := f v]> h)
       | None => Raise DanglingReference h
       end.

Definition isNone {A} (x : option A) : bool :=
  match x with None => true | Some _ => false end.

(** [_makeValue] with [unit=None] and [array=None]: [None] stays
    [None]. *)
Definition _makeValue {V} `{Numerix V} (v : variable V) (x : option V) : option V :=
  match x with
  | None => None
  | Some x => Some (nx_array (value v) x)
  end.

Definition _setValue {V} `{Numerix V} (self : nat) (x : option V) : M V unit :=
  modify self (λ v, with_value (_makeValue v x) v).

(** Evaluating the operands in order. *)
Fixpoint eval_operands {V} (eval : nat → M V (option V)) (vars : list nat)
    : M V (list (option V)) :=
  match vars with
  | [] => ret []
  | var :: rest =>
      x ← eval var;
      xs ← eval_operands eval rest;
      ret (x :: xs)
  end.

(** [_calcValue].  [Variable._calcValue] returns [self.value].
    Modelled from the spec: the [_calcValue] of an operator variable
    (module operatorVariable is not part of the sources): it evaluates
    every operand through [getValue], in order, then applies the node's
    function, whose domain errors surface to the caller. *)
Definition _calcValue {V} (eval : nat → M V (option V)) (self : nat) : M V (option V) :=
  modify self tick_calc ;;
  v ← this self;
  match calcValue v with
  | Leaf => ret (value v)
  | Operator op =>
      xs ← eval_operands eval (requiredVariables v);
      match op xs with
      | inl e => raise e
      | inr x => ret x
      end
  end.

(** [getValue]. *)
Fixpoint getValue {V} `{Numerix V} (cfg : config) (fuel : nat) (self : nat)
    : M V (option V) :=
  match fuel with
  | 0 => λ _, NoFuel
  | S fuel' =>
      v ← this self;
      if stale v || negb (_isCached cfg v) || isNone (value v)
      then
        x ← _calcValue (getValue cfg fuel') self;
        v' ← this self;
        (if _isCached cfg v' then _setValue self x else _setValue self None) ;;
        lift (λ h, _markFresh fuel' h self) ;;
        ret x
      else ret (value v)
  end.

(** ** Mutation *)

(** [setValue(value, where=mask)] with [unit=None], [array=None] and a
    [value] that is not itself a [Variable]; [tmp = value.copy()] is
    the identity on immutable model values. *)
Definition setValue {V} `{Numerix V} (cfg : config) (fuel : nat) (self : nat)
    (x : V) (mask : option V) : M V unit :=
  tmp ← match mask with
        | Some w =>
            match nx_fill w x with
            | inl e => raise e
            | inr t =>
                cur ← getValue cfg fuel self;
                match nx_where w t cur with
                | inl e => raise e
                | inr t' => ret t'
                end
            end
        | None => ret x
        end;
  _setValue self (Some tmp);;
  lift (λ h, _markFresh fuel h self).

(** [self.value[index] = value] and [numerix.put(selfvalue, ...)] write
    into the array object that the slot holds; on [None] the
    subscription raises [TypeError]. *)
Definition write_slot {V} (self : nat) (f : V → exn + V) : M V unit :=
  v ← this self;
  match value v with
  | None => raise TypeError
  | Some a =>
      match f a with
      | inl e => raise e
      | inr a' => modify self (with_value (Some a'))
      end
  end.

Definition __setitem__ {V} `{Numerix V} (cfg : config) (fuel : nat) (self : nat)
    (index : nat) (x : V) : M V unit :=
  v ← this self;
  (if isNone (value v) then getValue cfg fuel self;; ret tt else ret tt);;
  write_slot self (λ a, nx_setitem a index x);;
  lift (λ h, _markFresh fuel h self).

(** [put]: [numerix.put] writes into the array returned by [getValue];
    the slot is that array when it holds one, and a node that does not
    cache got a temporary. *)
Definition put {V} `{Numerix V} (cfg : config) (fuel : nat) (self : nat)
    (indices : list nat) (x : V) : M V unit :=
  selfvalue ← getValue cfg fuel self;
  v ← this self;
  match selfvalue, value v with
  | None, _ => raise TypeError
  | Some a, None =>
      match nx_put a indices x with inl e => raise e | inr _ => ret tt end
  | Some _, Some _ => write_slot self (λ a, nx_put a indices x)
  end;;
  lift (λ h, _markFresh fuel h self).

(** ** Construction *)

(** Object identity of a new object: distinct from every live object and
    from every reclaimed one that a weak reference still names. *)
Definition mentioned {V} (h : heap V) : list nat :=
  (map_to_list h).*1 ++ mjoin (subscribedVariables <$> (map_to_list h).*2).

Definition fresh_id {V} (h : heap V) : nat := S (max_list (mentioned h)).

Definition alloc {V} (v : variable V) : M V nat :=
  λ h, let self := fresh_id h in Ret self (<[self := v]> h).

(** [Variable.__init__(value, cached)] for an object of class [c];
    [calc] and [shape] are what a subclass adds. *)
Definition Variable__init__ {V} `{Numerix V} (fuel : nat) (c : VClass) (calc : calc V)
    (shape : option (list nat)) (x : option V) (cached : bool) : M V nat :=
  let blank := mkVariable [] [] None true cached c calc shape 0 0 in
  self ← alloc (with_value (_makeValue blank x) blank);
  lift (λ h, _markFresh fuel h self);;
  ret self.

Definition _requiredBy {V} (self : nat) (var : nat) : M V unit :=
  modify self (λ v, with_subscribedVariables (subscribedVariables v ++ [var]) v).

Definition _requires {V} (fuel : nat) (self : nat) (var : nat) : M V unit :=
  modify self (λ v, with_requiredVariables (requiredVariables v ++ [var]) v);;
  _requiredBy var self;;
  lift (λ h, _markStale fuel h self).

Fixpoint for_each {V} (f : nat → M V unit) (vars : list nat) : M V unit :=
  match vars with
  | [] => ret tt
  | var :: rest => f var;; for_each f rest
  end.

(** Modelled from the spec: the class [_Constant] (module constant is
    not part of the sources), an implicit constant leaf node. *)
Definition _Constant {V} `{Numerix V} (fuel : nat) (x : V) : M V nat :=
  Variable__init__ fuel C_Constant Leaf None (Some x) true.

(** Modelled from the spec: the constructor of the operator classes
    (modules operatorVariable, unaryOperatorVariable and
    binaryOperatorVariable are not part of the sources): it allocates a
    node with the declared result shape and nothing cached, and
    registers a dependency edge for every operand, which marks the new
    node dirty. *)
Definition OperatorVariable__init__ {V} `{Numerix V} (fuel : nat) (base : VClass)
    (op : list (option V) → exn + option V) (var : list nat) (shape : list nat)
    (canInline : bool) : M V nat :=
  self ← Variable__init__ fuel base (Operator op) (Some shape) None true;
  for_each (_requires fuel self) var;;
  ret self.

(** [getShape]: the shape of the stored value, [()] when there is
    none.  Modelled from the spec: an expression node answers its
    declared result shape. *)
Definition getShape {V} `{Numerix V} (v : variable V) : list nat :=
  match opShape v with
  | Some s => s
  | None => match value v with Some x => nx_getShape x | None => [] end
  end.

(** Modelled from the spec: [numerix._broadcastShapes] (numerix is not
    part of the sources): dimensions are compared right-aligned; two
    dimensions are compatible if they are equal or if either is 1 or
    absent. *)
Fixpoint broadcast_aligned (a b : list nat) : option (list nat) :=
  match a, b with
  | [], _ => Some b
  | _, [] => Some a
  | x :: a', y :: b' =>
      if bool_decide (x = y) then cons x <$> broadcast_aligned a' b'
      else if bool_decide (x = 1) then cons y <$> broadcast_aligned a' b'
      else if bool_decide (y = 1) then cons x <$> broadcast_aligned a' b'
      else None
  end.

Definition _broadcastShapes (a b : list nat) : option (list nat) :=
  reverse <$> broadcast_aligned (reverse a) (reverse b).

(** [_broadcastShape]; no [_IndexVariable_] exists in the model. *)
Definition _broadcastShape {V} `{Numerix V} (self other : variable V) : option (list nat) :=
  _broadcastShapes (getShape self) (getShape other).

Definition isinstance (c base : VClass) : bool :=
  match base, c with
  | CVariable, _ => true
  | C_Constant, C_Constant => true
  | C_Constant, CVariable => false
  end.

(** [_getArithmeticBaseClass(other)]; with [other=None] it answers
    [Variable]. *)
Definition _getArithmeticBaseClass {V} `{Numerix V} (self : variable V)
    (other : option (variable V)) : option VClass :=
  match other with
  | None => Some CVariable
  | Some o =>
      match _broadcastShape self o with
      | Some _ =>
          if isinstance (cls self) CVariable || isinstance (cls o) C_Constant
          then Some CVariable
          else None
      | None => None
      end
  end.

Definition _shapeClassAndOther {V} `{Numerix V} (self : variable V)
    (opShape : option (list nat)) (operatorClass : option VClass) (other : variable V)
    : option (list nat) * option VClass :=
  let baseClass :=
    match operatorClass with
    | Some c => Some c
    | None => _getArithmeticBaseClass self (Some other)
    end in
  let opShape :=
    match opShape with
    | Some s => Some s
    | None => _broadcastShape self other
    end in
  (opShape, baseClass).

(** The right-hand operand of a binary operator. *)
Inductive operand (V : Type) :=
  | Node (i : nat)
  | Raw (x : V).
Arguments Node {V} i.
Arguments Raw {V} x.

Inductive opresult :=
  | NotImplemented
  | Created (n : nat).

(** [v.getUnit().isDimensionless()]: [getUnit] evaluates the variable. *)
Definition unit_isDimensionless {V} `{Numerix V} (cfg : config) (fuel : nat) (v : nat)
    : M V bool :=
  x ← getValue cfg fuel v;
  ret match x with Some a => nx_isDimensionless a | None => true end.

Fixpoint units_allow_inline {V} `{Numerix V} (cfg : config) (fuel : nat)
    (vars : list nat) (canInline : bool) : M V bool :=
  match vars with
  | [] => ret canInline
  | v :: rest =>
      d ← unit_isDimensionless cfg fuel v;
      units_allow_inline cfg fuel rest (if (d : bool) then canInline else false)
  end.

(** [_BinaryOperatorVariable]. *)
Definition _BinaryOperatorVariable {V} `{Numerix V} (cfg : config) (fuel : nat)
    (self : nat) (op : list (option V) → exn + option V) (other : operand V)
    (operatorClass : option VClass) (opShape : option (list nat)) (canInline : bool)
    : M V opresult :=
  other ← match other with
          | Node o => ret o
          | Raw x => _Constant fuel x
          end;
  vs ← this self;
  vo ← this other;
  let '(opShape, baseClass) :=
    if isNone opShape || isNone operatorClass
    then _shapeClassAndOther vs opShape operatorClass vo
    else (opShape, None) in
  match opShape, (if isNone operatorClass then baseClass else operatorClass) with
  | None, _ | _, None => ret NotImplemented
  | Some shape, Some c =>
      canInline ← units_allow_inline cfg fuel [self; other] canInline;
      n ← OperatorVariable__init__ fuel c op [self; other] shape canInline;
      ret (Created n)
  end.

(** [_UnaryOperatorVariable]. *)
Definition _UnaryOperatorVariable {V} `{Numerix V} (cfg : config) (fuel : nat)
    (self : nat) (op : list (option V) → exn + option V)
    (operatorClass : option VClass) (opShape : option (list nat)) (canInline : bool)
    : M V opresult :=
  vs ← this self;
  let c := default CVariable operatorClass in
  let shape := default (getShape vs) opShape in
  canInline ← units_allow_inline cfg fuel [self] canInline;
  n ← OperatorVariable__init__ fuel c op [self] shape canInline;
  ret (Created n).



From stdpp Require Import strings.

(** ** Further methods *)

(** [copy]: [Variable(value=self)], whose constructor takes
    [self._copyValue()], the evaluated value of the original, as the
    value of a new caching [Variable]; the copy of the array is the
    identity on immutable model values.  The new object has no
    attribute yet while the original is evaluated, so its identity is
    drawn after the evaluation. *)
Definition copy {V} `{Numerix V} (cfg : config) (fuel : nat) (self : nat) : M V nat :=
  x ← getValue cfg fuel self;
  Variable__init__ fuel CVariable Leaf None x true.

(** [allclose] and [allequal]: binary operator nodes whose class is
    the operator class over [Variable] and whose shape is [()], both
    given by the caller; [op] is the comparison of the two arrays. *)
Definition allclose {V} `{Numerix V} (cfg : config) (fuel : nat) (self : nat)
    (op : list (option V) → exn + option V) (other : operand V) : M V opresult :=
  _BinaryOperatorVariable cfg fuel self op other (Some CVariable) (Some []) false.

Definition allequal {V} `{Numerix V} (cfg : config) (fuel : nat) (self : nat)
    (op : list (option V) → exn + option V) (other : operand V) : M V opresult :=
  _BinaryOperatorVariable cfg fuel self op other (Some CVariable) (Some []) false.

(** ** Shapes of axis operations *)

(** Indexing [l[i]] of a tuple: a negative index counts from the end;
    [None] is [IndexError]. *)
Definition py_index {A} (l : list A) (i : Z) : option A :=
  let len := Z.of_nat (length l) in
  let k := if (i <? 0)%Z then (i + len)%Z else i in
  if ((0 <=? k) && (k <? len))%Z then l !! Z.to_nat k else None.

(** A bound of a slice: a negative bound counts from the end, and the
    result is clipped to the sequence. *)
Definition py_bound (len i : Z) : Z :=
  if (i <? 0)%Z then Z.max 0 (i + len) else Z.min i len.

(** The slice [l[lo:hi]]; [None] is an omitted bound. *)
Definition py_slice {A} (l : list A) (lo hi : option Z) : list A :=
  let len := Z.of_nat (length l) in
  let a := match lo with Some i => py_bound len i | None => 0%Z end in
  let b := match hi with Some i => py_bound len i | None => len end in
  take (Z.to_nat (b - a)) (drop (Z.to_nat a) l).

(** [shape[:axis] + shape[axis+1:]], the result shape that
    [_axisOperator] and [dot] declare. *)
Definition drop_axis {A} (shape : list A) (axis : Z) : list A :=
  py_slice shape None (Some axis) ++ py_slice shape (Some (axis + 1)%Z) None.

(** The attribute dictionaries that [_axisOperator] creates on its
    objects ([sumVar], [maxVar], ...), as one table keyed by the owner,
    the name of the attribute and the axis. *)
Abbreviation opdicts := (gmap (nat * string * option Z) opresult).

(** [_axisOperator]; [_axisClass] answers the operator class over
    [Variable]. *)
Definition _axisOperator {V} `{Numerix V} (cfg : config) (fuel : nat) (dicts : opdicts)
    (self : nat) (opname : string) (op : list (option V) → exn + option V)
    (axis : option Z) : M V (opresult * opdicts) :=
  match dicts !! (self, opname, axis) with
  | Some r => ret (r, dicts)
  | None =>
      opShape ← match axis with
                | None => ret []
                | Some a => vs ← this self; ret (drop_axis (getShape vs) a)
                end;
      r ← _UnaryOperatorVariable cfg fuel self op (Some CVariable) (Some opShape) false;
      ret (r, <[(self, opname, axis) := r]> dicts)
  end.

(** [sum], [max], [min] and [mean]; [op] is the reduction of numerix
    along [axis]. *)
Module reductions.

Definition sum {V} `{Numerix V} (cfg : config) (fuel : nat) (dicts : opdicts)
    (self : nat) (op : list (option V) → exn + option V) (axis : option Z) :=
  _axisOperator cfg fuel dicts self "sumVar" op axis.

Definition max {V} `{Numerix V} (cfg : config) (fuel : nat) (dicts : opdicts)
    (self : nat) (op : list (option V) → exn + option V) (axis : option Z) :=
  _axisOperator cfg fuel dicts self "maxVar" op axis.

Definition min {V} `{Numerix V} (cfg : config) (fuel : nat) (dicts : opdicts)
    (self : nat) (op : list (option V) → exn + option V) (axis : option Z) :=
  _axisOperator cfg fuel dicts self "minVar" op axis.

Definition mean {V} `{Numerix V} (cfg : config) (fuel : nat) (dicts : opdicts)
    (self : nat) (op : list (option V) → exn + option V) (axis : option Z) :=
  _axisOperator cfg fuel dicts self "meanVar" op axis.

End reductions.

(** [dot]: the shape is the broadcast shape of the operands without
    the entry of [axis]; subscripting the [None] of operands that do
    not broadcast raises [TypeError]. *)
Definition dot {V} `{Numerix V} (cfg : config) (fuel : nat) (self : nat)
    (op : list (option V) → exn + option V) (other : operand V) (axis : Z)
    : M V opresult :=
  other ← match other with
          | Node o => ret o
          | Raw x => _Constant fuel x
          end;
  vs ← this self;
  vo ← this other;
  match _broadcastShape vs vo with
  | None => raise TypeError
  | Some opShape =>
      _BinaryOperatorVariable cfg fuel self op (Node other) None
        (Some (drop_axis opShape axis)) false
  end.

(** [(S[a],) + S[1:a] + (S[0],) + S[a+1:]], the shape with the entries
    0 and [a] exchanged, as [__cross] computes it. *)
Definition swap_axis {A} (S : list A) (a : Z) : exn + list A :=
  match py_index S a with
  | None => inl IndexError
  | Some x =>
      match py_index S 0 with
      | None => inl IndexError
      | Some y =>
          inr ([x] ++ py_slice S (Some 1%Z) (Some a) ++ [y]
                   ++ py_slice S (Some (a + 1)%Z) None)
      end
  end.

Definition is_2_or_3 (d : nat) : bool := bool_decide (d = 2) || bool_decide (d = 3).

(** The shape computation of [__cross]; [bshape] is
    [numerix._broadcastShape], which answers [None] for shapes that do
    not broadcast, after which [(3,) + opShape] or [len(opShape)]
    raises [TypeError]. *)
Definition cross_opShape (bshape : list nat → list nat → option (list nat))
    (Ashape Bshape : list nat) (axisa axisb axisc : Z) (axis : option Z)
    : exn + list nat :=
  let axisa := match axis with Some a => a | None => axisa end in
  let axisb := match axis with Some a => a | None => axisb end in
  let axisc := match axis with Some a => a | None => axisc end in
  let axisa := if (axisa <? 0)%Z then (Z.of_nat (length Ashape) + axisa)%Z else axisa in
  let axisb := if (axisb <? 0)%Z then (Z.of_nat (length Bshape) + axisb)%Z else axisb in
  match (if (axisa =? 0)%Z then inr Ashape else swap_axis Ashape axisa) with
  | inl e => inl e
  | inr Ashape =>
      match (if (axisb =? 0)%Z then inr Bshape else swap_axis Bshape axisb) with
      | inl e => inl e
      | inr Bshape =>
          match py_index Ashape 0 with
          | None => inl IndexError
          | Some a0 =>
              if negb (is_2_or_3 a0) then inl ValueError
              else
                match py_index Bshape 0 with
                | None => inl IndexError
                | Some b0 =>
                    if negb (is_2_or_3 b0) then inl ValueError
                    else
                      match bshape (py_slice Ashape (Some 1%Z) None)
                                   (py_slice Bshape (Some 1%Z) None) with
                      | None => inl TypeError
                      | Some opShape =>
                          let opShape :=
                            if bool_decide (a0 = 2)
                            then (if bool_decide (b0 = 3) then 3 :: opShape else opShape)
                            else (if bool_decide (a0 = 3) then 3 :: opShape else opShape) in
                          if bool_decide (1 < length opShape)
                          then
                            let axisc :=
                              if (axisc <? 0)%Z
                              then (Z.of_nat (length opShape) + axisc)%Z else axisc in
                            if (axisc =? 0)%Z then inr opShape
                            else swap_axis opShape axisc
                          else inr opShape
                      end
                end
          end
      end
  end.



(** ** Example values and heaps *)

(** A scalar or a one-dimensional array of integers. *)
Inductive arr :=
  | Scalar (z : Z)
  | Vec (l : list Z).

Definition arr_array (cur : option arr) (x : arr) : arr :=
  match x, cur with
  | Scalar z, Some (Vec l) => Vec (replicate (length l) z)
  | _, _ => x
  end.

Definition arr_getShape (a : arr) : list nat :=
  match a with Scalar _ => [] | Vec l => [length l] end.

Definition arr_where (mask t : arr) (cur : option arr) : exn + arr :=
  match mask, t, cur with
  | Vec m, Vec new, Some (Vec old) =>
      if bool_decide (length m = length new ∧ length m = length old)
      then inr (Vec (zip_with (λ b p, if bool_decide (b = 0%Z) then p.2 else p.1)
                              m (zip new old)))
      else inl ValueError
  | _, _, _ => inl ValueError
  end.

Definition arr_fill (mask x : arr) : exn + arr :=
  match mask, x with
  | Vec m, Scalar z => inr (Vec (replicate (length m) z))
  | Vec m, Vec l => if bool_decide (length m = length l) then inr (Vec l) else inl ValueError
  | Scalar _, _ => inl ValueError
  end.

Definition arr_setitem (a : arr) (index : nat) (x : arr) : exn + arr :=
  match a, x with
  | Vec l, Scalar z =>
      if bool_decide (index < length l) then inr (Vec (<[index := z]> l)) else inl IndexError
  | _, _ => inl IndexError
  end.

Definition arr_put (a : arr) (indices : list nat) (x : arr) : exn + arr :=
  match a, x with
  | Vec l, Scalar z =>
      if bool_decide (Forall (λ i, i < length l) indices)
      then inr (Vec (foldr (λ i acc, <[i := z]> acc) l indices))
      else inl IndexError
  | _, _ => inl IndexError
  end.

#[global] Instance arr_numerix : Numerix arr := {|
  nx_array := arr_array;
  nx_getShape := arr_getShape;
  nx_isDimensionless := λ _, true;
  nx_fill := arr_fill;
  nx_where := arr_where;
  nx_setitem := arr_setitem;
  nx_put := arr_put
|}.

(** Element-wise sum of the operands; a missing operand or operands of
    different lengths are a domain error. *)
Definition arr_add2 (a b : arr) : exn + option arr :=
  match a, b with
  | Scalar x, Scalar y => inr (Some (Scalar (x + y)))
  | Vec l, Scalar y => inr (Some (Vec ((λ x, x + y)%Z <$> l)))
  | Scalar x, Vec l => inr (Some (Vec ((λ y, x + y)%Z <$> l)))
  | Vec l, Vec l' =>
      if bool_decide (length l = length l')
      then inr (Some (Vec (zip_with Z.add l l')))
      else inl EvaluationError
  end.

Definition arr_sum (args : list (option arr)) : exn + option arr :=
  match args with
  | [Some a] => inr (Some a)
  | [Some a; Some b] => arr_add2 a b
  | _ => inl EvaluationError
  end.

Definition default_config : config := mkConfig false false.
Definition cache_always : config := mkConfig true false.

Definition ex_leaf (subs : list nat) (x : arr) (st : bool) : variable arr :=
  mkVariable [] subs (Some x) st true CVariable Leaf None 0 0.

Definition ex_node (reqs subs : list nat) (x : option arr) (st cached : bool)
    : variable arr :=
  mkVariable reqs subs x st cached CVariable (Operator arr_sum) (Some []) 0 0.

(** a (0) is required by b (1), which is required by c (2); a also
    holds a weak reference to a reclaimed object (7). *)
Definition chain_abc (sb sc : bool) : heap arr :=
  <[0 := ex_leaf [7; 1] (Scalar 3) false]>
  (<[1 := ex_node [0] [2] (Some (Scalar 3)) sb true]>
  (<[2 := ex_node [1] [] (Some (Scalar 3)) sc true]> ∅)).

(** a (0) is required by b (1); b is fresh and was told not to cache. *)
Definition pair_ab (slot : option arr) : heap arr :=
  <[0 := ex_leaf [1] (Scalar 3) false]>
  (<[1 := ex_node [0] [] slot false false]> ∅).

(** Two leaves of lengths 3 and 4 and their (dirty) sum e (2), whose
    evaluation is a domain error. *)
Definition mismatch : heap arr :=
  <[0 := ex_leaf [2] (Vec [1; 2; 3]%Z) false]>
  (<[1 := ex_leaf [2] (Vec [1; 2; 3; 4]%Z) false]>
  (<[2 := ex_node [0; 1] [] None true true]> ∅)).


(** A leaf of shape (3,), a scalar leaf and a leaf of shape (4,). *)
Definition three_leaves : heap arr :=
  <[0 := ex_leaf [] (Vec [1; 2; 3]%Z) false]>
  (<[1 := ex_leaf [] (Scalar 4) false]>
  (<[2 := ex_leaf [] (Vec [1; 2; 3; 4]%Z) false]> ∅)).

(** The chain a, b, c where b is fresh and does not cache, and c is
    fresh with a cached value. *)
Definition chain_uncached : heap arr :=
  <[0 := ex_leaf [1] (Scalar 3) false]>
  (<[1 := ex_node [0] [2] None false false]>
  (<[2 := ex_node [1] [] (Some (Scalar 3)) false true]> ∅)).

(** Two leaves l0 (0) and l1 (1); m (2) = f(l0) does not cache;
    y1 (3) = l1 + m, y2 (4) = f(m) and x (5) = y1 + y2 cache.  The
    expression nodes are as their construction leaves them: dirty, with
    nothing in the slot. *)
Definition diamond : heap arr :=
  <[0 := ex_leaf [2] (Scalar 1) false]>
  (<[1 := ex_leaf [3] (Scalar 10) false]>
  (<[2 := ex_node [0] [3; 4] None true false]>
  (<[3 := ex_node [1; 2] [5] None true true]>
  (<[4 := ex_node [2] [5] None true true]>
  (<[5 := ex_node [3; 4] [] None true true]> ∅))))).


(** A single leaf that was told not to cache. *)
Definition lone_uncached : heap arr :=
  <[0 := mkVariable [] [] (Some (Scalar 3)) false false CVariable Leaf None 0 0]> ∅.

(** A dirty operator node that requires itself. *)
Definition self_loop : heap arr :=
  <[0 := ex_node [0] [0] None true true]> ∅.
(** ** Vocabulary of the properties *)

Definition is_stale {V} (h : heap V) (j : nat) : Prop :=
  ∃ v, h !! j = Some v ∧ stale v = true.

Definition is_fresh {V} (h : heap V) (j : nat) : Prop :=
  ∃ v, h !! j = Some v ∧ stale v = false.

(** A requiredBy edge whose weak reference resolves. *)
Definition sub_edge {V} (h : heap V) (a b : nat) : Prop :=
  ∃ v, h !! a = Some v ∧ b ∈ subscribedVariables v ∧ is_Some (h !! b).

(** A requires edge. *)
Definition req_edge {V} (h : heap V) (a b : nat) : Prop :=
  ∃ v, h !! a = Some v ∧ b ∈ requiredVariables v.

(** What the guarded body of [_markStale] leaves of a fresh node. *)
Definition marked {V} (h : heap V) (v : variable V) : variable V :=
  with_subscribedVariables
    (filter (λ sub, resolves h sub = true) (subscribedVariables v))
    (tick_mark (with_stale true v)).

(** [h'] comes from [h] by marking: no object appears or disappears and
    every object is either untouched or was fresh and is now [marked]. *)
Definition propagates {V} (h h' : heap V) : Prop :=
  (∀ j, h !! j = None → h' !! j = None) ∧
  (∀ j v, h !! j = Some v →
     h' !! j = Some v ∨ (stale v = false ∧ h' !! j = Some (marked h v))).

(** Every node that the step from [h] to [h'] marked has all its live
    subscribers stale in [h']. *)
Definition marks_closed {V} (h h' : heap V) : Prop :=
  ∀ j s, is_fresh h j → is_stale h' j → sub_edge h j s → is_stale h' s.


(** [m] is reached from [a] in one or more live requiredBy steps whose
    intermediate nodes are all fresh. *)
Inductive fresh_reach {V} (h : heap V) : nat → nat → Prop :=
  | fresh_reach_edge a m : sub_edge h a m → fresh_reach h a m
  | fresh_reach_via a p m :
      sub_edge h a p → is_fresh h p → fresh_reach h p m → fresh_reach h a m.

(** What one call [subscriber()._markStale()] from [h] to [h'] achieves:
    it only marks, the subscriber ends stale, the marking is closed, and
    nothing changes outside of what is reachable from the subscriber. *)
Definition step_ok {V} (h : heap V) (i : nat) (h' : heap V) : Prop :=
  propagates h h' ∧
  (is_Some (h !! i) → is_stale h' i) ∧
  marks_closed h h' ∧
  (∀ j, ¬ rtc (sub_edge h) i j → h' !! j = h !! j).

(** The live nodes whose dirty flag is clear. *)
Definition fresh_nodes {V} (h : heap V) : gset nat :=
  dom (filter (λ kv, stale kv.2 = false) h).

(** What [_markFresh] leaves of [self] before it runs [__markStale]. *)
Definition freshened {V} (h : heap V) (v : variable V) : variable V :=
  with_subscribedVariables
    (filter (λ sub, resolves h sub = true) (subscribedVariables v))
    (with_stale false v).

(** Two heaps hold the same objects with the same requires lists and the
    same live requiredBy entries. *)
Definition same_node {V} (h : heap V) (v v' : variable V) : Prop :=
  requiredVariables v' = requiredVariables v ∧
  (∀ s, is_Some (h !! s) → s ∈ subscribedVariables v' ↔ s ∈ subscribedVariables v).

Definition same_graph {V} (h h' : heap V) : Prop :=
  ∀ j, match h !! j, h' !! j with
       | Some v, Some v' => same_node h v v'
       | None, None => True
       | _, _ => False
       end.

(** Everything but the dirty flag, the requiredBy list and the mark
    counter agrees. *)
Definition same_payload {V} (v v' : variable V) : Prop :=
  requiredVariables v' = requiredVariables v ∧ value v' = value v ∧
  _cached v' = _cached v ∧ cls v' = cls v ∧ calcValue v' = calcValue v ∧
  opShape v' = opShape v ∧ calcCount v' = calcCount v.

(** A call ended (returned or raised) in heap [h']. *)
Definition ended {V A} (o : outcome V A) (h' : heap V) : Prop :=
  (∃ a, o = Ret a h') ∨ (∃ e, o = Raise e h').

(** A write to the value slot or the evaluation counter of an object:
    flags and edges stay, the counter does not decrease. *)
Definition payload_write {V} (v w : variable V) : Prop :=
  requiredVariables w = requiredVariables v ∧
  subscribedVariables w = subscribedVariables v ∧
  stale w = stale v ∧ _cached w = _cached v ∧ cls w = cls v ∧
  calcValue w = calcValue v ∧ opShape w = opShape v ∧
  markCount w = markCount v ∧ calcCount v ≤ calcCount w.

(** The requires graph is acyclic: [rank] decreases along its edges. *)
Definition ranked {V} (rank : nat → nat) (h : heap V) : Prop :=
  ∀ a b, req_edge h a b → rank b < rank a.

(** The store that ends a recomputation in [getValue]. *)
Definition stored {V} `{Numerix V} (cfg : config) (v : variable V) (x : option V)
    : variable V :=
  with_value (if _isCached cfg v then _makeValue v x else None) v.

(** [rank] increases along the live requiredBy edges. *)
Definition sub_ranked {V} (rank : nat → nat) (h : heap V) : Prop :=
  ∀ a b, sub_edge h a b → rank a < rank b.



(** The attributes of [j] that no evaluation and no propagation
    changes. *)
Definition has_static {V} (h : heap V) (j : nat) (c : VClass) (k : calc V)
    (s : option (list nat)) (l : list nat) : Prop :=
  ∃ w, h !! j = Some w ∧ cls w = c ∧ calcValue w = k ∧ opShape w = s ∧
       requiredVariables w = l.

(** [getValue] answers from the slot of such a node. *)
Definition settled {V} (cfg : config) (v : variable V) : Prop :=
  stale v = false ∧ _isCached cfg v = true ∧ isNone (value v) = false.

(** The object that [Variable.__init__] leaves. *)
Definition initial {V} `{Numerix V} (c : VClass) (k : calc V) (s : option (list nat))
    (x : option V) (cached : bool) : variable V :=
  mkVariable [] [] (_makeValue (mkVariable [] [] None true cached c k s 0 0) x)
             false cached c k s 0 0.


(** A computation that leaves the dependency graph as it found it,
    whether it returns or raises. *)
Definition graph_stable {V A} (m : M V A) : Prop :=
  ∀ h h', ended (m h) h' → same_graph h h'.

(** The two edge lists agree: [a] requires [b] exactly if [b] holds a
    live weak reference to [a]. *)
Definition linked {V} (h : heap V) : Prop :=
  ∀ a b, req_edge h a b ↔ sub_edge h b a.

(** Objects only require objects that were created before them. *)
Definition creation_ordered {V} (h : heap V) : Prop :=
  ranked id h ∧ sub_ranked id h.

(** [h'] is [h] with the objects [news] added and, between [n] and
    every member of [vars], a requires edge and the requiredBy edge
    that mirrors it; no other object and no other edge appears or
    disappears. *)
Definition extends {V} (h h' : heap V) (news : list nat) (n : nat) (vars : list nat)
    : Prop :=
  (∀ j, j ∈ news → h !! j = None) ∧
  (∀ j, is_Some (h' !! j) ↔ is_Some (h !! j) ∨ j ∈ news) ∧
  (∀ a b, req_edge h' a b ↔ req_edge h a b ∨ (a = n ∧ b ∈ vars)) ∧
  (∀ a b, sub_edge h' a b ↔ sub_edge h a b ∨ (a ∈ vars ∧ b = n)).

(** An expression node as its construction leaves it: dirty, nothing
    in the slot, never evaluated, caching, no subscriber. *)
Definition born {V} (h : heap V) (n : nat) : Prop :=
  ∃ v, h !! n = Some v ∧ stale v = true ∧ value v = None ∧ calcCount v = 0 ∧
       _cached v = true ∧ subscribedVariables v = [].

Definition well_formed {V} (h : heap V) : Prop := linked h ∧ creation_ordered h.

(** One call of a method of this file on some object, whether it
    returns or raises, or the reclamation by the run time of an object
    that no live object requires. *)
Inductive api_step {V} `{Numerix V} (cfg : config) : heap V → heap V → Prop :=
  | api_new fuel c x cached h n h' :
      Variable__init__ fuel c Leaf None x cached h = Ret n h' → api_step cfg h h'
  | api_copy fuel self h h' :
      ended (copy cfg fuel self h) h' → api_step cfg h h'
  | api_binary fuel self op other oc os ci h h' :
      ended (_BinaryOperatorVariable cfg fuel self op other oc os ci h) h' →
      api_step cfg h h'
  | api_unary fuel self op oc os ci h h' :
      ended (_UnaryOperatorVariable cfg fuel self op oc os ci h) h' →
      api_step cfg h h'
  | api_getValue fuel n h h' :
      ended (getValue cfg fuel n h) h' → api_step cfg h h'
  | api_setValue fuel n x mask h h' :
      ended (setValue cfg fuel n x mask h) h' → api_step cfg h h'
  | api_setitem fuel n index x h h' :
      ended (__setitem__ cfg fuel n index x h) h' → api_step cfg h h'
  | api_put fuel n indices x h h' :
      ended (put cfg fuel n indices x h) h' → api_step cfg h h'
  | api_cacheMe fuel n recursive h h' :
      cacheMe fuel h n recursive = Some h' → api_step cfg h h'
  | api_dontCacheMe fuel n recursive h h' :
      dontCacheMe fuel h n recursive = Some h' → api_step cfg h h'
  | api_markStale fuel n h h' :
      _markStale fuel h n = Some h' → api_step cfg h h'
  | api_markFresh fuel n h h' :
      _markFresh fuel h n = Some h' → api_step cfg h h'
  | api_reclaim j h :
      (∀ a, ¬ req_edge h a j) → api_step cfg h (delete j h).

(** A computation that keeps [P], whether it returns or raises. *)
Definition preserves {V A} (P : heap V → Prop) (m : M V A) : Prop :=
  ∀ h h', P h → ended (m h) h' → P h'.

(** The object [n] is [w] and has no edge to or from another object. *)
Definition isolated {V} (n : nat) (w : variable V) (h : heap V) : Prop :=
  h !! n = Some w ∧ (∀ a, ¬ req_edge h a n) ∧ (∀ a, ¬ sub_edge h a n).
(** * Properties *)

Section propagation.
Context {V : Type}.
Implicit Types (h g : heap V) (v : variable V).

Lemma resolves_true h s : resolves h s = true ↔ is_Some (h !! s).
Proof. unfold resolves. apply bool_decide_eq_true. Qed.

Lemma resolves_insert h i v v' s :
  h !! i = Some v → resolves (<[i := v']> h) s = resolves h s.
Proof.
  intros Hi. unfold resolves. apply bool_decide_ext.
  destruct (decide (i = s)) as [->|Hne].
  - rewrite lookup_insert_eq, Hi. split; eauto.
  - by rewrite lookup_insert_ne.
Qed.

Lemma propagates_refl h : propagates h h.
Proof. split; auto. Qed.

Lemma propagates_resolves h h' s :
  propagates h h' → resolves h' s = resolves h s.
Proof.
  intros [Hn Hs]. unfold resolves. apply bool_decide_ext.
  destruct (h !! s) as [v|] eqn:E.
  - destruct (Hs _ _ E) as [->|[_ ->]]; split; eauto.
  - rewrite (Hn _ E). done.
Qed.

Lemma marked_ext h h' v :
  (∀ s, resolves h' s = resolves h s) → marked h' v = marked h v.
Proof.
  intros Hr. unfold marked. f_equal.
  apply list_filter_iff. intros s. by rewrite Hr.
Qed.

Lemma propagates_trans h h' h'' :
  propagates h h' → propagates h' h'' → propagates h h''.
Proof.
  intros H1 H2. pose proof (λ s, propagates_resolves _ _ s H1) as Hr.
  destruct H1 as [Hn1 Hs1], H2 as [Hn2 Hs2]. split.
  - intros j Hj. auto.
  - intros j v Hj. destruct (Hs1 _ _ Hj) as [E|[Hf E]].
    + destruct (Hs2 _ _ E) as [E'|[Hf' E']]; [by left|].
      right. split; [done|]. by rewrite E', (marked_ext h h').
    + destruct (Hs2 _ _ E) as [E'|[Hf' E']]; [by right|done].
Qed.

Lemma propagates_stale h h' j : propagates h h' → is_stale h j → is_stale h' j.
Proof.
  intros [_ Hs] (v & Hj & Hv). destruct (Hs _ _ Hj) as [E|[Hf _]].
  - by exists v.
  - congruence.
Qed.

Lemma propagates_is_Some h h' j : propagates h h' → is_Some (h' !! j) ↔ is_Some (h !! j).
Proof.
  intros H. rewrite <- !resolves_true. by rewrite (propagates_resolves _ _ _ H).
Qed.

Lemma propagates_edge h h' a b : propagates h h' → sub_edge h' a b ↔ sub_edge h a b.
Proof.
  intros H. pose proof (propagates_is_Some _ _ b H) as Hb.
  destruct H as [Hn Hs]. unfold sub_edge. split.
  - intros (v' & Ha & Hin & Hl). destruct (h !! a) as [v|] eqn:E.
    + exists v. split; [done|]. split; [|by apply Hb].
      destruct (Hs _ _ E) as [E'|[_ E']]; rewrite E' in Ha;
        injection Ha as <-; [done|].
      simpl in Hin. by apply list_elem_of_filter in Hin as [_ ?].
    + rewrite (Hn _ E) in Ha. done.
  - intros (v & Ha & Hin & Hl). apply Hb in Hl as Hl'.
    destruct (Hs _ _ Ha) as [E'|[_ E']].
    + by exists v.
    + exists (marked h v). split; [done|]. split; [|done].
      simpl. apply list_elem_of_filter. split; [|done]. by apply resolves_true.
Qed.

Lemma propagates_mark h i v :
  h !! i = Some v → stale v = false → propagates h (<[i := marked h v]> h).
Proof.
  intros Hi Hv. split.
  - intros j Hj. rewrite lookup_insert_ne; [done|congruence].
  - intros j w Hj. destruct (decide (i = j)) as [->|Hne].
    + right. rewrite lookup_insert_eq. split; congruence.
    + left. by rewrite lookup_insert_ne.
Qed.

(** The guarded body of [_markStale], up to the loop. *)
Lemma markStale_body h i v :
  h !! i = Some v →
  getSubscribedVariables (<[i := tick_mark (with_stale true v)]> h) i =
    (<[i := marked h v]> h,
     filter (λ sub, resolves h sub = true) (subscribedVariables v)).
Proof.
  intros Hi. unfold getSubscribedVariables. rewrite lookup_insert_eq.
  rewrite insert_insert_eq. simpl.
  assert (Hf : filter (λ sub, resolves (<[i := tick_mark (with_stale true v)]> h) sub = true)
                (subscribedVariables v)
               = filter (λ sub, resolves h sub = true) (subscribedVariables v)).
  { apply list_filter_iff. intros s. by rewrite (resolves_insert _ _ v). }
  rewrite Hf. done.
Qed.

Lemma markStale_unfold fuel h i :
  _markStale (S fuel) h i =
  match h !! i with
  | None => Some h
  | Some v =>
      if stale v then Some h
      else for_subscribers (_markStale fuel)
             (filter (λ sub, resolves h sub = true) (subscribedVariables v))
             (<[i := marked h v]> h)
  end.
Proof.
  simpl. destruct (h !! i) as [v|] eqn:E; [|done].
  destruct (stale v); [done|].
  unfold __markStale. by rewrite (markStale_body _ _ _ E).
Qed.


Lemma propagates_fresh h h' j :
  propagates h h' → is_fresh h j → is_stale h' j ∨ is_fresh h' j.
Proof.
  intros [_ Hs] (v & Hj & Hv). destruct (Hs _ _ Hj) as [E|[_ E]].
  - right. by exists v.
  - left. by exists (marked h v).
Qed.

Lemma fresh_not_stale h j : is_fresh h j → is_stale h j → False.
Proof. intros (v & E & Hv) (w & E' & Hw). congruence. Qed.

Lemma marks_closed_refl h : marks_closed h h.
Proof. intros j s Hf Hs. destruct (fresh_not_stale _ _ Hf Hs). Qed.

Lemma marks_closed_trans h h' h'' :
  propagates h h' → propagates h' h'' →
  marks_closed h h' → marks_closed h' h'' → marks_closed h h''.
Proof.
  intros P1 P2 C1 C2 j s Hf Hs He.
  destruct (propagates_fresh _ _ _ P1 Hf) as [Hs'|Hf'].
  - eapply propagates_stale; [done|]. by eapply C1.
  - eapply C2; [done..|]. by apply (propagates_edge _ _ _ _ P1).
Qed.

Lemma propagates_rtc h h' a b :
  propagates h h' → rtc (sub_edge h') a b ↔ rtc (sub_edge h) a b.
Proof.
  intros P. split; apply rtc_subrel; intros x y; by apply (propagates_edge _ _ _ _ P).
Qed.

(** The loop over the subscribers. *)
Lemma for_subscribers_spec (visit : heap V → nat → option (heap V)) :
  (∀ g s g', visit g s = Some g' → step_ok g s g') →
  ∀ subs h h', for_subscribers visit subs h = Some h' →
    propagates h h' ∧
    (∀ s, s ∈ subs → is_Some (h !! s) → is_stale h' s) ∧
    marks_closed h h' ∧
    (∀ j, (∀ s, s ∈ subs → ¬ rtc (sub_edge h) s j) → h' !! j = h !! j).
Proof.
  intros Hvisit subs. induction subs as [|s rest IH]; intros h h' Hrun; simpl in Hrun.
  - injection Hrun as <-. split; [apply propagates_refl|].
    split; [intros s Hs; by apply elem_of_nil in Hs|].
    split; [apply marks_closed_refl|done].
  - assert (Hstep : ∃ h1, (if resolves h s then visit h s else Some h) = Some h1 ∧
                           for_subscribers visit rest h1 = Some h').
    { destruct (if resolves h s then visit h s else Some h) as [h1|]; [eauto|done]. }
    destruct Hstep as (h1 & Hfirst & Hrest).
    assert (Hok : step_ok h s h1).
    { destruct (resolves h s) eqn:Hr.
      - by apply Hvisit.
      - injection Hfirst as <-. split; [apply propagates_refl|].
        split; [|split; [apply marks_closed_refl|done]].
        intros Hl. apply resolves_true in Hl. congruence. }
    destruct Hok as (P1 & S1 & C1 & F1).
    destruct (IH _ _ Hrest) as (P2 & S2 & C2 & F2).
    split; [by eapply propagates_trans|].
    split; [|split].
    + intros s' Hin Hl. apply elem_of_cons in Hin as [->|Hin].
      * eapply propagates_stale; [done|]. by apply S1.
      * apply S2; [done|]. by apply (propagates_is_Some _ _ _ P1).
    + by eapply marks_closed_trans.
    + intros j Hj. rewrite F2, F1; [done| |].
      * apply Hj. by left.
      * intros s' Hin Hr. apply (Hj s'); [by right|].
        by apply (propagates_rtc _ _ _ _ P1).
Qed.

(** What [_markStale] achieves whenever it returns. *)
Lemma markStale_spec fuel : ∀ h i h', _markStale fuel h i = Some h' → step_ok h i h'.
Proof.
  induction fuel as [|fuel IH]; intros h i h' Hrun; [done|].
  rewrite markStale_unfold in Hrun.
  destruct (h !! i) as [v|] eqn:Hi.
  2:{ injection Hrun as <-. split; [apply propagates_refl|].
      split; [intros [? ?]; congruence|]. split; [apply marks_closed_refl|done]. }
  destruct (stale v) eqn:Hv.
  { injection Hrun as <-. split; [apply propagates_refl|].
    split; [intros _; by exists v|]. split; [apply marks_closed_refl|done]. }
  pose proof (propagates_mark _ _ _ Hi Hv) as P0.
  destruct (for_subscribers_spec _ IH _ _ _ Hrun) as (P & S & C & F).
  split; [by eapply propagates_trans|]. split; [|split].
  - intros _. eapply propagates_stale; [done|].
    exists (marked h v). by rewrite lookup_insert_eq.
  - intros j s Hf Hs He. destruct (decide (j = i)) as [->|Hne].
    + destruct He as (w & Hw & Hin & Hl). rewrite Hi in Hw. injection Hw as <-.
      apply S.
      * apply list_elem_of_filter. split; [by apply resolves_true|done].
      * by apply (propagates_is_Some _ _ _ P0).
    + eapply C; [| done | by apply (propagates_edge _ _ _ _ P0)].
      destruct Hf as (w & Hw & Hfw). exists w. by rewrite lookup_insert_ne.
  - intros j Hj. rewrite F.
    + rewrite lookup_insert_ne; [done|]. intros ->. apply Hj. apply rtc_refl.
    + intros s Hin Hr. apply Hj. apply list_elem_of_filter in Hin as [Hl Hin].
      eapply rtc_l; [|by apply (propagates_rtc _ _ _ _ P0)].
      exists v. split; [done|]. split; [done|]. by apply resolves_true.
Qed.

(** *** Termination: every guarded body clears one fresh node *)

Lemma elem_of_fresh_nodes h j : j ∈ fresh_nodes h ↔ is_fresh h j.
Proof.
  unfold fresh_nodes, is_fresh. rewrite elem_of_dom. unfold is_Some.
  split.
  - intros (v & Hv). apply map_lookup_filter_Some in Hv as [? ?]. eauto.
  - intros (v & ? & ?). exists v. by apply map_lookup_filter_Some.
Qed.

Lemma fresh_nodes_propagates h h' : propagates h h' → fresh_nodes h' ⊆ fresh_nodes h.
Proof.
  intros [Hn Hs] j. rewrite !elem_of_fresh_nodes. intros (v' & Hj & Hv').
  destruct (h !! j) as [v|] eqn:E.
  - destruct (Hs _ _ E) as [E'|[_ E']]; rewrite E' in Hj; injection Hj as <-.
    + by exists v.
    + done.
  - rewrite (Hn _ E) in Hj. done.
Qed.

Lemma fresh_nodes_mark h i v :
  h !! i = Some v → stale v = false →
  size (fresh_nodes (<[i := marked h v]> h)) < size (fresh_nodes h).
Proof.
  intros Hi Hv. apply subset_size. split.
  - apply fresh_nodes_propagates. by apply propagates_mark.
  - intros Hsub. assert (Hin : i ∈ fresh_nodes h) by (apply elem_of_fresh_nodes; by exists v).
    apply Hsub, elem_of_fresh_nodes in Hin as (w & Hw & Hfw).
    rewrite lookup_insert_eq in Hw. by injection Hw as <-.
Qed.

Lemma fresh_nodes_size h : size (fresh_nodes h) ≤ size h.
Proof.
  unfold fresh_nodes. rewrite size_dom. apply map_subseteq_size, map_filter_subseteq.
Qed.

Lemma for_subscribers_terminates fuel :
  (∀ h i, size (fresh_nodes h) < fuel → is_Some (_markStale fuel h i)) →
  ∀ subs h, size (fresh_nodes h) < fuel →
    is_Some (for_subscribers (_markStale fuel) subs h).
Proof.
  intros IH subs. induction subs as [|s rest IHs]; intros h Hsz; simpl; [eauto|].
  destruct (resolves h s).
  - destruct (IH h s Hsz) as [h1 E]. rewrite E. apply IHs.
    destruct (markStale_spec _ _ _ _ E) as (P & _).
    pose proof (subseteq_size _ _ (fresh_nodes_propagates _ _ P)). lia.
  - by apply IHs.
Qed.

Lemma markStale_terminates fuel :
  ∀ h i, size (fresh_nodes h) < fuel → is_Some (_markStale fuel h i).
Proof.
  induction fuel as [|fuel IH]; intros h i Hsz; [lia|].
  rewrite markStale_unfold. destruct (h !! i) as [v|] eqn:Hi; [|eauto].
  destruct (stale v) eqn:Hv; [eauto|].
  apply for_subscribers_terminates; [done|].
  pose proof (fresh_nodes_mark _ _ _ Hi Hv). lia.
Qed.

(** *** Heaps with the same graph *)

Lemma same_graph_is_Some h h' j : same_graph h h' → is_Some (h' !! j) ↔ is_Some (h !! j).
Proof.
  intros G. specialize (G j).
  destruct (h !! j), (h' !! j); try done; split; eauto; intros [? ?]; done.
Qed.

Lemma same_graph_refl h : same_graph h h.
Proof. intros j. destruct (h !! j); [|done]. split; [done|]. tauto. Qed.

Lemma same_graph_trans h h' h'' : same_graph h h' → same_graph h' h'' → same_graph h h''.
Proof.
  intros G1 G2 j. pose proof (λ s, same_graph_is_Some _ _ s G1) as HS.
  specialize (G1 j). specialize (G2 j).
  destruct (h !! j), (h' !! j), (h'' !! j); try done.
  destruct G1 as [R1 S1], G2 as [R2 S2]. split; [congruence|].
  intros s Hs. rewrite S2; [by apply S1|]. by apply HS.
Qed.

Lemma same_graph_sym h h' : same_graph h h' → same_graph h' h.
Proof.
  intros G j. pose proof (λ s, same_graph_is_Some _ _ s G) as HS. specialize (G j).
  destruct (h !! j), (h' !! j); try done.
  destruct G as [R1 S1]. split; [done|].
  intros s Hs. symmetry. apply S1. by apply HS.
Qed.

Lemma same_graph_insert h n v w :
  h !! n = Some v → same_node h v w → same_graph h (<[n := w]> h).
Proof.
  intros Hn Hw j. destruct (decide (n = j)) as [->|Hne].
  - by rewrite lookup_insert_eq, Hn.
  - rewrite lookup_insert_ne by done. destruct (h !! j); [|done]. split; [done|]. tauto.
Qed.

Lemma same_graph_sub_edge h h' a b : same_graph h h' → sub_edge h' a b ↔ sub_edge h a b.
Proof.
  intros G. pose proof (same_graph_is_Some _ _ b G) as Hb. specialize (G a).
  unfold sub_edge. split.
  - intros (v' & Ha & Hin & Hl). rewrite Ha in G. destruct (h !! a) as [v|]; [|done].
    exists v. split; [done|]. split; [|tauto]. apply G; tauto.
  - intros (v & Ha & Hin & Hl). rewrite Ha in G. destruct (h' !! a) as [v'|]; [|done].
    exists v'. split; [done|]. split; [|tauto]. by apply G.
Qed.

Lemma same_graph_req_edge h h' a b : same_graph h h' → req_edge h' a b ↔ req_edge h a b.
Proof.
  intros G. specialize (G a). unfold req_edge. split.
  - intros (v' & Ha & Hin). rewrite Ha in G. destruct (h !! a) as [v|]; [|done].
    destruct G as [R _]. exists v. by rewrite <- R.
  - intros (v & Ha & Hin). rewrite Ha in G. destruct (h' !! a) as [v'|]; [|done].
    destruct G as [R _]. exists v'. by rewrite R.
Qed.

Lemma same_graph_tc h h' a b : same_graph h h' → tc (sub_edge h') a b ↔ tc (sub_edge h) a b.
Proof.
  intros G. split; intros T; induction T as [x y E|x y z E _ IH].
  - apply tc_once. by apply (same_graph_sub_edge _ _ _ _ G).
  - eapply tc_l; [|done]. by apply (same_graph_sub_edge _ _ _ _ G).
  - apply tc_once. by apply (same_graph_sub_edge _ _ _ _ G).
  - eapply tc_l; [|done]. by apply (same_graph_sub_edge _ _ _ _ G).
Qed.

Lemma marked_same_node h v : same_node h v (marked h v).
Proof.
  split; [done|]. intros s Hs. simpl. rewrite list_elem_of_filter, resolves_true. tauto.
Qed.

Lemma freshened_same_node h v : same_node h v (freshened h v).
Proof.
  split; [done|]. intros s Hs. simpl. rewrite list_elem_of_filter, resolves_true. tauto.
Qed.

Lemma propagates_same_graph h h' : propagates h h' → same_graph h h'.
Proof.
  intros [Hn Hs] j. destruct (h !! j) as [v|] eqn:E.
  - destruct (Hs _ _ E) as [->|[_ ->]].
    + split; [done|]. tauto.
    + apply marked_same_node.
  - by rewrite (Hn _ E).
Qed.

(** *** [_markFresh] *)

Lemma markFresh_unfold fuel h n v :
  h !! n = Some v →
  _markFresh fuel h n =
  for_subscribers (_markStale fuel)
    (filter (λ sub, resolves h sub = true) (subscribedVariables v))
    (<[n := freshened h v]> h).
Proof.
  intros Hn. unfold _markFresh, __markStale, getSubscribedVariables.
  rewrite Hn, lookup_insert_eq, insert_insert_eq. simpl.
  assert (Hf : filter (λ sub, resolves (<[n := with_stale false v]> h) sub = true)
                (subscribedVariables v)
               = filter (λ sub, resolves h sub = true) (subscribedVariables v)).
  { apply list_filter_iff. intros s. by rewrite (resolves_insert _ _ v). }
  by rewrite Hf.
Qed.

Lemma markFresh_spec fuel h n v h' :
  h !! n = Some v → _markFresh fuel h n = Some h' →
  let h0 := <[n := freshened h v]> h in
  same_graph h h0 ∧ propagates h0 h' ∧
  (∀ s, sub_edge h n s → is_stale h' s) ∧
  marks_closed h0 h' ∧
  (∀ j, ¬ tc (sub_edge h) n j → h' !! j = h0 !! j).
Proof.
  intros Hn Hrun h0. rewrite (markFresh_unfold _ _ _ _ Hn) in Hrun.
  assert (G : same_graph h h0) by (apply same_graph_insert with v; [done|apply freshened_same_node]).
  destruct (for_subscribers_spec _ (markStale_spec fuel) _ _ _ Hrun) as (P & S & C & F).
  split; [done|]. split; [done|]. split; [|split; [done|]].
  - intros s (w & Hw & Hin & Hl). rewrite Hn in Hw. injection Hw as <-. apply S.
    + apply list_elem_of_filter. split; [by apply resolves_true|done].
    + by apply (same_graph_is_Some _ _ _ G).
  - intros j Hj. apply F. intros s Hin Hr. apply Hj.
    apply list_elem_of_filter in Hin as [Hl Hin].
    eapply tc_rtc_r.
    + apply tc_once. exists v. split; [done|]. split; [done|]. by apply resolves_true.
    + revert Hr. apply rtc_subrel. intros x y. by apply (same_graph_sub_edge _ _ _ _ G).
Qed.

Lemma markFresh_terminates fuel h n : size h < fuel → is_Some (_markFresh fuel h n).
Proof.
  intros Hsz. destruct (h !! n) as [v|] eqn:Hn.
  - rewrite (markFresh_unfold _ _ _ _ Hn).
    apply for_subscribers_terminates; [apply markStale_terminates|].
    pose proof (fresh_nodes_size (<[n := freshened h v]> h)) as Hle.
    rewrite map_size_insert_Some in Hle by eauto. lia.
  - unfold _markFresh. rewrite Hn. eauto.
Qed.

Lemma fresh_reach_mono h g a m :
  (∀ x y, sub_edge h x y → sub_edge g x y) → (∀ p, is_fresh h p → is_fresh g p) →
  fresh_reach h a m → fresh_reach g a m.
Proof.
  intros He Hf R. induction R as [a m E|a p m E F _ IH].
  - apply fresh_reach_edge. auto.
  - eapply fresh_reach_via; eauto.
Qed.

Lemma fresh_reach_tc h a m : fresh_reach h a m → tc (sub_edge h) a m.
Proof.
  intros R. induction R as [a m E|a p m E F _ IH]; [by apply tc_once|by eapply tc_l].
Qed.

(** A marking that is closed has marked everything that a marked node
    reaches through fresh nodes. *)
Lemma marking_complete h0 h' p m :
  marks_closed h0 h' → fresh_reach h0 p m → is_fresh h0 p → is_stale h' p → is_stale h' m.
Proof.
  intros C R. induction R as [a m E|a p m E F _ IH]; intros Hf Hs.
  - by eapply C.
  - apply IH; [done|]. by eapply C.
Qed.

Lemma propagates_payload h h' j v :
  propagates h h' → h !! j = Some v → ∃ v', h' !! j = Some v' ∧ same_payload v v'.
Proof.
  intros [_ Hs] Hj. destruct (Hs _ _ Hj) as [E|[_ E]].
  - exists v. by repeat split.
  - exists (marked h v). by repeat split.
Qed.

Lemma markFresh_effect fuel h n v h' :
  h !! n = Some v → _markFresh fuel h n = Some h' →
  same_graph h h' ∧
  (∀ m, m ≠ n → is_stale h m → is_stale h' m) ∧
  (∀ m, is_fresh h' m → m = n ∨ is_fresh h m) ∧
  (∀ s, sub_edge h n s → is_stale h' s) ∧
  (∀ m, fresh_reach h n m → is_stale h' m) ∧
  (¬ tc (sub_edge h) n n → h' !! n = Some (freshened h v)) ∧
  (∀ j, j ≠ n → ¬ tc (sub_edge h) n j → h' !! j = h !! j) ∧
  (∀ j w, h !! j = Some w → ∃ w', h' !! j = Some w' ∧ same_payload w w').
Proof.
  intros Hn Hrun. destruct (markFresh_spec _ _ _ _ _ Hn Hrun) as (G & P & S & C & F).
  set (h0 := <[n := freshened h v]> h) in *.
  assert (Hother : ∀ j, j ≠ n → h0 !! j = h !! j).
  { intros j Hj. unfold h0. by rewrite lookup_insert_ne. }
  assert (Hfresh0 : ∀ p, is_fresh h p → is_fresh h0 p).
  { intros p (w & Hw & Hfw). destruct (decide (p = n)) as [->|Hne].
    - exists (freshened h v). unfold h0. by rewrite lookup_insert_eq.
    - exists w. by rewrite Hother. }
  split; [|split; [|split; [|split; [|split; [|split; [|split]]]]]].
  - eapply same_graph_trans; [done|]. by apply propagates_same_graph.
  - intros m Hm (w & Hw & Hsw). eapply propagates_stale; [done|].
    exists w. by rewrite Hother.
  - intros m (w' & Hw' & Hfw'). destruct (decide (m = n)) as [|Hne]; [by left|right].
    destruct P as [Pn Ps]. destruct (h !! m) as [w|] eqn:E.
    + pose proof E as E0. rewrite <- Hother in E0 by done.
      destruct (Ps _ _ E0) as [E'|[_ E']];
        rewrite E' in Hw'; injection Hw' as <-; [by exists w|done].
    + rewrite <- Hother in E by done. rewrite (Pn _ E) in Hw'. done.
  - done.
  - intros m R. inversion R as [a m' E|a p m' E Fp R']; subst; [by apply S|].
    eapply marking_complete; [done| |by apply Hfresh0|by apply S].
    eapply fresh_reach_mono; [| |done]; [|done].
    intros x y. by apply (same_graph_sub_edge _ _ _ _ G).
  - intros Hcyc. rewrite (F _ Hcyc). unfold h0. by rewrite lookup_insert_eq.
  - intros j Hj Hr. rewrite (F _ Hr). by apply Hother.
  - intros j w Hj. destruct (decide (j = n)) as [->|Hne].
    + rewrite Hn in Hj. injection Hj as <-.
      destruct (propagates_payload _ _ n (freshened h v) P) as (w' & Hw' & Hp).
      { unfold h0. by rewrite lookup_insert_eq. }
      exists w'. split; [done|]. destruct Hp as (?&?&?&?&?&?&?). by repeat split.
    + apply (propagates_payload _ _ _ _ P). by rewrite Hother.
Qed.

Lemma markFresh_same_graph fuel h a h' : _markFresh fuel h a = Some h' → same_graph h h'.
Proof.
  intros Hrun. destruct (h !! a) as [v|] eqn:E.
  - by destruct (markFresh_effect _ _ _ _ _ E Hrun) as (G & _).
  - unfold _markFresh in Hrun. rewrite E in Hrun. injection Hrun as <-.
    apply same_graph_refl.
Qed.

Lemma same_payload_refl v : same_payload v v.
Proof. by repeat split. Qed.

Lemma markFresh_payload fuel h a h' j w :
  _markFresh fuel h a = Some h' → h !! j = Some w →
  ∃ w', h' !! j = Some w' ∧ same_payload w w'.
Proof.
  intros Hrun Hj. destruct (h !! a) as [v|] eqn:E.
  - destruct (markFresh_effect _ _ _ _ _ E Hrun) as (_ & _ & _ & _ & _ & _ & _ & P). eauto.
  - unfold _markFresh in Hrun. rewrite E in Hrun. injection Hrun as <-.
    exists w. split; [done|apply same_payload_refl].
Qed.

Lemma markFresh_stale fuel h a h' m :
  _markFresh fuel h a = Some h' → m ≠ a → is_stale h m → is_stale h' m.
Proof.
  intros Hrun Hm Hs. destruct (h !! a) as [v|] eqn:E.
  - destruct (markFresh_effect _ _ _ _ _ E Hrun) as (_ & M & _). by apply M.
  - unfold _markFresh in Hrun. rewrite E in Hrun. by injection Hrun as <-.
Qed.

Lemma same_graph_dom h h' : same_graph h h' → dom h' = dom h.
Proof.
  intros G. apply set_eq. intros j. rewrite !elem_of_dom. by apply same_graph_is_Some.
Qed.

Lemma same_graph_size h h' : same_graph h h' → size h' = size h.
Proof.
  intros G. rewrite <- !(size_dom (D := gset nat)). by rewrite (same_graph_dom _ _ G).
Qed.

Lemma same_graph_ranked rank h h' : same_graph h h' → ranked rank h → ranked rank h'.
Proof. intros G R a b E. apply R. by apply (same_graph_req_edge _ _ _ _ G). Qed.

Lemma same_graph_sub_ranked rank h h' :
  same_graph h h' → sub_ranked rank h → sub_ranked rank h'.
Proof. intros G R a b E. apply R. by apply (same_graph_sub_edge _ _ _ _ G). Qed.

Lemma payload_write_same_graph h j v w :
  h !! j = Some v → payload_write v w → same_graph h (<[j := w]> h).
Proof.
  intros Hj (R & S & _). apply same_graph_insert with v; [done|].
  split; [done|]. intros s _. by rewrite S.
Qed.

(** *** Dependents stay covered *)

Lemma live_stale_or_fresh h j : is_Some (h !! j) → is_stale h j ∨ is_fresh h j.
Proof.
  intros [v Hv]. destruct (stale v) eqn:E; [left|right]; by exists v.
Qed.










Lemma markFresh_keeps_stale_node fuel h a h' b w :
  _markFresh fuel h a = Some h' → b ≠ a → h !! b = Some w → stale w = true →
  h' !! b = Some w.
Proof.
  intros Hrun Hb Hw Hs. destruct (h !! a) as [v|] eqn:Ha.
  - destruct (markFresh_spec _ _ _ _ _ Ha Hrun) as (_ & [_ P] & _).
    destruct (P b w) as [E|[E _]]; [by rewrite lookup_insert_ne|done|congruence].
  - unfold _markFresh in Hrun. rewrite Ha in Hrun. by injection Hrun as <-.
Qed.

(** ** The dependency graph: live dependents *)


(** ** The staleness propagator *)

(** C6. [_markStale] terminates on every finite graph (acyclic or not):
    a recursion depth above the number of live objects always suffices.
    On a node that is already stale it returns the heap as it is, even
    when no recursion is allowed at all.  In one propagation the guarded
    body runs at most once on any node, and never on a stale one. *)
Theorem markStale_terminates_without_revisit h i :
  (∀ fuel, size h < fuel →
     ∃ h', _markStale fuel h i = Some h' ∧
       ∀ j v, h !! j = Some v →
         ∃ v', h' !! j = Some v' ∧ markCount v' ≤ S (markCount v) ∧
               (stale v = true → v' = v)) ∧
  (∀ fuel, is_stale h i → _markStale (S fuel) h i = Some h).
Proof.
  split.
  - intros fuel Hsz.
    destruct (markStale_terminates fuel h i) as [h' Hrun].
    { pose proof (fresh_nodes_size h). lia. }
    exists h'. split; [done|].
    destruct (markStale_spec _ _ _ _ Hrun) as ([_ Hs] & _).
    intros j v Hj. destruct (Hs _ _ Hj) as [E|[Hf E]].
    + exists v. split; [done|]. split; [lia|done].
    + exists (marked h v). split; [done|]. split; [simpl; lia|congruence].
  - intros fuel (v & Hi & Hv). rewrite markStale_unfold, Hi, Hv. done.
Qed.

(** C2, as the code has it.  [_markFresh] clears the dirty flag of the
    node itself and of no other node, but it does recurse: through
    [__markStale] it marks every live subscriber of the node stale, and
    from there every node reached through fresh nodes; the objects that
    no chain of live requiredBy references connects to the node are left
    as they are. *)
Theorem markFresh_clears_only_self fuel h n v :
  h !! n = Some v → size h < fuel →
  ∃ h', _markFresh fuel h n = Some h' ∧
    (¬ tc (sub_edge h) n n → is_fresh h' n) ∧
    (∀ m, m ≠ n → is_stale h m → is_stale h' m) ∧
    (∀ m, is_fresh h' m → m = n ∨ is_fresh h m) ∧
    (∀ s, sub_edge h n s → is_stale h' s) ∧
    (∀ m, fresh_reach h n m → is_stale h' m) ∧
    (∀ j, j ≠ n → ¬ tc (sub_edge h) n j → h' !! j = h !! j).
Proof.
  intros Hn Hsz. destruct (markFresh_terminates fuel h n Hsz) as [h' Hrun].
  exists h'. split; [done|].
  destruct (markFresh_effect _ _ _ _ _ Hn Hrun) as (_ & M & O & S & R & N & F & _).
  split; [|done]. intros Hcyc. exists (freshened h v). split; [by apply N|done].
Qed.

(** ** Caching switches *)













(** ** More on the propagator *)

Lemma propagates_fresh_back h h' j : propagates h h' → is_fresh h' j → is_fresh h j.
Proof.
  intros P Hf. apply elem_of_fresh_nodes. apply (fresh_nodes_propagates _ _ P).
  by apply elem_of_fresh_nodes.
Qed.

(** The loop marks nothing but what some subscriber reaches through
    fresh nodes. *)
Lemma for_subscribers_only_reached (visit : heap V → nat → option (heap V)) :
  (∀ g s g', visit g s = Some g' → propagates g g' ∧
     ∀ m, is_fresh g m → is_stale g' m → is_fresh g s ∧ (m = s ∨ fresh_reach g s m)) →
  ∀ subs h h', for_subscribers visit subs h = Some h' →
    propagates h h' ∧
    ∀ m, is_fresh h m → is_stale h' m →
      ∃ s, s ∈ subs ∧ is_fresh h s ∧ (m = s ∨ fresh_reach h s m).
Proof.
  intros Hvisit subs. induction subs as [|s rest IH]; intros h h' Hrun; simpl in Hrun.
  - injection Hrun as <-. split; [apply propagates_refl|].
    intros m Hf Hs. destruct (fresh_not_stale _ _ Hf Hs).
  - assert (Hstep : ∃ h1, (if resolves h s then visit h s else Some h) = Some h1 ∧
                           for_subscribers visit rest h1 = Some h').
    { destruct (if resolves h s then visit h s else Some h) as [h1|]; [eauto|done]. }
    destruct Hstep as (h1 & Hfirst & Hrest).
    assert (H1 : propagates h h1 ∧
      ∀ m, is_fresh h m → is_stale h1 m → is_fresh h s ∧ (m = s ∨ fresh_reach h s m)).
    { destruct (resolves h s); [by apply Hvisit|].
      injection Hfirst as <-. split; [apply propagates_refl|].
      intros m Hf Hs. destruct (fresh_not_stale _ _ Hf Hs). }
    destruct H1 as [P1 M1]. destruct (IH _ _ Hrest) as [P2 M2].
    split; [by eapply propagates_trans|].
    intros m Hf Hs. destruct (propagates_fresh _ _ _ P1 Hf) as [Hs1|Hf1].
    + destruct (M1 m Hf Hs1) as [Hfs Hr]. exists s. split; [by left|done].
    + destruct (M2 m Hf1 Hs) as (s' & Hin & Hfs' & Hr). exists s'.
      split; [by right|]. split; [by eapply propagates_fresh_back|].
      destruct Hr as [->|Hr]; [by left|right].
      eapply fresh_reach_mono; [| |done].
      * intros x y. by apply (propagates_edge _ _ _ _ P1).
      * intros p. by apply propagates_fresh_back.
Qed.

Lemma markStale_only_reached fuel :
  ∀ h i h', _markStale fuel h i = Some h' →
    ∀ m, is_fresh h m → is_stale h' m → is_fresh h i ∧ (m = i ∨ fresh_reach h i m).
Proof.
  induction fuel as [|fuel IH]; intros h i h' Hrun m Hf Hs; [done|].
  rewrite markStale_unfold in Hrun.
  destruct (h !! i) as [v|] eqn:Hi.
  2:{ injection Hrun as <-. destruct (fresh_not_stale _ _ Hf Hs). }
  destruct (stale v) eqn:Hv.
  { injection Hrun as <-. destruct (fresh_not_stale _ _ Hf Hs). }
  pose proof (propagates_mark _ _ _ Hi Hv) as P0.
  assert (Hfi : is_fresh h i) by by exists v.
  split; [done|].
  destruct (decide (m = i)) as [|Hne]; [by left|right].
  destruct (for_subscribers_only_reached (_markStale fuel)) with
    (subs := filter (λ sub, resolves h sub = true) (subscribedVariables v))
    (h := <[i := marked h v]> h) (h' := h') as [P M]; [|done|].
  { intros g s g' Hg. split; [by destruct (markStale_spec _ _ _ _ Hg)|]. by apply IH. }
  destruct (M m) as (s & Hin & Hfs & Hr); [|done|].
  { destruct Hf as (w & Hw & Hfw). exists w. by rewrite lookup_insert_ne. }
  apply list_elem_of_filter in Hin as [Hl Hin]. apply resolves_true in Hl.
  assert (E : sub_edge h i s) by by exists v.
  destruct Hr as [->|Hr]; [by apply fresh_reach_edge|].
  eapply fresh_reach_via; [done|by eapply propagates_fresh_back|].
  eapply fresh_reach_mono; [| |done].
  - intros x y. by apply (propagates_edge _ _ _ _ P0).
  - intros p. by apply propagates_fresh_back.
Qed.

(** X1.  [_markStale] marks exactly the nodes that are reached from
    a fresh start node through fresh nodes, the start node included:
    a node is stale afterwards if and only if it was stale before or is
    one of those.  No node becomes fresh and no object appears or
    disappears. *)
Theorem markStale_marks_exactly fuel h i h' :
  _markStale fuel h i = Some h' →
  (∀ m, is_stale h' m ↔
        is_stale h m ∨ (is_fresh h i ∧ (m = i ∨ fresh_reach h i m))) ∧
  (∀ m, is_Some (h' !! m) ↔ is_Some (h !! m)).
Proof.
  intros Hrun. destruct (markStale_spec _ _ _ _ Hrun) as (P & St & C & _).
  split; [|intros m; by apply propagates_is_Some].
  intros m. split.
  - intros Hs. assert (Hl : is_Some (h !! m)).
    { apply (propagates_is_Some _ _ _ P). destruct Hs as (w & Hw & _). eauto. }
    destruct (live_stale_or_fresh _ _ Hl) as [Hs0|Hf0]; [by left|right].
    by eapply markStale_only_reached.
  - intros [Hs|[Hfi Hr]]; [by eapply propagates_stale|].
    assert (Hsi : is_stale h' i) by (apply St; destruct Hfi as (w & Hw & _); eauto).
    destruct Hr as [->|Hr]; [done|]. by eapply marking_complete.
Qed.

(** X2.  Propagation is the lazy collection of dead weak references:
    a node that a propagation marks has had its requiredBy list
    replaced by the entries that still resolve, in their order, and a
    node that it does not mark keeps its list as it was. *)
Theorem markStale_prunes_marked fuel h i h' j v v' :
  _markStale fuel h i = Some h' → h !! j = Some v → h' !! j = Some v' →
  (stale v = false → stale v' = true →
     subscribedVariables v' = filter (λ s, is_Some (h !! s)) (subscribedVariables v) ∧
     ∀ s, s ∈ subscribedVariables v' → is_Some (h' !! s)) ∧
  (stale v' = stale v → v' = v).
Proof.
  intros Hrun Hj Hj'. destruct (markStale_spec _ _ _ _ Hrun) as (P & _).
  pose proof P as [_ Ps]. destruct (Ps _ _ Hj) as [E|[Hf E]].
  - rewrite E in Hj'. injection Hj' as <-. split; [congruence|done].
  - rewrite E in Hj'. injection Hj' as <-. split; [|simpl; congruence].
    intros _ _. simpl. split.
    + apply list_filter_iff. intros s. apply resolves_true.
    + intros s Hs. apply list_elem_of_filter in Hs as [Hl _].
      apply (propagates_is_Some _ _ _ P). by apply resolves_true.
Qed.

End propagation.

(** ** The evaluation engine *)

Section evaluation.
Context {V : Type} `{Numerix V}.
Implicit Types (h g : heap V) (v : variable V).

Lemma calcValue_unfold (eval : nat → M V (option V)) i h :
  _calcValue eval i h =
  match h !! i with
  | None => Raise DanglingReference h
  | Some v =>
      let h0 := <[i := tick_calc v]> h in
      match calcValue v with
      | Leaf => Ret (value v) h0
      | Operator op =>
          match eval_operands eval (requiredVariables v) h0 with
          | Ret xs h1 =>
              match op xs with inl e => Raise e h1 | inr x => Ret x h1 end
          | Raise e h1 => Raise e h1
          | NoFuel => NoFuel
          end
      end
  end.
Proof.
  unfold _calcValue, mbind, M_bind, bind, modify, this.
  destruct (h !! i) as [v|] eqn:E; [|done].
  rewrite lookup_insert_eq. simpl. destruct (calcValue v) as [|op]; [done|].
  destruct (eval_operands eval (requiredVariables v) _) as [xs h1| |]; [|done..].
  destruct (op xs); done.
Qed.

Lemma eval_operands_unfold (eval : nat → M V (option V)) var rest h :
  eval_operands eval (var :: rest) h =
  match eval var h with
  | Ret x h1 =>
      match eval_operands eval rest h1 with
      | Ret xs h2 => Ret (x :: xs) h2
      | Raise e h2 => Raise e h2
      | NoFuel => NoFuel
      end
  | Raise e h1 => Raise e h1
  | NoFuel => NoFuel
  end.
Proof.
  simpl. unfold mbind, M_bind, bind. destruct (eval var h) as [x h1| |]; [|done..].
  destruct (eval_operands eval rest h1); done.
Qed.

Lemma getValue_unfold cfg fuel i h :
  getValue cfg (S fuel) i h =
  match h !! i with
  | None => Raise DanglingReference h
  | Some v =>
      if stale v || negb (_isCached cfg v) || isNone (value v)
      then
        match _calcValue (getValue cfg fuel) i h with
        | Ret x h1 =>
            match h1 !! i with
            | None => Raise DanglingReference h1
            | Some v' =>
                match _markFresh fuel (<[i := stored cfg v' x]> h1) i with
                | Some h3 => Ret x h3
                | None => NoFuel
                end
            end
        | Raise e h1 => Raise e h1
        | NoFuel => NoFuel
        end
      else Ret (value v) h
  end.
Proof.
  simpl. unfold mbind, M_bind, bind, this at 1.
  destruct (h !! i) as [v|] eqn:E; [|done].
  destruct (stale v || negb (_isCached cfg v) || isNone (value v)); [|done].
  destruct (_calcValue (getValue cfg fuel) i h) as [x h1| |]; [|done..].
  unfold this. destruct (h1 !! i) as [v'|] eqn:E'; [|done].
  unfold stored, _setValue, modify, lift.
  destruct (_isCached cfg v'); rewrite E'; simpl;
    destruct (_markFresh fuel _ i); done.
Qed.

Lemma ended_Ret {A} (a : A) h h' : ended (Ret a h) h' ↔ h' = h.
Proof.
  split.
  - intros [[b E]|[e E]]; congruence.
  - intros ->. left. eauto.
Qed.

Lemma ended_Raise {A} e h h' : ended (Raise (A := A) e h) h' ↔ h' = h.
Proof.
  split.
  - intros [[b E]|[e' E]]; congruence.
  - intros ->. right. eauto.
Qed.

Lemma ended_NoFuel {A} h' : ended (NoFuel (V := V) (A := A)) h' → False.
Proof. intros [[b E]|[e' E]]; congruence. Qed.

Lemma payload_write_tick v : payload_write v (tick_calc v).
Proof. repeat split; simpl; lia. Qed.

Lemma payload_write_value v x : payload_write v (with_value x v).
Proof. repeat split; simpl; lia. Qed.

(** *** An invariant rule for evaluation

    A property of the heap that survives writes to value slots and
    [_markFresh] on the nodes in [A], where [A] contains the operands of
    its members, survives [getValue] on a member of [A], whether it
    returns or raises. *)
Section invariant.
Variable Inv : heap V → Prop.
Variable A : nat → Prop.
Variable cfg : config.
Hypothesis Inv_write : ∀ h j v w,
  Inv h → A j → h !! j = Some v → payload_write v w → Inv (<[j := w]> h).
Hypothesis Inv_fresh : ∀ fuel h a h',
  Inv h → A a → _markFresh fuel h a = Some h' → Inv h'.
Hypothesis A_req : ∀ h a b, Inv h → A a → req_edge h a b → A b.

Lemma eval_operands_invariant (eval : nat → M V (option V)) vars :
  (∀ var h h', A var → Inv h → ended (eval var h) h' → Inv h') →
  Forall A vars → ∀ h h', Inv h → ended (eval_operands eval vars h) h' → Inv h'.
Proof.
  intros Heval HA. induction HA as [|var rest Hvar _ IH]; intros h h' Hh Hend.
  - apply ended_Ret in Hend as ->. done.
  - rewrite eval_operands_unfold in Hend.
    destruct (eval var h) as [x h1|e h1|] eqn:E.
    + assert (Inv h1) by (apply (Heval var h); [done..|rewrite E; by apply ended_Ret]).
      destruct (eval_operands eval rest h1) as [xs h2|e h2|] eqn:E'.
      * apply ended_Ret in Hend as ->. apply (IH h1); [done|]. rewrite E'. by apply ended_Ret.
      * apply ended_Raise in Hend as ->. apply (IH h1); [done|]. rewrite E'. by apply ended_Raise.
      * destruct (ended_NoFuel _ Hend).
    + apply ended_Raise in Hend as ->.
      apply (Heval var h); [done..|rewrite E; by apply ended_Raise].
    + destruct (ended_NoFuel _ Hend).
Qed.

Lemma calcValue_invariant (eval : nat → M V (option V)) i :
  (∀ var h h', A var → Inv h → ended (eval var h) h' → Inv h') →
  ∀ h h', Inv h → A i → ended (_calcValue eval i h) h' → Inv h'.
Proof.
  intros Heval h h' Hh Hi Hend. rewrite calcValue_unfold in Hend.
  destruct (h !! i) as [v|] eqn:E.
  2:{ apply ended_Raise in Hend as ->. done. }
  simpl in Hend.
  assert (H0 : Inv (<[i := tick_calc v]> h)).
  { by apply Inv_write with v; [..|apply payload_write_tick]. }
  destruct (calcValue v) as [|op].
  { apply ended_Ret in Hend as ->. done. }
  assert (HA : Forall A (requiredVariables v)).
  { apply Forall_forall. intros b Hb. apply (A_req h i); [done..|]. by exists v. }
  pose proof (λ g, eval_operands_invariant eval _ Heval HA _ g H0) as Hops.
  destruct (eval_operands eval (requiredVariables v) _) as [xs h1|e h1|].
  - assert (Inv h1) by (by apply Hops, ended_Ret).
    destruct (op xs).
    + apply ended_Raise in Hend as ->. done.
    + apply ended_Ret in Hend as ->. done.
  - apply ended_Raise in Hend as ->. by apply Hops, ended_Raise.
  - destruct (ended_NoFuel _ Hend).
Qed.

Lemma getValue_invariant fuel :
  ∀ i h h', Inv h → A i → ended (getValue cfg fuel i h) h' → Inv h'.
Proof.
  induction fuel as [|fuel IH]; intros i h h' Hh Hi Hend.
  { destruct (ended_NoFuel _ Hend). }
  rewrite getValue_unfold in Hend.
  destruct (h !! i) as [v|] eqn:E.
  2:{ apply ended_Raise in Hend as ->. done. }
  destruct (stale v || negb (_isCached cfg v) || isNone (value v)).
  2:{ apply ended_Ret in Hend as ->. done. }
  pose proof (λ g, calcValue_invariant (getValue cfg fuel) i
                (λ var g g' Hv Hg, IH var g g' Hg Hv) h g Hh Hi) as Hcalc.
  destruct (_calcValue (getValue cfg fuel) i h) as [x h1|e h1|].
  - assert (H1 : Inv h1) by (by apply Hcalc, ended_Ret).
    destruct (h1 !! i) as [v'|] eqn:E1.
    2:{ apply ended_Raise in Hend as ->. done. }
    assert (H2 : Inv (<[i := stored cfg v' x]> h1)).
    { apply Inv_write with v'; [done..|]. apply payload_write_value. }
    destruct (_markFresh fuel _ i) as [h3|] eqn:E3.
    + apply ended_Ret in Hend as ->. by apply (Inv_fresh fuel _ i h3 H2).
    + destruct (ended_NoFuel _ Hend).
  - by apply Hcalc.
  - destruct (ended_NoFuel _ Hend).
Qed.

End invariant.

(** *** Evaluation keeps the graph and terminates on acyclic graphs *)

Lemma getValue_same_graph cfg fuel i h h' :
  ended (getValue cfg fuel i h) h' → same_graph h h'.
Proof.
  intros Hend.
  apply (getValue_invariant (same_graph h) (λ _, True) cfg) with fuel i h;
    [| | |apply same_graph_refl|done|done].
  - intros g j v w G _ Hj Hw. eapply same_graph_trans; [done|].
    by eapply payload_write_same_graph.
  - intros f g a g' G _ Hrun. eapply same_graph_trans; [done|].
    by eapply markFresh_same_graph.
  - done.
Qed.

Lemma eval_operands_same_graph cfg fuel vars h h' :
  ended (eval_operands (getValue cfg fuel) vars h) h' → same_graph h h'.
Proof.
  intros Hend.
  apply (eval_operands_invariant (same_graph h) (λ _, True) (getValue cfg fuel) vars)
    with h; [| |apply same_graph_refl|done].
  - intros var g g' _ G Hg. eapply same_graph_trans; [done|].
    by eapply getValue_same_graph.
  - by apply Forall_forall.
Qed.

Lemma eval_operands_terminates cfg fuel rank bound vars :
  (∀ i g, ranked rank g → rank i + size g + 1 < fuel → getValue cfg fuel i g ≠ NoFuel) →
  ∀ h, ranked rank h → Forall (λ var, rank var + size h + 1 < fuel) vars →
       bound = size h →
       eval_operands (getValue cfg fuel) vars h ≠ NoFuel.
Proof.
  intros IH. induction vars as [|var rest IHv]; intros h R Hvars Hb; [done|].
  rewrite eval_operands_unfold. apply Forall_cons in Hvars as [Hvar Hrest].
  destruct (getValue cfg fuel var h) as [x h1|e h1|] eqn:E; [|done|].
  - assert (G : same_graph h h1) by (eapply getValue_same_graph; rewrite E; by apply ended_Ret).
    assert (Hne : eval_operands (getValue cfg fuel) rest h1 ≠ NoFuel).
    { apply IHv; [by eapply same_graph_ranked| |by rewrite (same_graph_size _ _ G)].
      by rewrite (same_graph_size _ _ G). }
    destruct (eval_operands (getValue cfg fuel) rest h1); done.
  - by destruct (IH var h R Hvar).
Qed.

Lemma getValue_terminates cfg rank fuel :
  ∀ i h, ranked rank h → rank i + size h + 1 < fuel → getValue cfg fuel i h ≠ NoFuel.
Proof.
  induction fuel as [|fuel IH]; intros i h R Hfuel; [lia|].
  rewrite getValue_unfold. destruct (h !! i) as [v|] eqn:E; [|done].
  destruct (stale v || negb (_isCached cfg v) || isNone (value v)); [|done].
  rewrite calcValue_unfold, E. simpl.
  assert (G0 : same_graph h (<[i := tick_calc v]> h)).
  { by apply payload_write_same_graph with v; [|apply payload_write_tick]. }
  assert (Hfresh : ∀ g, same_graph h g → ∀ w, is_Some (_markFresh fuel (<[i := w]> g) i)).
  { intros g G w. apply markFresh_terminates.
    destruct (proj2 (same_graph_is_Some _ _ i G)) as [w' Hw']; [eauto|].
    rewrite map_size_insert_Some by eauto. rewrite (same_graph_size _ _ G). lia. }
  destruct (calcValue v) as [|op].
  { rewrite lookup_insert_eq. by destruct (Hfresh _ G0 (stored cfg (tick_calc v) (value v))) as [h3 ->]. }
  assert (Hops : eval_operands (getValue cfg fuel) (requiredVariables v)
                   (<[i := tick_calc v]> h) ≠ NoFuel).
  { apply (eval_operands_terminates cfg fuel rank (size h)); [done|..].
    - by eapply same_graph_ranked.
    - apply Forall_forall. intros b Hb. rewrite (same_graph_size _ _ G0).
      assert (rank b < rank i) by (apply R; by exists v). lia.
    - by rewrite (same_graph_size _ _ G0). }
  destruct (eval_operands (getValue cfg fuel) (requiredVariables v) _)
    as [xs h1|e h1|] eqn:Eops; [|done|done].
  destruct (op xs); [done|].
  assert (G1 : same_graph h h1).
  { eapply same_graph_trans; [done|]. eapply eval_operands_same_graph.
    rewrite Eops. by apply ended_Ret. }
  destruct (h1 !! i) as [v'|]; [|done].
  by destruct (Hfresh _ G1 (stored cfg v' o)) as [h3 ->].
Qed.

Lemma ranked_check rank h :
  map_Forall (λ a v, Forall (λ b, rank b < rank a) (requiredVariables v)) h →
  ranked rank h.
Proof.
  intros Hall a b (v & Ha & Hb). specialize (Hall a v Ha).
  by apply (proj1 (Forall_forall _ _) Hall).
Qed.

(** What an object keeps while operands are evaluated: its evaluation
    counter does not go down and its caching switch stays. *)
Lemma operands_keep_counter cfg fuel vars b c k h h' :
  (∃ w, h !! b = Some w ∧ c ≤ calcCount w ∧ _cached w = k) →
  ended (eval_operands (getValue cfg fuel) vars h) h' →
  ∃ w, h' !! b = Some w ∧ c ≤ calcCount w ∧ _cached w = k.
Proof.
  intros Hh Hend.
  set (Inv := λ g : heap V, ∃ w, g !! b = Some w ∧ c ≤ calcCount w ∧ _cached w = k).
  assert (Hw : ∀ g j v w, Inv g → True → g !! j = Some v → payload_write v w →
                 Inv (<[j := w]> g)).
  { intros g j v w (u & Hu & Hc & Hk) _ Hj (_ & _ & _ & Hcached & _ & _ & _ & _ & Hcount).
    destruct (decide (j = b)) as [->|Hne].
    - rewrite Hu in Hj. injection Hj as ->. exists w. rewrite lookup_insert_eq.
      split; [done|]. split; [lia|congruence].
    - exists u. by rewrite lookup_insert_ne. }
  assert (Hf : ∀ f g a g', Inv g → True → _markFresh f g a = Some g' → Inv g').
  { intros f g a g' (u & Hu & Hc & Hk) _ Hrun.
    destruct (markFresh_payload _ _ _ _ _ _ Hrun Hu) as (u' & Hu' & P).
    destruct P as (_ & _ & Pc & _ & _ & _ & Pn). exists u'.
    split; [done|]. split; [lia|congruence]. }
  apply (eval_operands_invariant Inv (λ _, True) (getValue cfg fuel) vars) with h;
    [|by apply Forall_forall|done|done].
  intros var g g' _ Hg Hgend.
  by apply (getValue_invariant Inv (λ _, True) cfg Hw Hf (λ _ _ _ _ _ _, I) fuel var g g').
Qed.

(** C3, as the code has it.  While [_isCached()] is false for b, that is
    while b was told not to cache and the class-wide switch
    [_cacheAlways] is off, every call of [getValue] on b that returns
    has run [_calcValue] on b (the counter went up and the result is the
    one [_calcValue] returned), whatever the dirty flag and the slot
    were, and leaves [None] in the slot; b still does not cache
    afterwards, so the same holds for the next call.  On an acyclic
    graph the call does end, with a result or an error of the node's
    function. *)
Theorem getValue_uncached_recomputes cfg rank fuel b h v :
  h !! b = Some v → _isCached cfg v = false →
  (ranked rank h → rank b + size h + 1 < fuel → getValue cfg fuel b h ≠ NoFuel) ∧
  (∀ x h', getValue cfg fuel b h = Ret x h' →
     (∃ fuel' h1, fuel = S fuel' ∧ _calcValue (getValue cfg fuel') b h = Ret x h1) ∧
     ∃ v', h' !! b = Some v' ∧ value v' = None ∧
           calcCount v < calcCount v' ∧ _isCached cfg v' = false).
Proof.
  intros Hb Hunc. split; [apply getValue_terminates|].
  intros x h' Hrun. destruct fuel as [|fuel]; [done|].
  rewrite getValue_unfold, Hb, Hunc in Hrun.
  replace (stale v || negb false || isNone (value v)) with true in Hrun
    by (by destruct (stale v)).
  destruct (_calcValue (getValue cfg fuel) b h) as [x1 h1|e h1|] eqn:Ecalc; [|done..].
  assert (H1 : ∃ w, h1 !! b = Some w ∧ S (calcCount v) ≤ calcCount w ∧ _cached w = _cached v).
  { rewrite calcValue_unfold, Hb in Ecalc. simpl in Ecalc.
    assert (H0 : ∃ w, <[b := tick_calc v]> h !! b = Some w ∧
                      S (calcCount v) ≤ calcCount w ∧ _cached w = _cached v).
    { exists (tick_calc v). by rewrite lookup_insert_eq. }
    destruct (calcValue v) as [|op].
    { by injection Ecalc as _ <-. }
    pose proof (operands_keep_counter cfg fuel (requiredVariables v) b _ _ _ h1 H0) as Hk.
    destruct (eval_operands (getValue cfg fuel) (requiredVariables v) _)
      as [xs g|e g|]; [|done..].
    destruct (op xs); [done|]. injection Ecalc as _ <-. by apply Hk, ended_Ret. }
  destruct H1 as (w & Hw & Hcount & Hcached). rewrite Hw in Hrun.
  destruct (_markFresh fuel _ b) as [h3|] eqn:Efresh; [|done].
  injection Hrun as <- <-. split; [by exists fuel, h1|].
  destruct (markFresh_payload _ _ _ _ b (stored cfg w x1) Efresh) as (v' & Hv' & P).
  { by rewrite lookup_insert_eq. }
  assert (Hw_unc : _isCached cfg w = false).
  { unfold _isCached in *. by rewrite Hcached. }
  destruct P as (_ & Pv & Pc & _ & _ & _ & Pn). exists v'. split; [done|].
  unfold stored in Pv, Pn, Pc. rewrite Hw_unc in Pv. simpl in *.
  split; [done|]. split; [lia|]. unfold _isCached in *. by rewrite Pc.
Qed.

(** What a dirty or uncached node keeps while its operands are
    evaluated on an acyclic graph. *)
Lemma operands_keep_node cfg rank fuel vars b v h0 h h' :
  ranked rank h0 → same_graph h0 h →
  Forall (λ var, rank var < rank b) vars →
  (∃ w, h !! b = Some w ∧ value w = value v ∧ _cached w = _cached v ∧
        (stale v = true → stale w = true)) →
  ended (eval_operands (getValue cfg fuel) vars h) h' →
  same_graph h0 h' ∧
  ∃ w, h' !! b = Some w ∧ value w = value v ∧ _cached w = _cached v ∧
       (stale v = true → stale w = true).
Proof.
  intros R G Hvars Hh Hend.
  set (Inv := λ g : heap V, same_graph h0 g ∧
     ∃ w, g !! b = Some w ∧ value w = value v ∧ _cached w = _cached v ∧
          (stale v = true → stale w = true)).
  set (A := λ a : nat, rank a < rank b).
  assert (Hw : ∀ g j u w, Inv g → A j → g !! j = Some u → payload_write u w →
                 Inv (<[j := w]> g)).
  { intros g j u w (Gg & u' & Hu' & ?) Hj Hlook Hpw. split.
    - eapply same_graph_trans; [done|]. by eapply payload_write_same_graph.
    - exists u'. rewrite lookup_insert_ne; [done|]. intros ->. unfold A in Hj. lia. }
  assert (Hf : ∀ f g a g', Inv g → A a → _markFresh f g a = Some g' → Inv g').
  { intros f g a g' (Gg & u & Hu & Hval & Hc & Hs) Ha Hrun. split.
    - eapply same_graph_trans; [done|]. by eapply markFresh_same_graph.
    - destruct (markFresh_payload _ _ _ _ _ _ Hrun Hu) as (u' & Hu' & P).
      destruct P as (_ & Pv & Pc & _). exists u'. split; [done|].
      split; [congruence|]. split; [congruence|]. intros Hst.
      assert (Hb : is_stale g' b).
      { eapply markFresh_stale; [done| |exists u; auto].
        intros ->. unfold A in Ha. lia. }
      destruct Hb as (u'' & Hu'' & ?). congruence. }
  assert (Hr : ∀ g a c, Inv g → A a → req_edge g a c → A c).
  { intros g a c (Gg & _) Ha E. apply (same_graph_req_edge _ _ _ _ Gg), R in E.
    unfold A in *. lia. }
  apply (eval_operands_invariant Inv A (getValue cfg fuel) vars) with h;
    [|done|by split|done].
  intros var g g' Hv Hg Hgend.
  by apply (getValue_invariant Inv A cfg Hw Hf Hr fuel var g g').
Qed.

(** A dirty node is not touched at all while its operands are
    evaluated on an acyclic graph. *)
Lemma operands_keep_stale_record cfg rank fuel vars b w h0 h h' :
  ranked rank h0 → same_graph h0 h →
  Forall (λ var, rank var < rank b) vars →
  h !! b = Some w → stale w = true →
  ended (eval_operands (getValue cfg fuel) vars h) h' →
  h' !! b = Some w.
Proof.
  intros R G Hvars Hb Hst Hend.
  set (Inv := λ g : heap V, same_graph h0 g ∧ g !! b = Some w).
  set (A := λ a : nat, rank a < rank b).
  assert (Hw : ∀ g j u u', Inv g → A j → g !! j = Some u → payload_write u u' →
                 Inv (<[j := u']> g)).
  { intros g j u u' (Gg & Hg) Hj Hlook Hpw. split.
    - eapply same_graph_trans; [done|]. by eapply payload_write_same_graph.
    - rewrite lookup_insert_ne; [done|]. intros ->. unfold A in Hj. lia. }
  assert (Hf : ∀ f g a g', Inv g → A a → _markFresh f g a = Some g' → Inv g').
  { intros f g a g' (Gg & Hg) Ha Hrun. split.
    - eapply same_graph_trans; [done|]. by eapply markFresh_same_graph.
    - eapply markFresh_keeps_stale_node; [done| |done..].
      intros ->. unfold A in Ha. lia. }
  assert (Hr : ∀ g a c, Inv g → A a → req_edge g a c → A c).
  { intros g a c (Gg & _) Ha E. apply (same_graph_req_edge _ _ _ _ Gg), R in E.
    unfold A in *. lia. }
  apply (eval_operands_invariant Inv A (getValue cfg fuel) vars) with h;
    [|done|by split|done].
  intros var g g' Hv Hg Hgend.
  by apply (getValue_invariant Inv A cfg Hw Hf Hr fuel var g g').
Qed.

(** C4.  When a recomputation is due for b and [_calcValue] raises, the
    same exception leaves [getValue], in the heap as it was at the raise:
    nothing is stored and b is not marked fresh.  On an acyclic graph
    the slot, the caching switch and the requires list of b are what
    they were before the call and a recomputation is due again on the
    next call; a dirty b is still dirty and, but for the counter of the
    instrumentation, the very object it was. *)
Theorem getValue_error_not_cached cfg rank fuel b h v e h1 :
  ranked rank h → h !! b = Some v →
  stale v || negb (_isCached cfg v) || isNone (value v) = true →
  _calcValue (getValue cfg fuel) b h = Raise e h1 →
  getValue cfg (S fuel) b h = Raise e h1 ∧
  (∃ v', h1 !! b = Some v' ∧ value v' = value v ∧ _cached v' = _cached v ∧
         requiredVariables v' = requiredVariables v ∧
         (stale v = true → stale v' = true) ∧
         stale v' || negb (_isCached cfg v') || isNone (value v') = true) ∧
  (stale v = true → h1 !! b = Some (tick_calc v)).
Proof.
  intros R Hb Hdue Ecalc. split.
  { by rewrite getValue_unfold, Hb, Hdue, Ecalc. }
  assert (G0 : same_graph h (<[b := tick_calc v]> h)).
  { by apply payload_write_same_graph with v; [|apply payload_write_tick]. }
  assert (Hops : ∃ op, calcValue v = Operator op ∧
            ended (eval_operands (getValue cfg fuel) (requiredVariables v)
                     (<[b := tick_calc v]> h)) h1).
  { rewrite calcValue_unfold, Hb in Ecalc. simpl in Ecalc.
    destruct (calcValue v) as [|op]; [done|]. exists op. split; [done|].
    destruct (eval_operands (getValue cfg fuel) (requiredVariables v) _)
      as [xs g|e' g|]; [| |done].
    - destruct (op xs); [|done]. injection Ecalc as _ <-. by apply ended_Ret.
    - injection Ecalc as _ <-. by apply ended_Raise. }
  destruct Hops as (op & _ & Hend).
  assert (Hreqs : Forall (λ var, rank var < rank b) (requiredVariables v)).
  { apply Forall_forall. intros c Hc. apply R. by exists v. }
  split.
  - destruct (operands_keep_node cfg rank fuel (requiredVariables v) b v h
                (<[b := tick_calc v]> h) h1 R G0 Hreqs)
      as (G & w & Hw & Hval & Hc & Hs); [|done|].
    { exists (tick_calc v). by rewrite lookup_insert_eq. }
    exists w. split; [done|]. split; [done|]. split; [done|]. split.
    { specialize (G b). rewrite Hb, Hw in G. by destruct G. }
    split; [done|].
    unfold _isCached in *. rewrite Hval, Hc.
    destruct (stale v); [by rewrite Hs|]. by destruct (stale w).
  - intros Hst.
    eapply (operands_keep_stale_record cfg rank fuel (requiredVariables v) b
              (tick_calc v) h); [done..| |done|done].
    by rewrite lookup_insert_eq.
Qed.

(** ** Mutation *)


Lemma setValue_unfold cfg fuel n x h :
  setValue cfg fuel n x None h =
  match h !! n with
  | None => Raise DanglingReference h
  | Some v =>
      match _markFresh fuel (<[n := with_value (Some (nx_array (value v) x)) v]> h) n with
      | Some h' => Ret tt h'
      | None => NoFuel
      end
  end.
Proof.
  unfold setValue, mbind, M_bind, bind, ret, _setValue, modify, lift. simpl.
  destruct (h !! n) as [v|]; [|done]. by destruct (_markFresh fuel _ n).
Qed.








(** ** Construction *)

Lemma fresh_id_fresh h : h !! fresh_id h = None.
Proof.
  destruct (h !! fresh_id h) as [v|] eqn:E; [|done].
  assert (Hin : fresh_id h ∈ mentioned h).
  { unfold mentioned. apply elem_of_app. left.
    apply list_elem_of_fmap. exists (fresh_id h, v). split; [done|].
    by apply elem_of_map_to_list. }
  apply max_list_elem_of_le in Hin. unfold fresh_id in Hin at 1. lia.
Qed.

Lemma Variable__init__result fuel c k s x cached h :
  Variable__init__ fuel c k s x cached h =
  Ret (fresh_id h) (<[fresh_id h := initial c k s x cached]> h).
Proof.
  unfold Variable__init__, alloc, mbind, M_bind, bind, lift, ret.
  set (n := fresh_id h). set (w := with_value _ _).
  rewrite (markFresh_unfold fuel _ n w) by by rewrite lookup_insert_eq.
  simpl. by rewrite insert_insert_eq.
Qed.

Lemma has_static_payload h h' j c k s l :
  (∀ w, h !! j = Some w → ∃ w', h' !! j = Some w' ∧ same_payload w w') →
  has_static h j c k s l → has_static h' j c k s l.
Proof.
  intros Hp (w & Hw & ? & ? & ? & ?). destruct (Hp w Hw) as (w' & Hw' & P).
  destruct P as (? & _ & _ & ? & ? & ? & _). exists w'. repeat split; congruence.
Qed.

Lemma markStale_payload fuel h i h' j w :
  _markStale fuel h i = Some h' → h !! j = Some w →
  ∃ w', h' !! j = Some w' ∧ same_payload w w'.
Proof.
  intros Hrun Hj. destruct (markStale_spec _ _ _ _ Hrun) as (P & _).
  by eapply propagates_payload.
Qed.

(** [_requires]: what a call that returns has done. *)
Lemma requires_inv fuel n var h h' :
  _requires fuel n var h = Ret tt h' →
  ∃ vn vv h2,
    h !! n = Some vn ∧
    <[n := with_requiredVariables (requiredVariables vn ++ [var]) vn]> h !! var = Some vv ∧
    h2 = <[var := with_subscribedVariables (subscribedVariables vv ++ [n]) vv]>
           (<[n := with_requiredVariables (requiredVariables vn ++ [var]) vn]> h) ∧
    _markStale fuel h2 n = Some h'.
Proof.
  unfold _requires, _requiredBy, mbind, M_bind, bind, modify, lift. intros Hrun.
  destruct (h !! n) as [vn|] eqn:Hn; [|done].
  destruct (<[n := _]> h !! var) as [vv|] eqn:Hv; [|done].
  destruct (_markStale fuel _ n) as [h3|] eqn:Hm; [|done].
  injection Hrun as <-. eexists vn, vv, _. by repeat split.
Qed.

Lemma requires_static fuel n var h h' :
  _requires fuel n var h = Ret tt h' →
  (∀ c k s l, has_static h n c k s l → has_static h' n c k s (l ++ [var])) ∧
  (∀ j c k s l, j ≠ n → has_static h j c k s l → has_static h' j c k s l) ∧
  (∀ j, h !! j = None → h' !! j = None) ∧
  is_stale h' n.
Proof.
  intros Hrun. destruct (requires_inv _ _ _ _ _ Hrun) as (vn & vv & h2 & Hn & Hv & -> & Hm).
  set (h1 := <[n := with_requiredVariables (requiredVariables vn ++ [var]) vn]> h) in *.
  set (h2 := <[var := _]> h1) in *.
  destruct (markStale_spec _ _ _ _ Hm) as (P & St & _).
  assert (Hn2 : ∃ w, h2 !! n = Some w ∧ cls w = cls vn ∧ calcValue w = calcValue vn ∧
                     opShape w = opShape vn ∧
                     requiredVariables w = requiredVariables vn ++ [var]).
  { destruct (decide (var = n)) as [->|Hne].
    - unfold h2. rewrite lookup_insert_eq. eexists. split; [done|].
      unfold h1 in Hv. rewrite lookup_insert_eq in Hv. by injection Hv as <-.
    - unfold h2, h1. rewrite lookup_insert_ne, lookup_insert_eq by done.
      eexists. by split. }
  split; [|split; [|split]].
  - intros c k s l (w & Hw & <- & <- & <- & <-). rewrite Hn in Hw. injection Hw as <-.
    destruct Hn2 as (w2 & Hw2 & ? & ? & ? & ?).
    eapply has_static_payload.
    + intros w Hw. by eapply propagates_payload.
    + by exists w2.
  - intros j c k s l Hj (w & Hw & <- & <- & <- & <-).
    eapply has_static_payload.
    + intros w' Hw'. by eapply propagates_payload.
    + destruct (decide (j = var)) as [->|Hne].
      * unfold h1 in Hv. rewrite lookup_insert_ne in Hv by done.
        rewrite Hw in Hv. injection Hv as <-.
        exists (with_subscribedVariables (subscribedVariables w ++ [n]) w).
        split; [unfold h2; by rewrite lookup_insert_eq|done].
      * exists w. unfold h2, h1. by rewrite !lookup_insert_ne.
  - intros j Hj. destruct P as [Pn _]. apply Pn. unfold h2, h1.
    rewrite !lookup_insert_ne; [done|congruence|].
    intros ->. unfold h1 in Hv. rewrite lookup_insert_ne in Hv by congruence. congruence.
  - apply St. destruct Hn2 as (w & Hw & _). eauto.
Qed.

Lemma for_each_requires_static fuel n vars :
  ∀ h h', for_each (_requires fuel n) vars h = Ret tt h' →
    (∀ c k s l, has_static h n c k s l → has_static h' n c k s (l ++ vars)) ∧
    (∀ j c k s l, j ≠ n → has_static h j c k s l → has_static h' j c k s l) ∧
    (∀ j, h !! j = None → h' !! j = None).
Proof.
  induction vars as [|var rest IH]; intros h h' Hrun; simpl in Hrun.
  - injection Hrun as <-. split; [|done]. intros c k s l. by rewrite app_nil_r.
  - unfold mbind, M_bind, bind in Hrun.
    destruct (_requires fuel n var h) as [[] h1| |] eqn:E; [|done..].
    destruct (requires_static _ _ _ _ _ E) as (S1 & S2 & S3 & _).
    destruct (IH _ _ Hrun) as (T1 & T2 & T3).
    split; [|split]; [|by eauto|by eauto].
    intros c k s l Hs. rewrite (assoc_L (++) l [var] rest : l ++ var :: rest = _). eauto.
Qed.

Lemma OperatorVariable__init__inv fuel c op vars shape ci h n h' :
  OperatorVariable__init__ fuel c op vars shape ci h = Ret n h' →
  n = fresh_id h ∧
  has_static h' n c (Operator op) (Some shape) vars ∧
  (∀ j c' k s l, has_static h j c' k s l → has_static h' j c' k s l) ∧
  (∀ j, j ≠ n → h !! j = None → h' !! j = None).
Proof.
  unfold OperatorVariable__init__, mbind, M_bind, bind. rewrite Variable__init__result.
  set (m := fresh_id h). set (w := initial _ _ _ _ _).
  destruct (for_each (_requires fuel m) vars _) as [[] h1| |] eqn:E; [|done..].
  intros [= <- <-]. destruct (for_each_requires_static _ _ _ _ _ E) as (T1 & T2 & T3).
  pose proof (fresh_id_fresh h) as Hm. fold m in Hm.
  split; [done|]. split; [|split].
  - apply (T1 _ _ _ []). exists w. by rewrite lookup_insert_eq.
  - intros j c' k s l (u & Hu & ?). assert (j ≠ m) by congruence.
    apply T2; [done|]. exists u. by rewrite lookup_insert_ne.
  - intros j Hj Hn. apply T3. by rewrite lookup_insert_ne.
Qed.

(** Evaluation keeps the static attributes and allocates nothing. *)
Lemma getValue_static cfg fuel i h h' :
  ended (getValue cfg fuel i h) h' →
  (∀ j c k s l, has_static h j c k s l → has_static h' j c k s l) ∧
  (∀ j, h !! j = None → h' !! j = None).
Proof.
  intros Hend. split.
  - intros j c k s l Hs.
    apply (getValue_invariant (λ g, has_static g j c k s l) (λ _, True) cfg)
      with fuel i h; [| |done..].
    + intros g j' v w (u & Hu & ? & ? & ? & ?) _ Hj' (? & _ & _ & _ & ? & ? & ? & _).
      destruct (decide (j' = j)) as [->|Hne].
      * exists w. rewrite lookup_insert_eq. rewrite Hu in Hj'. injection Hj' as <-.
        repeat split; congruence.
      * exists u. by rewrite lookup_insert_ne.
    + intros f g a g' Hg _ Hrun. eapply has_static_payload; [|done].
      intros w Hw. by eapply markFresh_payload.
  - intros j Hj. pose proof (getValue_same_graph _ _ _ _ _ Hend j) as G.
    rewrite Hj in G. by destruct (h' !! j).
Qed.

Lemma units_allow_inline_static cfg fuel vars :
  ∀ ci h h', ended (units_allow_inline cfg fuel vars ci h) h' →
    (∀ j c k s l, has_static h j c k s l → has_static h' j c k s l) ∧
    (∀ j, h !! j = None → h' !! j = None).
Proof.
  induction vars as [|var rest IH]; intros ci h h' Hend; simpl in Hend.
  - apply ended_Ret in Hend as ->. done.
  - unfold mbind, M_bind, bind, unit_isDimensionless in Hend.
    unfold mbind, M_bind, bind, ret in Hend.
    destruct (getValue cfg fuel var h) as [x h1|e h1|] eqn:E.
    + destruct (getValue_static cfg fuel var h h1) as [S1 N1]; [rewrite E; by apply ended_Ret|].
      destruct (IH _ _ _ Hend) as [S2 N2]. split; eauto.
    + apply ended_Raise in Hend as ->. apply (getValue_static cfg fuel var).
      rewrite E. by apply ended_Raise.
    + destruct (ended_NoFuel _ Hend).
Qed.

Lemma getValue_settled cfg fuel i h v :
  h !! i = Some v → settled cfg v → getValue cfg (S fuel) i h = Ret (value v) h.
Proof.
  intros Hi (Hs & Hc & Hv). by rewrite getValue_unfold, Hi, Hs, Hc, Hv.
Qed.

Lemma requires_returns fuel n var h vn :
  h !! n = Some vn → is_Some (h !! var) → var ≠ n →
  stale vn = true ∨ subscribedVariables vn = [] →
  ∃ h', _requires (S fuel) n var h = Ret tt h'.
Proof.
  intros Hn [vv Hv] Hne Hcase.
  unfold _requires, _requiredBy, mbind, M_bind, bind, modify, lift.
  rewrite Hn, lookup_insert_ne, Hv by done.
  rewrite markStale_unfold, lookup_insert_ne, lookup_insert_eq by done.
  destruct Hcase as [Hs|Hs]; simpl; rewrite Hs; [eauto|]. simpl.
  destruct (stale vn); eauto.
Qed.

(** [_BinaryOperatorVariable]: what a call that returns has done. *)
Lemma BinaryOperatorVariable_inv cfg fuel self op other oc os ci h r h' :
  _BinaryOperatorVariable cfg fuel self op other oc os ci h = Ret r h' →
  ∃ right h1 vs vo,
    match other with
    | Node o => right = o ∧ h1 = h
    | Raw x => right = fresh_id h ∧ _Constant fuel x h = Ret right h1 ∧
               h1 = <[right := initial C_Constant Leaf None (Some x) true]> h
    end ∧
    h1 !! self = Some vs ∧ h1 !! right = Some vo ∧
    let sc := if isNone os || isNone oc
              then _shapeClassAndOther vs os oc vo else (os, None) in
    match sc.1, (if isNone oc then sc.2 else oc) with
    | Some shape, Some c =>
        ∃ ci' h2 n,
          units_allow_inline cfg fuel [self; right] ci h1 = Ret ci' h2 ∧
          OperatorVariable__init__ fuel c op [self; right] shape ci' h2 = Ret n h' ∧
          r = Created n
    | _, _ => r = NotImplemented ∧ h' = h1
    end.
Proof.
  unfold _BinaryOperatorVariable. unfold mbind at 1, M_bind at 1, bind at 1.
  intros Hrun.
  assert (Hother : ∃ right h1,
    match other with
    | Node o => ret o
    | Raw x => _Constant fuel x
    end h = Ret right h1 ∧
    match other with
    | Node o => right = o ∧ h1 = h
    | Raw x => right = fresh_id h ∧ _Constant fuel x h = Ret right h1 ∧
               h1 = <[right := initial C_Constant Leaf None (Some x) true]> h
    end).
  { destruct other as [o|x].
    - by exists o, h.
    - unfold _Constant. rewrite Variable__init__result. by eexists _, _. }
  destruct Hother as (right & h1 & E & Hother). rewrite E in Hrun.
  unfold mbind at 1 2, M_bind at 1 2, bind at 1 2, this in Hrun.
  destruct (h1 !! self) as [vs|] eqn:Hs; [|done].
  destruct (h1 !! right) as [vo|] eqn:Ho; [|done].
  exists right, h1, vs, vo. split; [done|]. split; [done|]. split; [done|].
  cbv zeta. destruct (if isNone os || isNone oc then _ else _) as [[shape|] bc]; cbn [fst snd].
  - destruct (if isNone oc then bc else oc) as [c|].
    + unfold mbind, M_bind, bind in Hrun.
      destruct (units_allow_inline cfg fuel [self; right] ci h1)
        as [ci' h2| |] eqn:Eu; [|done..].
      destruct (OperatorVariable__init__ fuel c op [self; right] shape ci' h2)
        as [n h3| |] eqn:Ei; [|done..].
      injection Hrun as <- <-. by exists ci', h2, n.
    + by injection Hrun as <- <-.
  - by injection Hrun as <- <-.
Qed.

Lemma BinaryOperatorVariable_created cfg fuel self op other oc os ci h n h' :
  _BinaryOperatorVariable cfg fuel self op other oc os ci h = Ret (Created n) h' →
  ∃ right h1 vs vo shape c,
    match other with
    | Node o => right = o ∧ h1 = h
    | Raw x => right = fresh_id h ∧ _Constant fuel x h = Ret right h1 ∧
               h1 = <[right := initial C_Constant Leaf None (Some x) true]> h
    end ∧
    h1 !! self = Some vs ∧ h1 !! right = Some vo ∧
    (let sc := if isNone os || isNone oc
               then _shapeClassAndOther vs os oc vo else (os, None) in
     sc.1 = Some shape ∧ (if isNone oc then sc.2 else oc) = Some c) ∧
    h !! n = None ∧ (∀ j, is_Some (h1 !! j) → n ≠ j) ∧
    has_static h' n c (Operator op) (Some shape) [self; right] ∧
    (∀ j c' k s l, has_static h1 j c' k s l → has_static h' j c' k s l).
Proof.
  intros Hrun.
  destruct (BinaryOperatorVariable_inv _ _ _ _ _ _ _ _ _ _ _ Hrun)
    as (right & h1 & vs & vo & Hother & Hs & Ho & Hrest).
  exists right, h1, vs, vo. cbv zeta in *.
  destruct (if isNone os || isNone oc then _ else _) as [[shape|] bc];
    cbn [fst snd] in *; [|by destruct Hrest].
  destruct (if isNone oc then bc else oc) as [c|]; [|by destruct Hrest].
  destruct Hrest as (ci' & h2 & n' & Hunits & Hinit & [= <-]).
  exists shape, c.
  destruct (units_allow_inline_static cfg fuel [self; right] ci h1 h2) as [U1 U2].
  { rewrite Hunits. by apply ended_Ret. }
  destruct (OperatorVariable__init__inv _ _ _ _ _ _ _ _ _ Hinit) as (-> & Sn & S1 & S2).
  pose proof (fresh_id_fresh h2) as Hfresh.
  assert (Hlive : ∀ j, is_Some (h1 !! j) → fresh_id h2 ≠ j).
  { intros j [w Hw] <-.
    destruct (U1 (fresh_id h2) _ _ _ _ (ex_intro _ w (conj Hw (conj eq_refl
               (conj eq_refl (conj eq_refl eq_refl)))))) as (w' & Hw' & _).
    congruence. }
  split; [done|]. split; [done|]. split; [done|]. split; [done|].
  split; [|split; [done|split; [done|]]].
  - destruct (h !! fresh_id h2) as [w|] eqn:E; [|done].
    destruct (Hlive (fresh_id h2)); [|done].
    destruct other as [o|x].
    + destruct Hother as [_ ->]. eauto.
    + destruct Hother as (_ & _ & ->).
      destruct (decide (right = fresh_id h2)) as [->|Hne].
      * rewrite lookup_insert_eq. eauto.
      * rewrite lookup_insert_ne by done. eauto.
  - intros j c' k s l Hj. by apply S1, U1.
Qed.

(** C7.  The node that a binary operator application returns is new and
    its requires list is exactly the left operand followed by the right
    one.  A right-hand operand that is not a node has first been wrapped
    by [_Constant]: the wrapper is a new object, a leaf of class
    [_Constant], and it is the second entry. *)
Theorem binary_operator_requires cfg fuel self op other oc os ci h n h' :
  _BinaryOperatorVariable cfg fuel self op other oc os ci h = Ret (Created n) h' →
  ∃ right vn,
    h !! n = None ∧ h' !! n = Some vn ∧ requiredVariables vn = [self; right] ∧
    match other with
    | Node o => right = o
    | Raw x =>
        h !! right = None ∧ right ≠ n ∧
        (∃ h1, _Constant fuel x h = Ret right h1) ∧
        has_static h' right C_Constant Leaf None []
    end.
Proof.
  intros Hrun.
  destruct (BinaryOperatorVariable_created _ _ _ _ _ _ _ _ _ _ _ Hrun)
    as (right & h1 & vs & vo & shape & c & Hother & Hs & Ho & _ & Hnew & Hlive & Sn & S1).
  destruct Sn as (vn & Hvn & _ & _ & _ & Hreq).
  exists right, vn. split; [done|]. split; [done|]. split; [done|].
  destruct other as [o|x]; [by destruct Hother|].
  destruct Hother as (-> & Hconst & ->). split; [apply fresh_id_fresh|].
  split; [|split; [by eexists|]].
  - intros E. by apply (Hlive (fresh_id h)); [rewrite lookup_insert_eq|].
  - apply S1. eexists. rewrite lookup_insert_eq. by split.
Qed.

Lemma units_allow_inline_settled cfg fuel self other ci h vs vo :
  h !! self = Some vs → h !! other = Some vo → settled cfg vs → settled cfg vo →
  ∃ ci', units_allow_inline cfg (S fuel) [self; other] ci h = Ret ci' h.
Proof.
  intros Hs Ho Ss So. simpl.
  unfold unit_isDimensionless, mbind, M_bind, bind, ret.
  rewrite (getValue_settled _ _ _ _ _ Hs Ss), (getValue_settled _ _ _ _ _ Ho So). eauto.
Qed.

Lemma OperatorVariable__init__returns fuel c op self other shape ci h :
  is_Some (h !! self) → is_Some (h !! other) →
  ∃ n h', OperatorVariable__init__ (S fuel) c op [self; other] shape ci h = Ret n h'.
Proof.
  intros Hs Ho. unfold OperatorVariable__init__, mbind, M_bind, bind.
  rewrite Variable__init__result. set (n := fresh_id h). set (w := initial _ _ _ _ _).
  pose proof (fresh_id_fresh h) as Hn. fold n in Hn.
  assert (Hsn : self ≠ n) by (intros ->; destruct Hs; congruence).
  assert (Hon : other ≠ n) by (intros ->; destruct Ho; congruence).
  destruct (requires_returns fuel n self (<[n := w]> h) w) as [h1 E1];
    [by rewrite lookup_insert_eq|by rewrite lookup_insert_ne|done|by right|].
  destruct (requires_static _ _ _ _ _ E1) as (_ & S2 & _ & (vn & Hvn & Hst)).
  destruct (requires_returns fuel n other h1 vn) as [h2 E2]; [done| |done|by left|].
  { destruct Ho as [vo Hvo].
    destruct (S2 other (cls vo) (calcValue vo) (opShape vo) (requiredVariables vo) Hon)
      as (w' & Hw' & _); [|eauto].
    exists vo. by rewrite lookup_insert_ne. }
  exists n, h2. simpl. unfold mbind, M_bind, bind. by rewrite E1, E2.
Qed.



(** ** More on evaluation and mutation *)

Lemma ended_bind {A B} (m : M V A) (k : A → M V B) h h' :
  ended ((m ≫= k) h) h' →
  (∃ e, m h = Raise e h') ∨ (∃ a h1, m h = Ret a h1 ∧ ended (k a h1) h').
Proof.
  unfold mbind, M_bind, bind. destruct (m h) as [a h1|e h1|] eqn:E; intros Hend.
  - right. eauto.
  - left. apply ended_Raise in Hend as ->. eauto.
  - destruct (ended_NoFuel _ Hend).
Qed.

Lemma preserves_bind {A B} (P : heap V → Prop) (m : M V A) (k : A → M V B) :
  preserves P m → (∀ a, preserves P (k a)) → preserves P (m ≫= k).
Proof.
  intros Hm Hk h h' HP Hend. apply ended_bind in Hend as [[e E]|(a & h1 & E & Hend)].
  - apply (Hm h); [done|]. rewrite E. by apply ended_Raise.
  - apply (Hk a h1); [|done]. apply (Hm h); [done|]. rewrite E. by apply ended_Ret.
Qed.

Lemma preserves_ret {A} (P : heap V → Prop) (a : A) : preserves P (mret a).
Proof. by intros h h' HP ->%ended_Ret. Qed.

Lemma preserves_raise {A} (P : heap V → Prop) e : preserves P (raise (A := A) e).
Proof. by intros h h' HP ->%ended_Raise. Qed.

Lemma preserves_this (P : heap V → Prop) n : preserves P (this n).
Proof.
  intros h h' HP Hend. unfold this in Hend. destruct (h !! n).
  - by apply ended_Ret in Hend as ->.
  - by apply ended_Raise in Hend as ->.
Qed.

(** What a property needs in order to survive the mutators of [n]. *)
Section mutation_rule.

Variable P : heap V → Prop.
Variable cfg : config.
Variable n : nat.
Hypothesis P_get : ∀ fuel, preserves P (getValue cfg fuel n).
Hypothesis P_write : ∀ h v w,
  P h → h !! n = Some v → payload_write v w → P (<[n := w]> h).
Hypothesis P_fresh : ∀ fuel h h', P h → _markFresh fuel h n = Some h' → P h'.

Lemma preserves_modify (f : variable V → variable V) :
  (∀ v, payload_write v (f v)) → preserves P (modify n f).
Proof.
  intros Hf h h' HP Hend. unfold modify in Hend. destruct (h !! n) as [v|] eqn:Hn.
  - apply ended_Ret in Hend as ->. by eapply P_write.
  - by apply ended_Raise in Hend as ->.
Qed.

Lemma preserves_markFresh fuel : preserves P (lift (λ h, _markFresh fuel h n)).
Proof.
  intros h h' HP Hend. unfold lift in Hend.
  destruct (_markFresh fuel h n) as [h1|] eqn:E.
  - apply ended_Ret in Hend as ->. by eapply P_fresh.
  - destruct (ended_NoFuel _ Hend).
Qed.

Lemma preserves_write_slot (f : V → exn + V) : preserves P (write_slot n f).
Proof.
  apply preserves_bind; [apply preserves_this|]. intros v.
  destruct (value v) as [a|]; [|apply preserves_raise].
  destruct (f a); [apply preserves_raise|].
  apply preserves_modify. intros w. apply payload_write_value.
Qed.

Lemma mutation_preserves fuel :
  (∀ x mask, preserves P (setValue cfg fuel n x mask)) ∧
  (∀ index x, preserves P (__setitem__ cfg fuel n index x)) ∧
  (∀ indices x, preserves P (put cfg fuel n indices x)).
Proof.
  split; [|split].
  - intros x mask. unfold setValue.
    apply preserves_bind.
    + destruct mask as [w|]; [|apply preserves_ret].
      destruct (nx_fill w x); [apply preserves_raise|].
      apply preserves_bind; [apply P_get|]. intros cur.
      destruct (nx_where w v cur); [apply preserves_raise|apply preserves_ret].
    + intros tmp. apply preserves_bind; [|intros _; apply preserves_markFresh].
      apply preserves_modify. intros v. apply payload_write_value.
  - intros index x. unfold __setitem__.
    apply preserves_bind; [apply preserves_this|]. intros v.
    apply preserves_bind.
    + destruct (isNone (value v)); [|apply preserves_ret].
      apply preserves_bind; [apply P_get|].
      intros _. apply preserves_ret.
    + intros _. apply preserves_bind; [apply preserves_write_slot|].
      intros _. apply preserves_markFresh.
  - intros indices x. unfold put.
    apply preserves_bind; [apply P_get|]. intros selfvalue.
    apply preserves_bind; [apply preserves_this|]. intros v.
    apply preserves_bind.
    + destruct selfvalue as [a|]; [|apply preserves_raise].
      destruct (value v); [apply preserves_write_slot|].
      destruct (nx_put a indices x); [apply preserves_raise|apply preserves_ret].
    + intros _. apply preserves_markFresh.
Qed.

End mutation_rule.

Lemma graph_stable_preserves {A} (m : M V A) :
  graph_stable m ↔ ∀ h0, preserves (same_graph h0) m.
Proof.
  split.
  - intros Hm h0 h h' G Hend. eapply same_graph_trans; [done|by apply Hm].
  - intros Hm h h' Hend. apply (Hm h h); [apply same_graph_refl|done].
Qed.

Lemma graph_stable_bind {A B} (m : M V A) (k : A → M V B) :
  graph_stable m → (∀ a, graph_stable (k a)) → graph_stable (m ≫= k).
Proof.
  rewrite !graph_stable_preserves. intros Hm Hk h0. apply preserves_bind; [done|].
  intros a. by apply graph_stable_preserves.
Qed.

Lemma graph_stable_ret {A} (a : A) : graph_stable (V := V) (mret a).
Proof. apply graph_stable_preserves. intros h0. apply preserves_ret. Qed.

Lemma graph_stable_getValue cfg fuel n : graph_stable (getValue cfg fuel n).
Proof. intros h h'. apply getValue_same_graph. Qed.

Lemma evaluation_and_mutation_graph cfg fuel n :
  graph_stable (getValue cfg fuel n) ∧
  (∀ x mask, graph_stable (setValue cfg fuel n x mask)) ∧
  (∀ index x, graph_stable (__setitem__ cfg fuel n index x)) ∧
  (∀ indices x, graph_stable (put cfg fuel n indices x)).
Proof.
  split; [apply graph_stable_getValue|].
  assert (Hrule : ∀ h0,
    (∀ x mask, preserves (same_graph h0) (setValue cfg fuel n x mask)) ∧
    (∀ index x, preserves (same_graph h0) (__setitem__ cfg fuel n index x)) ∧
    (∀ indices x, preserves (same_graph h0) (put cfg fuel n indices x))).
  { intros h0. apply mutation_preserves.
    - intros f. by apply graph_stable_preserves, graph_stable_getValue.
    - intros h v w G Hn Hw. eapply same_graph_trans; [done|].
      by eapply payload_write_same_graph.
    - intros f h h' G Hrun. eapply same_graph_trans; [done|].
      by eapply markFresh_same_graph. }
  split; [|split]; intros; apply graph_stable_preserves; intros h0; by apply Hrule.
Qed.

(** X3.  Evaluation and mutation never change the dependency graph:
    whether [getValue], [setValue] (masked or not), [__setitem__] or
    [put] returns or raises, the heap holds the same objects with the
    same requires lists and the same live requiredBy entries as before
    the call. *)
Theorem evaluation_and_mutation_keep_graph cfg fuel n :
  graph_stable (getValue cfg fuel n) ∧
  (∀ x mask, graph_stable (setValue cfg fuel n x mask)) ∧
  (∀ index x, graph_stable (__setitem__ cfg fuel n index x)) ∧
  (∀ indices x, graph_stable (put cfg fuel n indices x)).
Proof. apply evaluation_and_mutation_graph. Qed.

Lemma tc_same_graph_irrefl h g n :
  same_graph h g → ¬ tc (sub_edge h) n n → ¬ tc (sub_edge g) n n.
Proof. intros G Hn T. apply Hn. by apply (same_graph_tc _ _ _ _ G). Qed.

Lemma insert_size_live (h : heap V) n v w : h !! n = Some v → size (<[n := w]> h) = size h.
Proof.
  intros Hn. rewrite <- !(size_dom (D := gset nat)), dom_insert_L.
  f_equal. apply subseteq_union_1_L, singleton_subseteq_l. by eapply elem_of_dom_2.
Qed.

(** One evaluation of a leaf that does not cache. *)
Lemma getValue_uncached_leaf cfg fuel b h v :
  h !! b = Some v → calcValue v = Leaf → _isCached cfg v = false → size h < fuel →
  ∃ h1 w, getValue cfg (S fuel) b h = Ret (value v) h1 ∧
          h1 !! b = Some w ∧ value w = None ∧ calcValue w = Leaf ∧
          _isCached cfg w = false ∧ size h1 = size h.
Proof.
  intros Hb Hleaf Hc Hsz. rewrite getValue_unfold, Hb, Hc.
  replace (stale v || negb false || isNone (value v)) with true
    by (by destruct (stale v)).
  rewrite calcValue_unfold, Hb. cbv zeta. rewrite Hleaf, lookup_insert_eq.
  set (g := <[b := stored cfg (tick_calc v) (value v)]> (<[b := tick_calc v]> h)).
  assert (Hg : g !! b = Some (stored cfg (tick_calc v) (value v)))
    by (unfold g; by rewrite lookup_insert_eq).
  assert (Hgs : size g = size h).
  { unfold g. rewrite (insert_size_live _ b (tick_calc v)); [|by rewrite lookup_insert_eq].
    by eapply insert_size_live. }
  destruct (markFresh_terminates fuel g b) as [h1 Hrun]; [lia|].
  rewrite Hrun. destruct (markFresh_payload _ _ _ _ _ _ Hrun Hg) as (w & Hw & P).
  exists h1, w. split; [done|]. split; [done|].
  destruct P as (_ & Pv & Pc & _ & Pk & _).
  assert (Hst : stored cfg (tick_calc v) (value v) = with_value None (tick_calc v)).
  { unfold stored. replace (_isCached cfg (tick_calc v)) with (_isCached cfg v) by done.
    by rewrite Hc. }
  rewrite Hst in Pv, Pc, Pk. simpl in Pv, Pc, Pk.
  repeat split; [done|congruence| |].
  - unfold _isCached in *. by rewrite Pc.
  - rewrite <- Hgs. apply same_graph_size. by eapply markFresh_same_graph.
Qed.

(** X4.  A leaf that does not cache loses its value at the first
    evaluation: [getValue] returns the value it holds and stores [None]
    in the slot, so the next [getValue] returns [None]. *)
Theorem uncached_leaf_forgets cfg fuel b h v a :
  h !! b = Some v → calcValue v = Leaf → _isCached cfg v = false →
  value v = Some a → size h < fuel →
  ∃ h1 h2, getValue cfg (S fuel) b h = Ret (Some a) h1 ∧
           getValue cfg (S fuel) b h1 = Ret None h2 ∧
           ∃ w, h2 !! b = Some w ∧ value w = None.
Proof.
  intros Hb Hleaf Hc Hv Hsz.
  destruct (getValue_uncached_leaf cfg fuel b h v Hb Hleaf Hc Hsz)
    as (h1 & w & Hrun & Hw & Hwv & Hwl & Hwc & Hs1).
  destruct (getValue_uncached_leaf cfg fuel b h1 w Hw Hwl Hwc)
    as (h2 & w2 & Hrun2 & Hw2 & Hwv2 & _); [lia|].
  exists h1, h2. rewrite Hrun, Hv, Hrun2, Hwv. eauto.
Qed.


Lemma calcValue_keeps_cached cfg fuel b h v x h1 :
  h !! b = Some v → _calcValue (getValue cfg fuel) b h = Ret x h1 →
  same_graph h h1 ∧ ∃ w, h1 !! b = Some w ∧ _cached w = _cached v.
Proof.
  intros Hb Hrun. rewrite calcValue_unfold, Hb in Hrun. cbv zeta in Hrun.
  assert (G0 : same_graph h (<[b := tick_calc v]> h)).
  { eapply payload_write_same_graph; [done|apply payload_write_tick]. }
  destruct (calcValue v) as [|op].
  - injection Hrun as _ <-. split; [done|]. exists (tick_calc v).
    by rewrite lookup_insert_eq.
  - destruct (eval_operands (getValue cfg fuel) (requiredVariables v)
                (<[b := tick_calc v]> h)) as [xs h2|e h2|] eqn:E; [|done..].
    assert (Hend : ended (eval_operands (getValue cfg fuel) (requiredVariables v)
                            (<[b := tick_calc v]> h)) h2) by (rewrite E; by apply ended_Ret).
    assert (h1 = h2) as -> by (destruct (op xs); congruence).
    split.
    + eapply same_graph_trans; [done|by eapply eval_operands_same_graph].
    + destruct (operands_keep_counter cfg fuel (requiredVariables v) b 0 (_cached v)
                  (<[b := tick_calc v]> h) h2) as (w & Hw & _ & Hk); [|done|eauto].
      exists (tick_calc v). rewrite lookup_insert_eq. split; [done|]. split; [lia|done].
Qed.

(** X6.  Evaluation is idempotent on a node that caches and is not its
    own dependent: after a [getValue] that returned a value, the node
    is clean with that value (normalised by [_makeValue] if it was just
    computed) in its slot, and every further [getValue] answers from
    the slot and leaves the heap as it is. *)
Theorem getValue_idempotent cfg fuel b h v x h' :
  h !! b = Some v → _isCached cfg v = true → ¬ tc (sub_edge h) b b →
  getValue cfg fuel b h = Ret (Some x) h' →
  ∃ w, h' !! b = Some w ∧ settled cfg w ∧
       (value w = Some x ∨ ∃ cur, value w = Some (nx_array cur x)) ∧
       ∀ fuel', getValue cfg (S fuel') b h' = Ret (value w) h'.
Proof.
  intros Hb Hc Hcyc Hrun. destruct fuel as [|fuel]; [done|].
  rewrite getValue_unfold, Hb in Hrun.
  destruct (stale v || negb (_isCached cfg v) || isNone (value v)) eqn:Hd.
  - destruct (_calcValue (getValue cfg fuel) b h) as [y h1|e h1|] eqn:E; [|done..].
    destruct (calcValue_keeps_cached _ _ _ _ _ _ _ Hb E) as (G & w1 & Hw1 & Hk).
    rewrite Hw1 in Hrun.
    destruct (_markFresh fuel (<[b := stored cfg w1 y]> h1) b) as [h3|] eqn:F; [|done].
    injection Hrun as -> ->.
    assert (Hc1 : _isCached cfg w1 = true) by (unfold _isCached in *; by rewrite Hk).
    assert (G1 : same_graph h (<[b := stored cfg w1 (Some x)]> h1)).
    { eapply same_graph_trans; [done|].
      eapply payload_write_same_graph; [done|apply payload_write_value]. }
    destruct (markFresh_effect fuel _ b (stored cfg w1 (Some x)) _
                ltac:(by rewrite lookup_insert_eq) F) as (_ & _ & _ & _ & _ & Hself & _).
    specialize (Hself (tc_same_graph_irrefl _ _ _ G1 Hcyc)).
    assert (Hsettled : settled cfg (freshened (<[b := stored cfg w1 (Some x)]> h1)
                                      (stored cfg w1 (Some x)))).
    { unfold settled, stored. rewrite Hc1. by repeat split. }
    eexists. split; [done|]. split; [done|]. split.
    + right. exists (value w1). unfold stored. by rewrite Hc1.
    + intros fuel'. by apply getValue_settled.
  - injection Hrun as Hx ->. apply orb_false_iff in Hd as [Hd Hn].
    apply orb_false_iff in Hd as [Hs _].
    assert (Hsettled : settled cfg v) by done.
    exists v. split; [done|]. split; [done|]. split; [by left|].
    intros fuel'. by apply getValue_settled.
Qed.

(** X7.  Evaluation ends on an acyclic requires graph: with a rank
    that decreases along the requires edges, [getValue] returns or
    raises once the fuel exceeds the rank of the node plus the number
    of objects plus one. *)
Theorem getValue_ends_on_acyclic cfg rank fuel i h :
  ranked rank h → rank i + size h + 1 < fuel →
  ∃ h', ended (getValue cfg fuel i h) h'.
Proof.
  intros R Hfuel. pose proof (getValue_terminates cfg rank fuel i h R Hfuel) as Hne.
  destruct (getValue cfg fuel i h) as [x h'|e h'|]; [| |done].
  - exists h'. by apply ended_Ret.
  - exists h'. by apply ended_Raise.
Qed.

(** X8.  There is no cycle detection: on a dirty operator node whose
    first operand is the node itself, [getValue] never ends, whatever
    the recursion depth that is allowed. *)
Theorem getValue_diverges_on_self_loop cfg fuel b h v op rest :
  h !! b = Some v → stale v = true → calcValue v = Operator op →
  requiredVariables v = b :: rest →
  getValue cfg fuel b h = NoFuel.
Proof.
  revert h v. induction fuel as [|fuel IH]; intros h v Hb Hs Hop Hreq; [done|].
  rewrite getValue_unfold, Hb, Hs. simpl.
  rewrite calcValue_unfold, Hb. cbv zeta. rewrite Hop, Hreq, eval_operands_unfold.
  rewrite (IH _ (tick_calc v)); [done|by rewrite lookup_insert_eq|done..].
Qed.


Lemma eval_operands_settled cfg fuel vars h :
  Forall (λ r, ∃ w, h !! r = Some w ∧ settled cfg w) vars →
  eval_operands (getValue cfg (S fuel)) vars h =
  Ret ((λ r, default None (value <$> h !! r)) <$> vars) h.
Proof.
  induction vars as [|var rest IH]; intros Hall; [done|].
  apply Forall_cons in Hall as [(w & Hw & Sw) Hrest].
  rewrite eval_operands_unfold, (getValue_settled cfg fuel var h w Hw Sw), (IH Hrest).
  simpl. by rewrite Hw.
Qed.

(** X21.  A dependent sees the new value: after [setValue] on a
    caching node [a], the next [getValue] of a node [b] that requires
    [a] and whose other operands are clean, caching and no dependents
    of [a], applies the function of [b] to the value just written (as
    normalised) and the stored values of the other operands, and
    returns its result or raises its error. *)
Theorem getValue_reflects_setValue cfg fuel h a b va vb op x :
  h !! a = Some va → h !! b = Some vb → _isCached cfg va = true →
  ¬ tc (sub_edge h) a a → b ∈ subscribedVariables va →
  calcValue vb = Operator op →
  Forall (λ r, r = a ∨ (r ≠ b ∧ ¬ tc (sub_edge h) a r ∧
                        ∃ w, h !! r = Some w ∧ settled cfg w))
         (requiredVariables vb) →
  size h < fuel →
  ∃ h1, setValue cfg fuel a x None h = Ret tt h1 ∧
    match op ((λ r, if decide (r = a) then Some (nx_array (value va) x)
                    else default None (value <$> h !! r)) <$> requiredVariables vb) with
    | inl e => ∃ h2, getValue cfg (S (S fuel)) b h1 = Raise e h2
    | inr r => ∃ h2, getValue cfg (S (S fuel)) b h1 = Ret r h2
    end.
Proof.
  intros Ha Hb Hc Hcyc Hsub Hop Hreqs Hsz.
  assert (Hab : a ≠ b).
  { intros ->. apply Hcyc, tc_once. exists va. eauto. }
  rewrite setValue_unfold, Ha.
  set (vw := with_value (Some (nx_array (value va) x)) va).
  set (g := <[a := vw]> h).
  assert (Hg : g !! a = Some vw) by (unfold g; by rewrite lookup_insert_eq).
  assert (G : same_graph h g).
  { eapply payload_write_same_graph; [done|apply payload_write_value]. }
  destruct (markFresh_terminates fuel g a) as [h1 Hrun].
  { unfold g. by rewrite (insert_size_live _ _ va). }
  rewrite Hrun. exists h1. split; [done|].
  destruct (markFresh_effect _ _ _ _ _ Hg Hrun)
    as (G1 & _ & _ & Hdirect & _ & Hself & Hframe & Hpay).
  specialize (Hself (tc_same_graph_irrefl _ _ _ G Hcyc)).
  assert (Hsa : settled cfg (freshened g vw)) by done.
  assert (Hbg : g !! b = Some vb) by (unfold g; by rewrite lookup_insert_ne).
  destruct (Hdirect b) as (wb & Hwb & Hstale).
  { apply (same_graph_sub_edge _ _ _ _ G). exists va. eauto. }
  destruct (Hpay b vb Hbg) as (wb' & Hwb' & P). rewrite Hwb in Hwb'. injection Hwb' as <-.
  destruct P as (Preq & _ & _ & _ & Pcalc & _).
  assert (Hsize : size h1 = size h).
  { rewrite (same_graph_size _ _ G1). unfold g. by eapply insert_size_live. }
  rewrite getValue_unfold, Hwb, Hstale. cbn [orb].
  rewrite calcValue_unfold, Hwb. cbv zeta. rewrite Pcalc, Hop, Preq.
  set (h0 := <[b := tick_calc wb]> h1).
  assert (Hall : Forall (λ r, ∃ w, h0 !! r = Some w ∧ settled cfg w ∧
                    value w = if decide (r = a) then Some (nx_array (value va) x)
                              else default None (value <$> h !! r))
                  (requiredVariables vb)).
  { eapply Forall_impl; [exact Hreqs|]. intros r Hr. cbv beta in Hr.
    destruct (decide (r = a)) as [->|Hra].
    - exists (freshened g vw). unfold h0. rewrite lookup_insert_ne by done.
      by split.
    - destruct Hr as [?|(Hrb & Hnt & w & Hw & Sw)]; [done|].
      exists w. unfold h0. rewrite lookup_insert_ne by done.
      rewrite (Hframe r Hra); [|intros T; apply Hnt; by apply (same_graph_tc _ _ _ _ G)].
      unfold g. rewrite lookup_insert_ne by done.
      split; [done|]. split; [done|]. by rewrite Hw. }
  rewrite (eval_operands_settled cfg fuel (requiredVariables vb) h0).
  2:{ eapply Forall_impl; [exact Hall|]. intros r (w & ? & ? & _). eauto. }
  assert (Hargs : (λ r, default None (value <$> h0 !! r)) <$> requiredVariables vb =
                  (λ r, if decide (r = a) then Some (nx_array (value va) x)
                        else default None (value <$> h !! r)) <$> requiredVariables vb).
  { apply Forall_fmap_ext. eapply Forall_impl; [exact Hall|].
    intros r (w & Hw & _ & Hv). cbv beta. by rewrite Hw. }
  rewrite Hargs.
  destruct (op _) as [e|r]; [eauto|].
  unfold h0. rewrite lookup_insert_eq.
  destruct (markFresh_terminates (S fuel)
              (<[b := stored cfg (tick_calc wb) r]> (<[b := tick_calc wb]> h1)) b)
    as [h3 Hrun3].
  { rewrite (insert_size_live _ b (tick_calc wb)) by by rewrite lookup_insert_eq.
    rewrite (insert_size_live _ b wb) by done. lia. }
  rewrite Hrun3. eauto.
Qed.

(** What [getValue] leaves of a node that does not cache. *)
Lemma getValue_uncached_slot cfg fuel n h v y h1 :
  h !! n = Some v → _isCached cfg v = false →
  getValue cfg fuel n h = Ret y h1 →
  ∃ w, h1 !! n = Some w ∧ value w = None ∧ _isCached cfg w = false.
Proof.
  intros Hn Hc Hrun. destruct fuel as [|fuel]; [done|].
  rewrite getValue_unfold, Hn, Hc in Hrun.
  replace (stale v || negb false || isNone (value v)) with true in Hrun
    by (by destruct (stale v)).
  destruct (_calcValue (getValue cfg fuel) n h) as [z h0|e h0|] eqn:E; [|done..].
  destruct (calcValue_keeps_cached _ _ _ _ _ _ _ Hn E) as (_ & w0 & Hw0 & Hk).
  rewrite Hw0 in Hrun.
  destruct (_markFresh fuel (<[n := stored cfg w0 z]> h0) n) as [h3|] eqn:F; [|done].
  injection Hrun as <- <-.
  destruct (markFresh_payload _ _ _ _ n (stored cfg w0 z) F) as (w & Hw & P).
  { by rewrite lookup_insert_eq. }
  assert (Hc0 : _isCached cfg w0 = false) by (unfold _isCached in *; by rewrite Hk).
  destruct P as (_ & Pv & Pc & _). unfold stored in Pv, Pc. rewrite Hc0 in Pv, Pc.
  exists w. split; [done|]. split; [done|].
  unfold _isCached in *. simpl in Pc. by rewrite Pc.
Qed.

(** X22.  Writing into a node that does not cache and has an empty
    slot: [__setitem__] evaluates the node and then raises [TypeError],
    since the evaluation left [None] in the slot, so it never returns;
    [put] writes into the temporary that [getValue] returned, so when
    it returns the slot is still empty and the write is lost. *)
Theorem uncached_item_assignment cfg fuel n index indices x h v :
  h !! n = Some v → _isCached cfg v = false → value v = None →
  (∀ y h1, getValue cfg fuel n h = Ret y h1 →
           __setitem__ cfg fuel n index x h = Raise TypeError h1) ∧
  (∀ h', __setitem__ cfg fuel n index x h ≠ Ret tt h') ∧
  (∀ h', put cfg fuel n indices x h = Ret tt h' →
         ∃ w, h' !! n = Some w ∧ value w = None).
Proof.
  intros Hn Hc Hv.
  assert (Hset : ∀ y h1, getValue cfg fuel n h = Ret y h1 →
                         __setitem__ cfg fuel n index x h = Raise TypeError h1).
  { intros y h1 E. destruct (getValue_uncached_slot _ _ _ _ _ _ _ Hn Hc E)
      as (w & Hw & Hwv & _).
    unfold __setitem__, write_slot, mbind, M_bind, bind, this, ret.
    rewrite Hn, Hv. cbn [isNone]. by rewrite E, Hw, Hwv. }
  split; [done|]. split.
  - intros h' Hrun.
    destruct (getValue cfg fuel n h) as [y h1|e h1|] eqn:E.
    + by rewrite (Hset y h1 eq_refl) in Hrun.
    + revert Hrun. unfold __setitem__, mbind, M_bind, bind, this, ret.
      rewrite Hn, Hv. cbn [isNone]. by rewrite E.
    + revert Hrun. unfold __setitem__, mbind, M_bind, bind, this, ret.
      rewrite Hn, Hv. cbn [isNone]. by rewrite E.
  - intros h'. unfold put, mbind, M_bind, bind, this, ret, lift.
    destruct (getValue cfg fuel n h) as [y h1|e h1|] eqn:E; [|done..].
    destruct (getValue_uncached_slot _ _ _ _ _ _ _ Hn Hc E) as (w & Hw & Hwv & _).
    rewrite Hw, Hwv. destruct y as [a|]; [|done].
    destruct (nx_put a indices x); [done|].
    destruct (_markFresh fuel h1 n) as [h3|] eqn:F; [|done]. intros [= <-].
    destruct (markFresh_payload _ _ _ _ n w F Hw) as (w' & Hw' & _ & Pv & _).
    exists w'. split; [done|congruence].
Qed.

(** ** The graph that construction builds *)

Lemma fresh_id_above h j : is_Some (h !! j) → j < fresh_id h.
Proof.
  intros [v Hj]. assert (Hin : j ∈ mentioned h).
  { unfold mentioned. apply elem_of_app. left.
    apply list_elem_of_fmap. exists (j, v). split; [done|].
    by apply elem_of_map_to_list. }
  apply max_list_elem_of_le in Hin. unfold fresh_id. lia.
Qed.

Lemma fresh_id_not_subscribed h j v s :
  h !! j = Some v → s ∈ subscribedVariables v → s < fresh_id h.
Proof.
  intros Hj Hs. assert (Hin : s ∈ mentioned h).
  { unfold mentioned. apply elem_of_app. right.
    apply list_elem_of_join. exists (subscribedVariables v). split; [done|].
    apply list_elem_of_fmap. exists v. split; [done|].
    apply list_elem_of_fmap. exists (j, v). split; [done|].
    by apply elem_of_map_to_list. }
  apply max_list_elem_of_le in Hin. unfold fresh_id. lia.
Qed.

Lemma extends_same_graph h g n : same_graph h g → extends h g [] n [].
Proof.
  intros G. split; [intros j Hj; by apply elem_of_nil in Hj|]. split; [|split].
  - intros j. rewrite (same_graph_is_Some _ _ j G). split; [by left|].
    intros [?|Hj]; [done|by apply elem_of_nil in Hj].
  - intros a b. rewrite (same_graph_req_edge _ _ a b G). split; [by left|].
    intros [?|[_ Hb]]; [done|by apply elem_of_nil in Hb].
  - intros a b. rewrite (same_graph_sub_edge _ _ a b G). split; [by left|].
    intros [?|[Ha _]]; [done|by apply elem_of_nil in Ha].
Qed.

Lemma extends_trans h g h' N1 N2 n vs1 vs2 :
  extends h g N1 n vs1 → extends g h' N2 n vs2 → extends h h' (N1 ++ N2) n (vs1 ++ vs2).
Proof.
  intros (A1 & A2 & A3 & A4) (B1 & B2 & B3 & B4). split; [|split; [|split]].
  - intros j Hj. apply elem_of_app in Hj as [Hj|Hj]; [by apply A1|].
    specialize (B1 j Hj). destruct (h !! j) eqn:E; [|done].
    assert (Hg : is_Some (g !! j)) by (apply A2; left; eauto).
    rewrite B1 in Hg. by destruct Hg.
  - intros j. rewrite B2, A2, elem_of_app. tauto.
  - intros a b. rewrite B3, A3, elem_of_app. tauto.
  - intros a b. rewrite B4, A4, elem_of_app. tauto.
Qed.

Lemma extends_no_edges h h' N n m : extends h h' N n [] → extends h h' N m [].
Proof.
  intros (A1 & A2 & A3 & A4). split; [done|]. split; [done|]. split.
  - intros a b. rewrite A3. split; (intros [?|[_ Hb]]; [by left|by apply elem_of_nil in Hb]).
  - intros a b. rewrite A4. split; (intros [?|[Ha _]]; [by left|by apply elem_of_nil in Ha]).
Qed.

(** Allocation of an object that has no edges. *)
Lemma extends_alloc h w :
  requiredVariables w = [] → subscribedVariables w = [] →
  extends h (<[fresh_id h := w]> h) [fresh_id h] (fresh_id h) [].
Proof.
  intros Hr Hs. pose proof (fresh_id_fresh h) as Hn. set (n := fresh_id h) in *.
  split; [intros j Hj; apply list_elem_of_singleton in Hj; by subst|].
  split; [|split].
  - intros j. rewrite list_elem_of_singleton. destruct (decide (j = n)) as [->|Hne].
    + rewrite lookup_insert_eq. split; [by right|eauto].
    + rewrite lookup_insert_ne by done. split; [by left|]. by intros [?|?].
  - intros a b. split.
    + intros (v & Hv & Hb). left. destruct (decide (a = n)) as [->|Hne].
      * rewrite lookup_insert_eq in Hv. injection Hv as <-. rewrite Hr in Hb.
        by apply elem_of_nil in Hb.
      * rewrite lookup_insert_ne in Hv by done. by exists v.
    + intros [(v & Hv & Hb)|[_ Hb]]; [|by apply elem_of_nil in Hb].
      exists v. split; [|done]. rewrite lookup_insert_ne; [done|congruence].
  - intros a b. split.
    + intros (v & Hv & Hb & Hl). left. destruct (decide (a = n)) as [->|Hne].
      * rewrite lookup_insert_eq in Hv. injection Hv as <-. rewrite Hs in Hb.
        by apply elem_of_nil in Hb.
      * rewrite lookup_insert_ne in Hv by done. exists v. split; [done|]. split; [done|].
        destruct (decide (b = n)) as [->|Hb'].
        -- pose proof (fresh_id_not_subscribed h a v n Hv Hb). unfold n in *. lia.
        -- by rewrite lookup_insert_ne in Hl.
    + intros [(v & Hv & Hb & Hl)|[Ha _]]; [|by apply elem_of_nil in Ha].
      exists v. assert (a ≠ n) by congruence.
      assert (b ≠ n) by (intros ->; rewrite Hn in Hl; by destruct Hl).
      by rewrite !lookup_insert_ne.
Qed.

(** One call of [_requires]: the two edges, and nothing else of the
    graph. *)
Lemma requires_extends fuel n var h h' :
  _requires fuel n var h = Ret tt h' →
  is_Some (h !! n) ∧ is_Some (h !! var) ∧ extends h h' [] n [var].
Proof.
  intros Hrun. destruct (requires_inv _ _ _ _ _ Hrun) as (vn & vv & h2 & Hn & Hv & -> & Hm).
  set (h1 := <[n := with_requiredVariables (requiredVariables vn ++ [var]) vn]> h) in *.
  set (h2 := <[var := _]> h1) in *.
  destruct (markStale_spec _ _ _ _ Hm) as (P & _).
  pose proof (propagates_same_graph _ _ P) as G.
  assert (Hvar : is_Some (h !! var)).
  { unfold h1 in Hv. destruct (decide (var = n)) as [->|Hne]; [eauto|].
    rewrite lookup_insert_ne in Hv by done. eauto. }
  assert (Hlook : ∀ a,
    match h !! a, h2 !! a with
    | Some w, Some w2 =>
        requiredVariables w2 =
          requiredVariables w ++ (if decide (a = n) then [var] else []) ∧
        subscribedVariables w2 =
          subscribedVariables w ++ (if decide (a = var) then [n] else [])
    | None, None => True
    | _, _ => False
    end).
  { intros a. unfold h2. destruct (decide (a = var)) as [->|Hav].
    - rewrite lookup_insert_eq. destruct Hvar as [w Hw]. rewrite Hw. simpl.
      unfold h1 in Hv. destruct (decide (var = n)) as [->|Hne].
      + rewrite lookup_insert_eq in Hv. injection Hv as <-. simpl.
        rewrite Hn in Hw. by injection Hw as <-.
      + rewrite lookup_insert_ne in Hv by done. rewrite Hw in Hv. injection Hv as <-.
        by rewrite app_nil_r.
    - rewrite lookup_insert_ne by done. unfold h1.
      destruct (decide (a = n)) as [->|Han].
      + rewrite lookup_insert_eq, Hn. simpl. by rewrite app_nil_r.
      + rewrite lookup_insert_ne by done. destruct (h !! a); [|done].
        by rewrite !app_nil_r. }
  assert (Hlive : ∀ j, is_Some (h2 !! j) ↔ is_Some (h !! j)).
  { intros j. specialize (Hlook j). by destruct (h !! j), (h2 !! j). }
  split; [eauto|]. split; [done|].
  split; [intros j Hj; by apply elem_of_nil in Hj|]. split; [|split].
  - intros j. rewrite (same_graph_is_Some _ _ j G), Hlive. split; [by left|].
    intros [?|Hj]; [done|by apply elem_of_nil in Hj].
  - intros a b. rewrite (same_graph_req_edge _ _ a b G), list_elem_of_singleton.
    specialize (Hlook a). split.
    + intros (w2 & Hw2 & Hb). rewrite Hw2 in Hlook.
      destruct (h !! a) as [w|] eqn:Ha; [|done]. destruct Hlook as [Hr _].
      rewrite Hr in Hb. apply elem_of_app in Hb as [Hb|Hb]; [left; by exists w|].
      destruct (decide (a = n)); [|by apply elem_of_nil in Hb].
      apply list_elem_of_singleton in Hb. by right.
    + intros [(w & Hw & Hb)|[-> ->]].
      * rewrite Hw in Hlook. destruct (h2 !! a) as [w2|] eqn:E2; [|done].
        exists w2. split; [done|]. destruct Hlook as [-> _]. apply elem_of_app. by left.
      * rewrite Hn in Hlook. destruct (h2 !! n) as [w2|] eqn:E2; [|done].
        exists w2. split; [done|]. destruct Hlook as [-> _]. apply elem_of_app. right.
        rewrite decide_True by done. by apply list_elem_of_singleton.
  - intros a b. rewrite (same_graph_sub_edge _ _ a b G), list_elem_of_singleton.
    specialize (Hlook a). split.
    + intros (w2 & Hw2 & Hb & Hl). rewrite Hw2 in Hlook.
      destruct (h !! a) as [w|] eqn:Ha; [|done]. destruct Hlook as [_ Hs].
      rewrite Hs in Hb. apply Hlive in Hl.
      apply elem_of_app in Hb as [Hb|Hb]; [left; by exists w|].
      destruct (decide (a = var)); [|by apply elem_of_nil in Hb].
      apply list_elem_of_singleton in Hb. by right.
    + intros [(w & Hw & Hb & Hl)|[-> ->]].
      * rewrite Hw in Hlook. destruct (h2 !! a) as [w2|] eqn:E2; [|done].
        exists w2. split; [done|]. destruct Hlook as [_ ->].
        split; [apply elem_of_app; by left|by apply Hlive].
      * destruct Hvar as [w Hw]. rewrite Hw in Hlook.
        destruct (h2 !! var) as [w2|] eqn:E2; [|done].
        exists w2. split; [done|]. destruct Hlook as [_ ->]. split.
        -- apply elem_of_app. right. rewrite decide_True by done.
           by apply list_elem_of_singleton.
        -- apply Hlive. eauto.
Qed.

Lemma for_each_requires_extends fuel n vars :
  ∀ h h', is_Some (h !! n) → for_each (_requires fuel n) vars h = Ret tt h' →
    Forall (λ var, is_Some (h !! var)) vars ∧ extends h h' [] n vars.
Proof.
  induction vars as [|var rest IH]; intros h h' Hn Hrun; simpl in Hrun.
  - injection Hrun as <-. split; [done|]. apply extends_same_graph, same_graph_refl.
  - unfold mbind, M_bind, bind in Hrun.
    destruct (_requires fuel n var h) as [[] h1| |] eqn:E; [|done..].
    destruct (requires_extends _ _ _ _ _ E) as (_ & Hvar & X1).
    assert (Hn1 : is_Some (h1 !! n)) by (apply X1; by left).
    destruct (IH _ _ Hn1 Hrun) as (Hrest & X2). split.
    + apply Forall_cons. split; [done|]. eapply Forall_impl; [done|].
      intros x Hx. simpl in Hx. apply X1 in Hx as [?|Hx]; [done|by apply elem_of_nil in Hx].
    + exact (extends_trans _ _ _ [] [] _ [var] rest X1 X2).
Qed.

Lemma same_payload_trans (u v w : variable V) :
  same_payload u v → same_payload v w → same_payload u w.
Proof.
  intros (?&?&?&?&?&?&?) (?&?&?&?&?&?&?). repeat split; congruence.
Qed.

(** [_requires] on a node that has no subscriber leaves it dirty with
    its slot, its counter and its empty requiredBy list. *)
Lemma requires_born fuel n var h h' k :
  _requires fuel n var h = Ret tt h' → var ≠ n →
  (∃ v, h !! n = Some v ∧ value v = None ∧ calcCount v = 0 ∧ _cached v = k ∧
        subscribedVariables v = []) →
  is_stale h' n ∧
  ∃ v, h' !! n = Some v ∧ value v = None ∧ calcCount v = 0 ∧ _cached v = k ∧
       subscribedVariables v = [].
Proof.
  intros Hrun Hne (v & Hv & Hval & Hcnt & Hk & Hsubs).
  destruct (requires_static _ _ _ _ _ Hrun) as (_ & _ & _ & Hst). split; [done|].
  destruct (requires_inv _ _ _ _ _ Hrun) as (vn & vv & h2 & Hn & Hvv & -> & Hm).
  rewrite Hv in Hn. injection Hn as <-.
  set (v1 := with_requiredVariables (requiredVariables v ++ [var]) v) in *.
  assert (H2 : <[var := with_subscribedVariables (subscribedVariables vv ++ [n]) vv]>
                 (<[n := v1]> h) !! n = Some v1).
  { by rewrite lookup_insert_ne, lookup_insert_eq. }
  destruct (markStale_spec _ _ _ _ Hm) as ([_ Ps] & _).
  destruct (Ps _ _ H2) as [E|[_ E]]; rewrite E; eexists; (split; [done|]); simpl.
  - done.
  - rewrite Hsubs. done.
Qed.

Lemma for_each_requires_born fuel n vars :
  ∀ h h' k, for_each (_requires fuel n) vars h = Ret tt h' → n ∉ vars →
  (∃ v, h !! n = Some v ∧ value v = None ∧ calcCount v = 0 ∧ _cached v = k ∧
        subscribedVariables v = []) →
  (vars ≠ [] ∨ is_stale h n → is_stale h' n) ∧
  ∃ v, h' !! n = Some v ∧ value v = None ∧ calcCount v = 0 ∧ _cached v = k ∧
       subscribedVariables v = [].
Proof.
  induction vars as [|var rest IH]; intros h h' k Hrun Hnin Hb; simpl in Hrun.
  - injection Hrun as <-. split; [|done]. by intros [?|?].
  - unfold mbind, M_bind, bind in Hrun.
    destruct (_requires fuel n var h) as [[] h1| |] eqn:E; [|done..].
    apply not_elem_of_cons in Hnin as [Hne Hnin].
    destruct (requires_born _ _ _ _ _ k E) as (Hst & Hb1); [done|done|].
    destruct (IH _ _ k Hrun Hnin Hb1) as (Hst2 & Hb2). split; [|done].
    intros _. apply Hst2. by right.
Qed.

(** The constructor of the operator classes adds one node and the
    edges to its operands. *)
Lemma OperatorVariable__init__extends fuel c op vars shape ci h n h' :
  OperatorVariable__init__ fuel c op vars shape ci h = Ret n h' →
  n = fresh_id h ∧ extends h h' [n] n vars ∧
  (vars ≠ [] → Forall (λ var, is_Some (h !! var)) vars → born h' n).
Proof.
  unfold OperatorVariable__init__, mbind, M_bind, bind. rewrite Variable__init__result.
  set (m := fresh_id h). set (w := initial _ _ _ _ _).
  destruct (for_each (_requires fuel m) vars _) as [[] h1| |] eqn:E; [|done..].
  intros [= <- <-].
  destruct (for_each_requires_extends _ _ _ _ _ ltac:(by rewrite lookup_insert_eq) E)
    as (_ & X).
  split; [done|]. split.
  - exact (extends_trans _ _ _ [m] [] m [] vars (extends_alloc h w eq_refl eq_refl) X).
  - intros Hne Hvars.
    destruct (for_each_requires_born _ _ _ _ _ true E) as (Hst & v & Hv & ? & ? & ? & ?).
    + intros Hin. rewrite Forall_forall in Hvars. specialize (Hvars _ Hin).
      pose proof (fresh_id_fresh h) as F. fold m in F. rewrite F in Hvars.
      by destruct Hvars.
    + exists w. by rewrite lookup_insert_eq.
    + destruct Hst as (v' & Hv' & Hs'); [by left|]. rewrite Hv in Hv'. injection Hv' as <-.
      by exists v.
Qed.

Lemma graph_stable_units_allow_inline cfg fuel vars :
  ∀ ci, graph_stable (units_allow_inline cfg fuel vars ci).
Proof.
  induction vars as [|v rest IH]; intros ci; simpl; [apply graph_stable_ret|].
  apply graph_stable_bind; [|intros d; apply IH].
  unfold unit_isDimensionless.
  apply graph_stable_bind; [apply graph_stable_getValue|]. intros x. apply graph_stable_ret.
Qed.

(** X9.  A binary operator application that creates a node adds to
    the heap exactly that node (and, for a right operand that is not a
    variable, the constant that wraps it), the two requires edges of
    the node and the requiredBy edges that mirror them; every other
    object and edge is as before.  The node is born dirty, with nothing
    in its slot, never evaluated, caching, and without subscribers. *)
Theorem binary_operator_adds_node cfg fuel self op other oc os ci h n h' :
  _BinaryOperatorVariable cfg fuel self op other oc os ci h = Ret (Created n) h' →
  born h' n ∧
  match other with
  | Node o => extends h h' [n] n [self; o]
  | Raw x => ∃ right, right = fresh_id h ∧ extends h h' [right; n] n [self; right]
  end.
Proof.
  intros Hrun.
  destruct (BinaryOperatorVariable_inv _ _ _ _ _ _ _ _ _ _ _ Hrun)
    as (right & h1 & vs & vo & Hother & Hs & Ho & Hcase).
  cbv zeta in Hcase.
  destruct ((if isNone os || isNone oc then _shapeClassAndOther vs os oc vo
             else (os, None)).1) as [shape|]; [|by destruct Hcase].
  destruct (if isNone oc then _ else oc) as [c|]; [|by destruct Hcase].
  destruct Hcase as (ci' & h2 & n0 & Hu & Hinit & [= <-]).
  assert (G : same_graph h1 h2).
  { apply (graph_stable_units_allow_inline cfg fuel [self; right] ci).
    rewrite Hu. by apply ended_Ret. }
  destruct (OperatorVariable__init__extends _ _ _ _ _ _ _ _ _ Hinit) as (_ & X & Hborn).
  assert (X1 : extends h1 h' [n] n [self; right]).
  { exact (extends_trans _ _ _ [] [n] n [] [self; right] (extends_same_graph _ _ n G) X). }
  split.
  - apply Hborn; [done|]. repeat apply Forall_cons_2; [| |done];
      apply (same_graph_is_Some _ _ _ G); eauto.
  - destruct other as [o|x].
    + by destruct Hother as [-> ->].
    + destruct Hother as (Hr & _ & Hh1). exists right. split; [done|].
      assert (X0 : extends h h1 [right] n []).
      { rewrite Hh1, Hr. apply (extends_no_edges _ _ _ (fresh_id h)).
        by apply extends_alloc. }
      exact (extends_trans _ _ _ [right] [n] n [] [self; right] X0 X1).
Qed.

Lemma UnaryOperatorVariable_inv cfg fuel self op oc os ci h r h' :
  _UnaryOperatorVariable cfg fuel self op oc os ci h = Ret r h' →
  ∃ vs ci' h2 n,
    h !! self = Some vs ∧
    units_allow_inline cfg fuel [self] ci h = Ret ci' h2 ∧
    OperatorVariable__init__ fuel (default CVariable oc) op [self]
      (default (getShape vs) os) ci' h2 = Ret n h' ∧
    r = Created n.
Proof.
  unfold _UnaryOperatorVariable. unfold mbind at 1, M_bind at 1, bind at 1, this at 1.
  destruct (h !! self) as [vs|] eqn:Hs; [|done]. cbv zeta.
  unfold mbind at 1, M_bind at 1, bind at 1.
  destruct (units_allow_inline cfg fuel [self] ci h) as [ci' h2|e h2|] eqn:Hu; [|done..].
  unfold mbind, M_bind, bind, mret, M_ret, ret.
  destruct (OperatorVariable__init__ _ _ _ _ _ _ h2) as [n h3|e h3|] eqn:Hi; [|done..].
  intros [= <- <-]. by exists vs, ci', h2, n.
Qed.

Lemma UnaryOperatorVariable_node cfg fuel self op oc os ci h r h' :
  _UnaryOperatorVariable cfg fuel self op oc os ci h = Ret r h' →
  ∃ n vs, r = Created n ∧ h !! self = Some vs ∧
    has_static h' n (default CVariable oc) (Operator op)
               (Some (default (getShape vs) os)) [self] ∧
    extends h h' [n] n [self] ∧ born h' n.
Proof.
  intros Hrun.
  destruct (UnaryOperatorVariable_inv _ _ _ _ _ _ _ _ _ _ Hrun)
    as (vs & ci' & h2 & n & Hs & Hu & Hinit & ->).
  assert (G : same_graph h h2).
  { apply (graph_stable_units_allow_inline cfg fuel [self] ci).
    rewrite Hu. by apply ended_Ret. }
  destruct (OperatorVariable__init__extends _ _ _ _ _ _ _ _ _ Hinit) as (_ & X & Hborn).
  destruct (OperatorVariable__init__inv _ _ _ _ _ _ _ _ _ Hinit) as (_ & Hst & _).
  exists n, vs. split; [done|]. split; [done|]. split; [done|]. split.
  - exact (extends_trans _ _ _ [] [n] n [] [self] (extends_same_graph _ _ n G) X).
  - apply Hborn; [done|]. apply Forall_cons_2; [|done].
    apply (same_graph_is_Some _ _ _ G). eauto.
Qed.

(** X10.  A unary operator application never answers
    [NotImplemented]: when it returns, it has created a node of the
    requested class (default [Variable]) and shape (default: the shape
    of the operand) whose only operand is [self]; the heap gained
    exactly that node, its requires edge and the mirroring requiredBy
    edge, and the node is born dirty and unevaluated. *)
Theorem unary_operator_adds_node cfg fuel self op oc os ci h r h' :
  _UnaryOperatorVariable cfg fuel self op oc os ci h = Ret r h' →
  ∃ n vs, r = Created n ∧ h !! self = Some vs ∧
    has_static h' n (default CVariable oc) (Operator op)
               (Some (default (getShape vs) os)) [self] ∧
    extends h h' [n] n [self] ∧ born h' n.
Proof. apply UnaryOperatorVariable_node. Qed.

(** ** The graph invariant of the methods *)

Lemma extends_well_formed h h' N n vars :
  extends h h' N n vars → Forall (λ x, x < n) vars → well_formed h → well_formed h'.
Proof.
  intros (_ & _ & X3 & X4) Hlt (L & R & S). rewrite Forall_forall in Hlt.
  split; [|split].
  - intros a b. rewrite X3, X4, (L a b). tauto.
  - intros a b E. apply X3 in E as [E|[-> Hb]]; [by apply R|]. by apply Hlt.
  - intros a b E. apply X4 in E as [E|[Ha ->]]; [by apply S|]. by apply Hlt.
Qed.

Lemma same_graph_well_formed h h' : same_graph h h' → well_formed h → well_formed h'.
Proof.
  intros G. by apply (extends_well_formed h h' [] 0 []); [apply extends_same_graph|].
Qed.

Lemma alloc_well_formed h w :
  requiredVariables w = [] → subscribedVariables w = [] →
  well_formed h → well_formed (<[fresh_id h := w]> h).
Proof.
  intros Hr Hs. by apply (extends_well_formed h _ [fresh_id h] (fresh_id h) []);
    [apply extends_alloc|].
Qed.

Lemma requires_no_raise fuel n var h e g :
  is_Some (h !! n) → is_Some (h !! var) → _requires fuel n var h ≠ Raise e g.
Proof.
  intros [vn Hn] [vv Hv]. unfold _requires, _requiredBy, mbind, M_bind, bind, modify, lift.
  rewrite Hn.
  destruct (<[n := _]> h !! var) as [w|] eqn:E.
  - by destruct (_markStale fuel _ n).
  - destruct (decide (var = n)) as [->|Hne].
    + by rewrite lookup_insert_eq in E.
    + rewrite lookup_insert_ne in E by done. congruence.
Qed.

Lemma for_each_requires_no_raise fuel n vars :
  ∀ h e g, is_Some (h !! n) → Forall (λ x, is_Some (h !! x)) vars →
    for_each (_requires fuel n) vars h ≠ Raise e g.
Proof.
  induction vars as [|var rest IH]; intros h e g Hn Hvars; simpl; [done|].
  apply Forall_cons in Hvars as [Hvar Hrest]. unfold mbind, M_bind, bind.
  destruct (_requires fuel n var h) as [[] h1|e1 h1|] eqn:E; [| |done].
  - destruct (requires_extends _ _ _ _ _ E) as (_ & _ & _ & Hl & _).
    apply IH; [apply Hl; by left|].
    eapply Forall_impl; [done|]. intros x Hx. apply Hl. by left.
  - by destruct (requires_no_raise fuel n var h e1 h1).
Qed.

Lemma OperatorVariable__init__well_formed fuel c op vars shape ci h h' :
  Forall (λ x, is_Some (h !! x)) vars → well_formed h →
  ended (OperatorVariable__init__ fuel c op vars shape ci h) h' → well_formed h'.
Proof.
  intros Hvars W [[n E]|[e E]].
  - destruct (OperatorVariable__init__extends _ _ _ _ _ _ _ _ _ E) as (-> & X & _).
    eapply extends_well_formed; [done| |done].
    eapply Forall_impl; [done|]. intros x. apply fresh_id_above.
  - exfalso. revert E. unfold OperatorVariable__init__, mbind, M_bind, bind.
    rewrite Variable__init__result.
    destruct (for_each _ vars _) as [[] h1|e1 h1|] eqn:F; [done| |done].
    intros _. eapply (for_each_requires_no_raise _ _ _ _ e1 h1); [| |exact F].
    + by rewrite lookup_insert_eq.
    + eapply Forall_impl; [done|]. intros x Hx. simpl.
      rewrite lookup_insert_ne; [done|]. intros <-.
      rewrite fresh_id_fresh in Hx. by destruct Hx.
Qed.

Lemma BinaryOperatorVariable_well_formed cfg fuel self op other oc os ci h h' :
  well_formed h →
  ended (_BinaryOperatorVariable cfg fuel self op other oc os ci h) h' → well_formed h'.
Proof.
  intros W. unfold _BinaryOperatorVariable. unfold mbind at 1, M_bind at 1, bind at 1.
  assert (Hother : ∃ right h1,
    match other with
    | Node o => ret o
    | Raw x => _Constant fuel x
    end h = Ret right h1 ∧ well_formed h1).
  { destruct other as [o|x].
    - by exists o, h.
    - unfold _Constant. rewrite Variable__init__result. eexists _, _. split; [done|].
      by apply alloc_well_formed. }
  destruct Hother as (right & h1 & E & W1). rewrite E.
  unfold mbind at 1 2, M_bind at 1 2, bind at 1 2, this.
  destruct (h1 !! self) as [vs|] eqn:Hs; [|by intros ->%ended_Raise].
  destruct (h1 !! right) as [vo|] eqn:Ho; [|by intros ->%ended_Raise].
  destruct (if isNone os || isNone oc then _ else _) as [[shape|] bc];
    [|by intros ->%ended_Ret].
  destruct (if isNone oc then bc else oc) as [c|]; [|by intros ->%ended_Ret].
  unfold mbind at 1, M_bind at 1, bind at 1.
  destruct (units_allow_inline cfg fuel [self; right] ci h1) as [ci' h2|e h2|] eqn:Eu.
  - assert (G : same_graph h1 h2).
    { apply (graph_stable_units_allow_inline cfg fuel [self; right] ci).
      rewrite Eu. by apply ended_Ret. }
    intros Hend. apply ended_bind in Hend as [[e Hend]|(n & h3 & Hend & ->%ended_Ret)].
    + eapply (OperatorVariable__init__well_formed fuel c op [self; right] shape ci' h2);
        [|by eapply same_graph_well_formed|rewrite Hend; by apply ended_Raise].
      repeat apply Forall_cons_2; [| |done]; apply (same_graph_is_Some _ _ _ G); eauto.
    + eapply (OperatorVariable__init__well_formed fuel c op [self; right] shape ci' h2);
        [|by eapply same_graph_well_formed|rewrite Hend; by apply ended_Ret].
      repeat apply Forall_cons_2; [| |done]; apply (same_graph_is_Some _ _ _ G); eauto.
  - intros ->%ended_Raise. eapply same_graph_well_formed; [|done].
    apply (graph_stable_units_allow_inline cfg fuel [self; right] ci).
    rewrite Eu. by apply ended_Raise.
  - intros Hend. destruct (ended_NoFuel _ Hend).
Qed.

Lemma UnaryOperatorVariable_well_formed cfg fuel self op oc os ci h h' :
  well_formed h →
  ended (_UnaryOperatorVariable cfg fuel self op oc os ci h) h' → well_formed h'.
Proof.
  intros W. unfold _UnaryOperatorVariable. unfold mbind at 1, M_bind at 1, bind at 1, this at 1.
  destruct (h !! self) as [vs|] eqn:Hs; [|by intros ->%ended_Raise]. cbv zeta.
  unfold mbind at 1, M_bind at 1, bind at 1.
  destruct (units_allow_inline cfg fuel [self] ci h) as [ci' h2|e h2|] eqn:Eu.
  - assert (G : same_graph h h2).
    { apply (graph_stable_units_allow_inline cfg fuel [self] ci).
      rewrite Eu. by apply ended_Ret. }
    intros Hend. apply ended_bind in Hend as [[e Hend]|(n & h3 & Hend & ->%ended_Ret)].
    + eapply (OperatorVariable__init__well_formed fuel _ op [self] _ ci' h2);
        [|by eapply same_graph_well_formed|rewrite Hend; by apply ended_Raise].
      apply Forall_cons_2; [|done]. apply (same_graph_is_Some _ _ _ G); eauto.
    + eapply (OperatorVariable__init__well_formed fuel _ op [self] _ ci' h2);
        [|by eapply same_graph_well_formed|rewrite Hend; by apply ended_Ret].
      apply Forall_cons_2; [|done]. apply (same_graph_is_Some _ _ _ G); eauto.
  - intros ->%ended_Raise. eapply same_graph_well_formed; [|done].
    apply (graph_stable_units_allow_inline cfg fuel [self] ci).
    rewrite Eu. by apply ended_Raise.
  - intros Hend. destruct (ended_NoFuel _ Hend).
Qed.

Lemma copy_well_formed cfg fuel self h h' :
  well_formed h → ended (copy cfg fuel self h) h' → well_formed h'.
Proof.
  intros W Hend. unfold copy in Hend.
  apply ended_bind in Hend as [[e E]|(x & h1 & E & Hend)].
  - eapply same_graph_well_formed; [|done]. apply (graph_stable_getValue cfg fuel self).
    rewrite E. by apply ended_Raise.
  - rewrite Variable__init__result in Hend. apply ended_Ret in Hend as ->.
    apply alloc_well_formed; [done..|].
    eapply same_graph_well_formed; [|done]. apply (graph_stable_getValue cfg fuel self).
    rewrite E. by apply ended_Ret.
Qed.

Lemma with_cached_same_graph h n v b :
  h !! n = Some v → same_graph h (<[n := with_cached b v]> h).
Proof. intros Hn. by apply (same_graph_insert h n v). Qed.

Lemma for_required_same_graph (visit : heap V → nat → option (heap V)) vars :
  (∀ g var g', visit g var = Some g' → same_graph g g') →
  ∀ h h', for_required visit vars h = Some h' → same_graph h h'.
Proof.
  intros Hvisit. induction vars as [|var rest IH]; intros h h' Hrun; simpl in Hrun.
  - injection Hrun as <-. apply same_graph_refl.
  - destruct (visit h var) as [h1|] eqn:E; [|done].
    eapply same_graph_trans; [by eapply Hvisit|by apply IH].
Qed.

Lemma cacheMe_same_graph fuel :
  ∀ h n r h', cacheMe fuel h n r = Some h' → same_graph h h'.
Proof.
  induction fuel as [|fuel IH]; intros h n r h' Hrun; [done|]. simpl in Hrun.
  destruct (h !! n) as [v|] eqn:Hn.
  2:{ injection Hrun as <-. apply same_graph_refl. }
  pose proof (with_cached_same_graph h n v true Hn) as G.
  destruct r.
  - eapply same_graph_trans; [done|].
    eapply for_required_same_graph; [|done]. intros g var g'. apply IH.
  - by injection Hrun as <-.
Qed.

Lemma dontCacheMe_same_graph fuel :
  ∀ h n r h', dontCacheMe fuel h n r = Some h' → same_graph h h'.
Proof.
  induction fuel as [|fuel IH]; intros h n r h' Hrun; [done|]. simpl in Hrun.
  destruct (h !! n) as [v|] eqn:Hn.
  2:{ injection Hrun as <-. apply same_graph_refl. }
  pose proof (with_cached_same_graph h n v false Hn) as G.
  destruct r.
  - eapply same_graph_trans; [done|].
    eapply for_required_same_graph; [|done]. intros g var g'. apply IH.
  - by injection Hrun as <-.
Qed.

Lemma reclaim_well_formed h j :
  (∀ a, ¬ req_edge h a j) → well_formed h → well_formed (delete j h).
Proof.
  intros Hj (L & R & S).
  assert (Hreq : ∀ a b, req_edge (delete j h) a b ↔ a ≠ j ∧ req_edge h a b).
  { intros a b. split.
    - intros (v & Hv & Hb). apply lookup_delete_Some in Hv as [? Hv].
      split; [done|by exists v].
    - intros [Ha (v & Hv & Hb)]. exists v. split; [|done].
      apply lookup_delete_Some. by split. }
  assert (Hsub : ∀ a b, sub_edge (delete j h) a b ↔ a ≠ j ∧ b ≠ j ∧ sub_edge h a b).
  { intros a b. split.
    - intros (v & Hv & Hb & [w Hw]). apply lookup_delete_Some in Hv as [? Hv].
      apply lookup_delete_Some in Hw as [? Hw].
      split; [done|]. split; [done|]. exists v. eauto.
    - intros (Ha & Hb & v & Hv & Hin & [w Hw]). exists v.
      split; [apply lookup_delete_Some; by split|]. split; [done|].
      exists w. apply lookup_delete_Some. by split. }
  split; [|split].
  - intros a b. rewrite Hreq, Hsub, <- (L a b). split; [|tauto].
    intros [Ha E]. split; [|done]. intros ->. by apply (Hj a).
  - intros a b E. apply Hreq in E as [_ E]. by apply R.
  - intros a b E. apply Hsub in E as (_ & _ & E). by apply S.
Qed.

Lemma well_formed_empty : well_formed (V := V) ∅.
Proof.
  split; [|split].
  - intros a b. split.
    + intros (v & Hv & _). by rewrite lookup_empty in Hv.
    + intros (v & Hv & _). by rewrite lookup_empty in Hv.
  - intros a b (v & Hv & _). by rewrite lookup_empty in Hv.
  - intros a b (v & Hv & _). by rewrite lookup_empty in Hv.
Qed.

Lemma sub_ranked_tc rank h a b : sub_ranked rank h → tc (sub_edge h) a b → rank a < rank b.
Proof.
  intros S. induction 1 as [a b E|a b c E _ IH]; [by apply S|].
  specialize (S _ _ E). lia.
Qed.

Lemma api_step_well_formed cfg h h' : api_step cfg h h' → well_formed h → well_formed h'.
Proof.
  intros Hstep W.
  destruct Hstep as
    [fuel c x cached h n g E|fuel self h g E|fuel self op other oc os ci h g E
    |fuel self op oc os ci h g E|fuel n h g E|fuel n x mask h g E
    |fuel n index x h g E|fuel n indices x h g E|fuel n r h g E|fuel n r h g E
    |fuel n h g E|fuel n h g E|j h E].
  - rewrite Variable__init__result in E. injection E as _ <-. by apply alloc_well_formed.
  - by eapply copy_well_formed.
  - by eapply BinaryOperatorVariable_well_formed.
  - by eapply UnaryOperatorVariable_well_formed.
  - eapply same_graph_well_formed; [|done].
    by apply (proj1 (evaluation_and_mutation_graph cfg fuel n)).
  - eapply same_graph_well_formed; [|done].
    by apply (proj1 (proj2 (evaluation_and_mutation_graph cfg fuel n)) x mask).
  - eapply same_graph_well_formed; [|done].
    by apply (proj1 (proj2 (proj2 (evaluation_and_mutation_graph cfg fuel n))) index x).
  - eapply same_graph_well_formed; [|done].
    by apply (proj2 (proj2 (proj2 (evaluation_and_mutation_graph cfg fuel n))) indices x).
  - eapply same_graph_well_formed; [by eapply cacheMe_same_graph|done].
  - eapply same_graph_well_formed; [by eapply dontCacheMe_same_graph|done].
  - eapply same_graph_well_formed; [|done].
    apply propagates_same_graph. by destruct (markStale_spec _ _ _ _ E).
  - eapply same_graph_well_formed; [by eapply markFresh_same_graph|done].
  - by apply reclaim_well_formed.
Qed.

(** X11.  The graph is well formed at every point of every history of
    calls that starts from an empty heap: the requires lists and the
    live requiredBy entries mirror each other, and an object only
    requires objects that were created before it, so that no object is
    its own dependent.  This holds whether the calls return or raise,
    and across the reclamation of objects that nothing requires. *)
Theorem api_keeps_graph_well_formed cfg h :
  rtc (api_step cfg) ∅ h →
  well_formed h ∧ (∀ n, ¬ tc (sub_edge h) n n) ∧ (∀ n, ¬ tc (req_edge h) n n).
Proof.
  intros Hrun.
  assert (W : well_formed h).
  { revert Hrun. generalize (well_formed_empty). generalize (∅ : heap V).
    intros g W Hrun. induction Hrun as [|g g1 g2 Hstep _ IH]; [done|].
    apply IH. by eapply api_step_well_formed. }
  split; [done|]. destruct W as (_ & R & S). split.
  - intros n T. pose proof (sub_ranked_tc id h n n S T). lia.
  - intros n T. assert (Hlt : ∀ a b, tc (req_edge h) a b → b < a).
    { clear -R. induction 1 as [a b E|a b c E _ IH]; [by apply R|].
      specialize (R _ _ E). unfold id in R. lia. }
    specialize (Hlt _ _ T). lia.
Qed.

(** ** Copies and comparisons *)

Lemma tc_last_edge {A} (R : relation A) a b : tc R a b → ∃ c, R c b.
Proof. induction 1; eauto. Qed.

Lemma isolated_same_graph n w h h' :
  same_graph h h' → h' !! n = h !! n → isolated n w h → isolated n w h'.
Proof.
  intros G Hn (Hw & Hr & Hs). split; [congruence|]. split.
  - intros a E. apply (Hr a). by apply (same_graph_req_edge _ _ _ _ G).
  - intros a E. apply (Hs a). by apply (same_graph_sub_edge _ _ _ _ G).
Qed.

Lemma isolated_write n w h j v w' :
  isolated n w h → j ≠ n → h !! j = Some v → payload_write v w' →
  isolated n w (<[j := w']> h).
Proof.
  intros I Hj Hv Hw. eapply isolated_same_graph; [|by rewrite lookup_insert_ne|done].
  by eapply payload_write_same_graph.
Qed.

Lemma isolated_markFresh n w fuel h a h' :
  isolated n w h → a ≠ n → _markFresh fuel h a = Some h' → isolated n w h'.
Proof.
  intros I Ha Hrun. destruct (h !! a) as [v|] eqn:Hv.
  - destruct (markFresh_effect _ _ _ _ _ Hv Hrun) as (G & _ & _ & _ & _ & _ & Hframe & _).
    eapply isolated_same_graph; [done| |done]. apply Hframe; [done|].
    intros T. apply tc_last_edge in T as [c E]. destruct I as (_ & _ & Hs). by apply (Hs c).
  - unfold _markFresh in Hrun. rewrite Hv in Hrun. by injection Hrun as <-.
Qed.

Lemma isolated_getValue cfg fuel n w m :
  m ≠ n → preserves (isolated n w) (getValue cfg fuel m).
Proof.
  intros Hm h h' I Hend.
  apply (getValue_invariant (isolated n w) (λ j, j ≠ n) cfg) with fuel m h;
    [| | |done..].
  - intros g j v w' Ig Hj Hv Hw. by eapply isolated_write.
  - intros f g a g' Ig Ha Hrun. by eapply isolated_markFresh.
  - intros g a b (_ & Hr & _) _ E ->. by apply (Hr a).
Qed.

(** X12.  A copy is independent of the original: [copy] evaluates the
    original and creates a new clean leaf that holds the (normalised)
    result and has no edge to or from any object; and no evaluation or
    mutation of another object changes an object that has no edges, so
    the copy does not reflect later changes of the original. *)
Theorem copy_is_independent cfg fuel self h n h1 :
  linked h → copy cfg fuel self h = Ret n h1 →
  (∃ x hg, getValue cfg fuel self h = Ret x hg ∧ h !! n = None ∧ n ≠ self ∧
           h1 = <[n := initial CVariable Leaf None x true]> hg ∧
           isolated n (initial CVariable Leaf None x true) h1) ∧
  ∀ w fuel' m, m ≠ n →
    preserves (isolated n w) (getValue cfg fuel' m) ∧
    (∀ y mask, preserves (isolated n w) (setValue cfg fuel' m y mask)) ∧
    (∀ index y, preserves (isolated n w) (__setitem__ cfg fuel' m index y)) ∧
    (∀ indices y, preserves (isolated n w) (put cfg fuel' m indices y)).
Proof.
  intros L Hrun. split.
  - unfold copy, mbind, M_bind, bind in Hrun.
    destruct (getValue cfg fuel self h) as [x hg|e hg|] eqn:E; [|done..].
    rewrite Variable__init__result in Hrun. injection Hrun as <- <-.
    assert (G : same_graph h hg).
    { apply (graph_stable_getValue cfg fuel self). rewrite E. by apply ended_Ret. }
    pose proof (fresh_id_fresh hg) as Hn.
    assert (Hn0 : h !! fresh_id hg = None).
    { destruct (h !! fresh_id hg) eqn:E0; [|done].
      assert (Hl : is_Some (hg !! fresh_id hg)) by (apply (same_graph_is_Some _ _ _ G); eauto).
      rewrite Hn in Hl. by destruct Hl. }
    exists x, hg. split; [done|]. split; [done|]. split.
    { intros Heq. destruct fuel as [|f]; [done|]. rewrite getValue_unfold in E.
      rewrite <- Heq, Hn0 in E. done. }
    split; [done|].
    destruct (extends_alloc hg (initial CVariable Leaf None x true) eq_refl eq_refl)
      as (_ & _ & X3 & X4).
    split; [by rewrite lookup_insert_eq|]. split.
    + intros a E1. apply X3 in E1 as [(v & Hv & Hin)|[_ Hin]].
      * assert (E1 : req_edge h a (fresh_id hg)).
        { apply (same_graph_req_edge _ _ _ _ G). by exists v. }
        apply L in E1 as (u & Hu & _). congruence.
      * by apply elem_of_nil in Hin.
    + intros a E1. apply X4 in E1 as [(v & Hv & Hin & Hl)|[Hin _]].
      * rewrite Hn in Hl. by destruct Hl.
      * by apply elem_of_nil in Hin.
  - intros w fuel' m Hm. split; [by apply isolated_getValue|].
    apply mutation_preserves.
    + intros f. by apply isolated_getValue.
    + intros g v w' I Hv Hw. by eapply isolated_write.
    + intros f g g' I Hr. by eapply isolated_markFresh.
Qed.

Lemma BinaryOperatorVariable_given cfg fuel op self other c s ci h vs vo :
  h !! self = Some vs → h !! other = Some vo →
  _BinaryOperatorVariable cfg fuel self op (Node other) (Some c) (Some s) ci h =
  (ci' ← units_allow_inline cfg fuel [self; other] ci;
   n ← OperatorVariable__init__ fuel c op [self; other] s ci';
   ret (Created n)) h.
Proof.
  intros Hs Ho. unfold _BinaryOperatorVariable.
  unfold mbind at 1 2 3, M_bind at 1 2 3, bind at 1 2 3, this, ret.
  by rewrite Hs, Ho.
Qed.

Lemma BinaryOperatorVariable_given_node cfg fuel self op other c s ci h r h' :
  _BinaryOperatorVariable cfg fuel self op other (Some c) (Some s) ci h = Ret r h' →
  ∃ n vn right, r = Created n ∧ h !! n = None ∧ h' !! n = Some vn ∧
    cls vn = c ∧ getShape vn = s ∧ requiredVariables vn = [self; right] ∧
    match other with Node o => right = o | Raw _ => right = fresh_id h end.
Proof.
  intros Hrun.
  destruct (BinaryOperatorVariable_inv _ _ _ _ _ _ _ _ _ _ _ Hrun)
    as (right & h1 & vs & vo & _ & _ & _ & Hcase).
  simpl in Hcase. destruct Hcase as (ci' & h2 & n & _ & _ & ->).
  destruct (BinaryOperatorVariable_created _ _ _ _ _ _ _ _ _ _ _ Hrun)
    as (right' & h1' & vs' & vo' & shape & c' & Hother & _ & _ & (Hshape & Hc) & Hn & _
        & Hst & _).
  simpl in Hshape, Hc. simplify_eq.
  destruct Hst as (vn & Hvn & Hcls & _ & Hos & Hreq).
  exists n, vn, right'. repeat split; try done.
  - unfold getShape. by rewrite Hos.
  - destruct other; by destruct Hother.
Qed.

(** X13.  [allclose] and [allequal] do not look at the shapes of
    their operands: they never answer [NotImplemented]; whenever they
    return, they have created a [Variable] node of shape [()] over the
    two operands, and on two clean caching operands of any shapes they
    do return.  A shape mismatch can therefore only show when the node
    is evaluated. *)
Theorem allclose_never_checks_shapes cfg fuel self op other h :
  (∀ r h', allclose cfg fuel self op other h = Ret r h' ∨
           allequal cfg fuel self op other h = Ret r h' →
     ∃ n vn right, r = Created n ∧ h !! n = None ∧ h' !! n = Some vn ∧
       cls vn = CVariable ∧ getShape vn = [] ∧ requiredVariables vn = [self; right]) ∧
  (∀ o vs vo, other = Node o → h !! self = Some vs → h !! o = Some vo →
     settled cfg vs → settled cfg vo → 0 < fuel →
     ∃ n h', allclose cfg fuel self op other h = Ret (Created n) h' ∧
             allequal cfg fuel self op other h = Ret (Created n) h').
Proof.
  split.
  - intros r h' Hrun.
    assert (Hrun' : _BinaryOperatorVariable cfg fuel self op other (Some CVariable)
                      (Some []) false h = Ret r h') by by destruct Hrun.
    destruct (BinaryOperatorVariable_given_node _ _ _ _ _ _ _ _ _ _ _ Hrun')
      as (n & vn & right & ? & ? & ? & ? & ? & ? & _).
    by exists n, vn, right.
  - intros o vs vo -> Hs Ho Ss So Hfuel. destruct fuel as [|fuel]; [lia|].
    destruct (units_allow_inline_settled cfg fuel self o false h vs vo Hs Ho Ss So)
      as [ci' Eu].
    destruct (OperatorVariable__init__returns fuel CVariable op self o [] ci' h)
      as (n & h' & Ei); [eauto..|].
    exists n, h'. unfold allclose, allequal.
    rewrite (BinaryOperatorVariable_given _ _ _ _ _ _ _ _ _ vs vo Hs Ho).
    unfold mbind, M_bind, bind, ret. by rewrite Eu, Ei.
Qed.

(** ** Shapes of axis operations *)

Lemma py_bound_to_nat len i :
  (0 ≤ len)%Z →
  Z.to_nat (py_bound len i) =
  Nat.min (Z.to_nat (if (i <? 0)%Z then (i + len)%Z else i)) (Z.to_nat len).
Proof.
  intros Hlen. unfold py_bound. destruct (Z.ltb_spec i 0).
  - destruct (Z.max_spec 0 (i + len)) as [[? ->]|[? ->]]; lia.
  - destruct (Z.min_spec i len) as [[? ->]|[? ->]]; lia.
Qed.

Lemma py_bound_nonneg len i : (0 ≤ len)%Z → (0 ≤ py_bound len i)%Z.
Proof.
  intros Hlen. unfold py_bound. destruct (Z.ltb_spec i 0).
  - destruct (Z.max_spec 0 (i + len)) as [[? ->]|[? ->]]; lia.
  - destruct (Z.min_spec i len) as [[? ->]|[? ->]]; lia.
Qed.

Lemma py_slice_prefix {A} (l : list A) (a : Z) :
  py_slice l None (Some a) =
  take (Z.to_nat (if (a <? 0)%Z then (a + Z.of_nat (length l))%Z else a)) l.
Proof.
  unfold py_slice. rewrite Z.sub_0_r, py_bound_to_nat by lia.
  rewrite Z2Nat.inj_0, drop_0, Nat2Z.id. destruct (Nat.min_spec (Z.to_nat (if (a <? 0)%Z
    then (a + Z.of_nat (length l))%Z else a)) (length l)) as [[? ->]|[? ->]]; [done|].
  rewrite !take_ge; [done|lia..].
Qed.

Lemma py_slice_suffix {A} (l : list A) (a : Z) :
  py_slice l (Some a) None =
  drop (Z.to_nat (if (a <? 0)%Z then (a + Z.of_nat (length l))%Z else a)) l.
Proof.
  unfold py_slice. pose proof (py_bound_nonneg (Z.of_nat (length l)) a ltac:(lia)) as Hb.
  pose proof (py_bound_to_nat (Z.of_nat (length l)) a ltac:(lia)) as Hn.
  rewrite Nat2Z.id in Hn.
  rewrite take_ge by (rewrite length_drop; lia). rewrite Hn.
  destruct (Nat.min_spec (Z.to_nat (if (a <? 0)%Z
    then (a + Z.of_nat (length l))%Z else a)) (length l)) as [[? ->]|[? ->]]; [done|].
  rewrite !drop_ge; [done|lia..].
Qed.

Lemma py_slice_middle {A} (l : list A) (a b : Z) :
  (0 ≤ a)%Z → (a ≤ b)%Z → (b ≤ Z.of_nat (length l))%Z →
  py_slice l (Some a) (Some b) = take (Z.to_nat b - Z.to_nat a) (drop (Z.to_nat a) l).
Proof.
  intros Ha Hab Hb. unfold py_slice.
  pose proof (py_bound_to_nat (Z.of_nat (length l)) a ltac:(lia)) as Hna.
  pose proof (py_bound_to_nat (Z.of_nat (length l)) b ltac:(lia)) as Hnb.
  pose proof (py_bound_nonneg (Z.of_nat (length l)) a ltac:(lia)).
  pose proof (py_bound_nonneg (Z.of_nat (length l)) b ltac:(lia)).
  rewrite (proj2 (Z.ltb_ge a 0)) in Hna by lia.
  rewrite (proj2 (Z.ltb_ge b 0)) in Hnb by lia. rewrite Nat2Z.id in Hna, Hnb.
  rewrite Z2Nat.inj_sub, Hna, Hnb by done. f_equal; [|f_equal]; lia.
Qed.

Lemma py_index_in_range {A} (l : list A) (a : Z) :
  (0 ≤ a)%Z → py_index l a = l !! Z.to_nat a.
Proof.
  intros Ha. unfold py_index. rewrite (proj2 (Z.ltb_ge _ _)) by lia.
  rewrite (proj2 (Z.leb_le _ _)) by lia. simpl.
  destruct (Z.ltb_spec a (Z.of_nat (length l))); [done|].
  symmetry. apply lookup_ge_None. lia.
Qed.

(** X14.  The shape that [_axisOperator] and [dot] declare, as a
    function of the axis: for an axis from 0 on it is the shape without
    that entry (the whole shape when the axis is out of range), for a
    negative axis other than -1 it is the shape without the entry
    counted from the end, and for -1 it is the shape without its last
    entry followed by the whole shape. *)
Theorem drop_axis_spec {A} (shape : list A) (axis : Z) :
  drop_axis shape axis =
  if (axis =? -1)%Z then take (length shape - 1) shape ++ shape
  else
    let k := if (axis <? 0)%Z then (axis + Z.of_nat (length shape))%Z else axis in
    if (k <? 0)%Z then shape else delete (Z.to_nat k) shape.
Proof.
  unfold drop_axis. rewrite py_slice_prefix, py_slice_suffix.
  destruct (Z.eqb_spec axis (-1)) as [->|Hne].
  - simpl. replace (Z.to_nat (-1 + Z.of_nat (length shape))) with (length shape - 1) by lia.
    done.
  - cbv zeta. destruct (Z.ltb_spec axis 0).
    + rewrite (proj2 (Z.ltb_lt (axis + 1) 0)) by lia.
      destruct (Z.ltb_spec (axis + Z.of_nat (length shape)) 0).
      * replace (Z.to_nat (axis + Z.of_nat (length shape))) with 0 by lia.
        replace (Z.to_nat (axis + 1 + Z.of_nat (length shape))) with 0 by lia. done.
      * rewrite delete_take_drop. f_equal. f_equal. lia.
    + rewrite (proj2 (Z.ltb_ge (axis + 1) 0)) by lia.
      rewrite (proj2 (Z.ltb_ge axis 0)) by lia.
      rewrite delete_take_drop. f_equal. f_equal. lia.
Qed.

(** X15.  [_axisOperator] memoises per object, attribute and axis:
    once a call has returned, every further call with the same object,
    name and axis returns the same node, whatever function it is given,
    and changes neither the heap nor the table; entries of other keys
    are not touched; and a call that finds no entry creates a
    [Variable] node over [self] alone, of shape [()] for no axis and
    [shape[:axis] + shape[axis+1:]] otherwise. *)
Theorem axisOperator_memoises cfg fuel dicts self opname op axis h r dicts' h' :
  _axisOperator cfg fuel dicts self opname op axis h = Ret (r, dicts') h' →
  (∀ fuel' op',
     _axisOperator cfg fuel' dicts' self opname op' axis h' = Ret (r, dicts') h') ∧
  (∀ k, k ≠ (self, opname, axis) → dicts' !! k = dicts !! k) ∧
  (dicts !! (self, opname, axis) = None →
     ∃ n vs, r = Created n ∧ h !! self = Some vs ∧ h !! n = None ∧
       has_static h' n CVariable (Operator op)
         (Some (match axis with None => [] | Some a => drop_axis (getShape vs) a end))
         [self]).
Proof.
  unfold _axisOperator. destruct (dicts !! (self, opname, axis)) as [r0|] eqn:Hk.
  - intros [= <- <- <-]. split; [|split; [done|done]].
    intros fuel' op'. by rewrite Hk.
  - intros Hrun.
    assert (Hmid : ∃ vs,
      h !! self = Some vs ∧
      _UnaryOperatorVariable cfg fuel self op (Some CVariable)
        (Some (match axis with None => [] | Some a => drop_axis (getShape vs) a end))
        false h = Ret r h' ∧
      dicts' = <[(self, opname, axis) := r]> dicts).
    { unfold mbind at 1, M_bind at 1, bind at 1 in Hrun. destruct axis as [a|].
      - unfold mbind at 1, M_bind at 1, bind at 1, this at 1 in Hrun.
        destruct (h !! self) as [vs|] eqn:Hs; [|done]. exists vs. split; [done|].
        unfold ret at 1 in Hrun. unfold mbind, M_bind, bind, ret in Hrun.
        destruct (_UnaryOperatorVariable _ _ _ _ _ _ _ h) as [r1 h1| |]; [|done..].
        by injection Hrun as <- <- <-.
      - unfold ret at 1 in Hrun. unfold mbind, M_bind, bind, ret in Hrun.
        destruct (_UnaryOperatorVariable cfg fuel self op (Some CVariable) (Some [])
                    false h) as [r1 h1| |] eqn:E; [|done..].
        injection Hrun as <- <- <-.
        destruct (UnaryOperatorVariable_node _ _ _ _ _ _ _ _ _ _ E)
          as (n & vs & _ & Hs & _). by exists vs. }
    destruct Hmid as (vs & Hs & E & ->).
    split; [|split].
    + intros fuel' op'. by rewrite lookup_insert_eq.
    + intros k Hne. by rewrite lookup_insert_ne.
    + intros _. destruct (UnaryOperatorVariable_node _ _ _ _ _ _ _ _ _ _ E)
        as (n & vs' & -> & Hs' & Hst & (Hnew & _) & _).
      rewrite Hs in Hs'. injection Hs' as <-.
      exists n, vs. split; [done|]. split; [done|]. split; [|done].
      apply Hnew. by apply list_elem_of_singleton.
Qed.

Lemma isinstance_Variable c : isinstance c CVariable = true.
Proof. by destruct c. Qed.

(** X16.  [dot] on operands that do not broadcast raises [TypeError]
    before anything is created; on operands that broadcast it never
    answers [NotImplemented], and the node that it creates has the
    broadcast shape without the entry of [axis] and requires the two
    operands. *)
Theorem dot_shape cfg fuel self op o axis h vs vo :
  h !! self = Some vs → h !! o = Some vo →
  match _broadcastShape vs vo with
  | None => dot cfg fuel self op (Node o) axis h = Raise TypeError h
  | Some s =>
      ∀ r h', dot cfg fuel self op (Node o) axis h = Ret r h' →
        ∃ n vn, r = Created n ∧ h !! n = None ∧ h' !! n = Some vn ∧
                cls vn = CVariable ∧ getShape vn = drop_axis s axis ∧
                requiredVariables vn = [self; o]
  end.
Proof.
  intros Hs Ho. unfold dot, mbind, M_bind, bind, this, ret.
  rewrite Hs, Ho. destruct (_broadcastShape vs vo) as [s|] eqn:Hb; [|reflexivity].
  intros r h' Hrun.
  destruct (BinaryOperatorVariable_inv _ _ _ _ _ _ _ _ _ _ _ Hrun)
    as (right & h1 & vs' & vo' & [-> ->] & Hs' & Ho' & Hcase).
  rewrite Hs in Hs'. rewrite Ho in Ho'. simplify_eq.
  cbv zeta in Hcase. cbn [isNone orb] in Hcase.
  unfold _shapeClassAndOther, _getArithmeticBaseClass in Hcase.
  rewrite Hb, isinstance_Variable in Hcase. cbn [fst snd isNone orb] in Hcase.
  destruct Hcase as (ci' & h2 & n & Hu & Hinit & ->).
  destruct (OperatorVariable__init__inv _ _ _ _ _ _ _ _ _ Hinit)
    as (-> & (vn & Hvn & Hcls & _ & Hos & Hreq) & _ & _).
  destruct (units_allow_inline_static cfg fuel [self; o] false h h2) as [_ U2].
  { rewrite Hu. by apply ended_Ret. }
  exists (fresh_id h2), vn. repeat split; try done.
  - destruct (h !! fresh_id h2) as [w|] eqn:Ew; [|done].
    assert (G : same_graph h h2).
    { apply (graph_stable_units_allow_inline cfg fuel [self; o] false).
      rewrite Hu. by apply ended_Ret. }
    assert (Hl : is_Some (h2 !! fresh_id h2)) by (apply (same_graph_is_Some _ _ _ G); eauto).
    rewrite fresh_id_fresh in Hl. by destruct Hl.
  - unfold getShape. by rewrite Hos.
Qed.

(** X17.  The exchange of axes in [__cross]: for an axis inside the
    shape and other than 0 the computed tuple is the shape with the
    entries 0 and [a] exchanged, and for an axis beyond the shape the
    subscription raises [IndexError]. *)
Theorem swap_axis_spec {A} (S : list A) (a : Z) :
  (∀ x y, (0 < a)%Z → S !! Z.to_nat a = Some x → S !! 0 = Some y →
     swap_axis S a = inr (<[0 := x]> (<[Z.to_nat a := y]> S))) ∧
  ((Z.of_nat (length S) ≤ a)%Z → swap_axis S a = inl IndexError).
Proof.
  split.
  - intros x y Ha Hx Hy. unfold swap_axis.
    pose proof (lookup_lt_Some _ _ _ Hx) as Hlt.
    rewrite !py_index_in_range by lia. rewrite Hx. change (Z.to_nat 0) with 0. rewrite Hy.
    rewrite py_slice_middle by lia. rewrite py_slice_suffix.
    rewrite (proj2 (Z.ltb_ge (a + 1) 0)) by lia.
    destruct S as [|y' S']; [done|]. injection Hy as ->.
    replace (Z.to_nat a) with (S (Z.to_nat a - 1)) by lia.
    replace (Z.to_nat (a + 1)) with (S (S (Z.to_nat a - 1))) by lia.
    change (Z.to_nat 1) with 1. simpl. f_equal.
    rewrite Nat.sub_0_r, drop_0.
    rewrite insert_take_drop by (simpl in Hlt; lia). done.
  - intros Ha. unfold swap_axis, py_index.
    rewrite (proj2 (Z.ltb_ge a 0)) by lia.
    rewrite (proj2 (Z.ltb_ge a (Z.of_nat (length S)))) by lia.
    by rewrite andb_false_r.
Qed.



(** X19.  The cross product of two plain vectors: with the default
    axes and shapes [(da,)] and [(db,)], [__cross] raises [ValueError]
    unless both dimensions are 2 or 3, declares the shape [()] for two
    vectors of dimension 2, and [(3,)] otherwise. *)
Theorem cross_opShape_vectors bshape da db :
  bshape [] [] = Some [] →
  cross_opShape bshape [da] [db] (-1) (-1) (-1) None =
  if is_2_or_3 da && is_2_or_3 db
  then inr (if bool_decide (da = 2) && bool_decide (db = 2) then [] else [3])
  else inl ValueError.
Proof.
  intros Hb. unfold cross_opShape. simpl. unfold py_index. simpl.
  destruct (is_2_or_3 da) eqn:Ha; [|done]. simpl.
  destruct (is_2_or_3 db) eqn:Hdb; [|done]. simpl.
  unfold py_slice. simpl. rewrite Hb. unfold is_2_or_3 in Ha, Hdb.
  destruct (bool_decide (da = 2)) eqn:A2, (bool_decide (db = 2)) eqn:B2; simpl in *.
  - apply bool_decide_eq_true in B2 as ->. done.
  - by rewrite Hdb.
  - by rewrite Ha.
  - by rewrite Ha.
Qed.

End evaluation.

(** * The properties on the example heaps *)


Lemma chain_abc_size sb sc : size (chain_abc sb sc) = 3.
Proof. reflexivity. Qed.

Lemma markStale_terminates_without_revisit_witness :
  ∃ h', _markStale 4 (chain_abc false false) 1 = Some h' ∧
    ∀ j v, chain_abc false false !! j = Some v →
      ∃ v', h' !! j = Some v' ∧ markCount v' ≤ S (markCount v) ∧
            (stale v = true → v' = v).
Proof.
  apply (proj1 (markStale_terminates_without_revisit (chain_abc false false) 1) 4).
  rewrite chain_abc_size. lia.
Defined.

(** C2 as stated fails: [_markFresh] on a changes the dirty flag of its
    dependents b and c; and the [_markFresh] that ends the recomputation
    of a node b that does not cache changes the dirty flag of its
    dependent c. *)
Lemma markFresh_recurses_counterexample :
  (∃ h', _markFresh 3 (chain_abc false false) 0 = Some h' ∧
     stale <$> chain_abc false false !! 1 = Some false ∧
     stale <$> h' !! 1 = Some true ∧
     stale <$> chain_abc false false !! 2 = Some false ∧
     stale <$> h' !! 2 = Some true) ∧
  (∃ x h', getValue default_config 4 1 chain_uncached = Ret x h' ∧
     stale <$> chain_uncached !! 2 = Some false ∧
     stale <$> h' !! 2 = Some true).
Proof.
  split.
  - eexists. split; [vm_compute; reflexivity|]. by vm_compute.
  - eexists _, _. split; [vm_compute; reflexivity|]. by vm_compute.
Qed.

Lemma markFresh_clears_only_self_witness :
  ∃ h', _markFresh 4 (chain_abc false false) 0 = Some h' ∧
    (¬ tc (sub_edge (chain_abc false false)) 0 0 → is_fresh h' 0) ∧
    (∀ m, m ≠ 0 → is_stale (chain_abc false false) m → is_stale h' m) ∧
    (∀ m, is_fresh h' m → m = 0 ∨ is_fresh (chain_abc false false) m) ∧
    (∀ s, sub_edge (chain_abc false false) 0 s → is_stale h' s) ∧
    (∀ m, fresh_reach (chain_abc false false) 0 m → is_stale h' m) ∧
    (∀ j, j ≠ 0 → ¬ tc (sub_edge (chain_abc false false)) 0 j →
          h' !! j = chain_abc false false !! j).
Proof.
  apply (markFresh_clears_only_self 4 (chain_abc false false) 0 _ eq_refl).
  rewrite chain_abc_size. lia.
Defined.

(** C3 as stated fails when the class-wide switch is on: b was told not
    to cache, yet [getValue] answers from the slot and [_calcValue] does
    not run. *)
Lemma dontCacheMe_overridden_counterexample :
  _cached <$> pair_ab (Some (Scalar 3)) !! 1 = Some false ∧
  getValue cache_always 5 1 (pair_ab (Some (Scalar 3)))
    = Ret (Some (Scalar 3)) (pair_ab (Some (Scalar 3))) ∧
  calcCount <$> pair_ab (Some (Scalar 3)) !! 1 = Some 0 ∧
  value <$> pair_ab (Some (Scalar 3)) !! 1 = Some (Some (Scalar 3)).
Proof. by vm_compute. Qed.

Lemma pair_ab_ranked slot : ranked id (pair_ab slot).
Proof. apply ranked_check, (bool_decide_unpack _). by vm_compute. Qed.

Lemma getValue_uncached_recomputes_witness :
  getValue default_config 5 1 (pair_ab None) ≠ NoFuel ∧
  ∃ x h', getValue default_config 5 1 (pair_ab None) = Ret x h' ∧
    ∃ v', h' !! 1 = Some v' ∧ value v' = None ∧
          calcCount (ex_node [0] [] None false false) < calcCount v' ∧
          _isCached default_config v' = false.
Proof.
  destruct (getValue_uncached_recomputes default_config id 5 1 (pair_ab None)
              (ex_node [0] [] None false false) eq_refl eq_refl) as [Hterm Hret].
  split; [apply Hterm; [apply pair_ab_ranked|vm_compute; lia]|].
  assert (Hrun : ∃ x h', getValue default_config 5 1 (pair_ab None) = Ret x h').
  { eexists _, _. vm_compute. reflexivity. }
  destruct Hrun as (x & h' & Hrun). exists x, h'. split; [exact Hrun|].
  exact (proj2 (Hret x h' Hrun)).
Defined.

Lemma mismatch_ranked : ranked id mismatch.
Proof. apply ranked_check, (bool_decide_unpack _). by vm_compute. Qed.

Lemma getValue_error_not_cached_witness :
  ∃ h1, getValue default_config 3 2 mismatch = Raise EvaluationError h1 ∧
    ∃ v', h1 !! 2 = Some v' ∧ value v' = None ∧ stale v' = true.
Proof.
  eexists.
  destruct (getValue_error_not_cached default_config id 2 2 mismatch
              (ex_node [0; 1] [] None true true) EvaluationError _
              mismatch_ranked eq_refl eq_refl ltac:(vm_compute; reflexivity))
    as (Hraise & (v' & Hv' & Hval & _ & _ & Hst & _) & _).
  split; [exact Hraise|]. exists v'. split; [exact Hv'|]. split; [exact Hval|].
  by apply Hst.
Defined.




(** The state of the counterexample is one that the engine produces: on
    the diamond, as its construction leaves it, evaluating x evaluates m
    (which does not cache) twice; the second time marks the already
    evaluated y1 stale again, and x is marked fresh after that.  The
    next [setValue] on the leaf l1 stops at y1 and x keeps answering from
    its slot. *)
Lemma setValue_after_evaluation_leaves_fresh :
  ∃ x h1 h2,
    getValue default_config 8 5 diamond = Ret x h1 ∧
    stale <$> h1 !! 3 = Some true ∧ stale <$> h1 !! 5 = Some false ∧
    setValue default_config 8 1 (Scalar 20) None h1 = Ret tt h2 ∧
    stale <$> h2 !! 5 = Some false ∧
    getValue default_config 8 5 h2 = Ret x h2.
Proof.
  eexists _, _, _. split; [vm_compute; reflexivity|].
  split; [by vm_compute|]. split; [by vm_compute|].
  split; [vm_compute; reflexivity|]. split; by vm_compute.
Qed.




Lemma sub_ranked_check rank (h : heap arr) :
  map_Forall (λ a v,
    Forall (λ b, is_Some (h !! b) → rank a < rank b) (subscribedVariables v)) h →
  sub_ranked rank h.
Proof.
  intros Hall a b (v & Ha & Hb & Hl).
  by apply (proj1 (Forall_forall _ _) (Hall a v Ha) b Hb).
Qed.









Lemma chain_abc_ranked : ranked id (chain_abc false false).
Proof. apply ranked_check, (bool_decide_unpack _). by vm_compute. Qed.



Lemma binary_operator_requires_witness :
  ∃ n h',
    _BinaryOperatorVariable default_config 2 0 arr_sum (Raw (Scalar 4)) None None true
      three_leaves = Ret (Created n) h' ∧
    ∃ right vn,
      three_leaves !! n = None ∧ h' !! n = Some vn ∧
      requiredVariables vn = [0; right] ∧
      three_leaves !! right = None ∧ right ≠ n ∧
      (∃ h1, _Constant 2 (Scalar 4) three_leaves = Ret right h1) ∧
      has_static h' right C_Constant Leaf None [].
Proof.
  assert (Hrun : ∃ n h',
    _BinaryOperatorVariable default_config 2 0 arr_sum (Raw (Scalar 4)) None None true
      three_leaves = Ret (Created n) h').
  { eexists _, _. vm_compute. reflexivity. }
  destruct Hrun as (n & h' & Hrun). exists n, h'. split; [exact Hrun|].
  exact (binary_operator_requires default_config 2 0 arr_sum (Raw (Scalar 4))
           None None true three_leaves n h' Hrun).
Defined.

(** * Further properties on the example heaps *)

Lemma chain_abc_sub_ranked : sub_ranked id (chain_abc false false).
Proof. apply sub_ranked_check, (bool_decide_unpack _). by vm_compute. Qed.

Lemma chain_abc_no_self_dependence n : ¬ tc (sub_edge (chain_abc false false)) n n.
Proof.
  intros T. pose proof (sub_ranked_tc id _ n n chain_abc_sub_ranked T). lia.
Qed.

Lemma linked_check (h : heap arr) :
  map_Forall (λ a v,
    Forall (λ b, a ∈ default [] (subscribedVariables <$> h !! b)) (requiredVariables v) ∧
    Forall (λ b, is_Some (h !! b) → a ∈ default [] (requiredVariables <$> h !! b))
           (subscribedVariables v)) h →
  linked h.
Proof.
  intros Hall a b. split.
  - intros (v & Ha & Hb). destruct (Hall a v Ha) as [Hr _].
    pose proof (proj1 (Forall_forall _ _) Hr b Hb) as Hin. cbv beta in Hin.
    destruct (h !! b) as [w|] eqn:Hw; [|by apply elem_of_nil in Hin].
    exists w. split; [done|]. split; [done|]. eauto.
  - intros (w & Hb & Hin & [v Ha]). destruct (Hall b w Hb) as [_ Hs].
    pose proof (proj1 (Forall_forall _ _) Hs a Hin) as Hreq. cbv beta in Hreq.
    rewrite Ha in Hreq. exists v. split; [done|]. apply Hreq. eauto.
Qed.

Lemma chain_abc_linked : linked (chain_abc false false).
Proof. apply linked_check, (bool_decide_unpack _). by vm_compute. Qed.

Lemma markStale_marks_exactly_witness :
  ∃ h', _markStale 4 (chain_abc false false) 1 = Some h' ∧
    (∀ m, is_stale h' m ↔
          is_stale (chain_abc false false) m ∨
          (is_fresh (chain_abc false false) 1 ∧
           (m = 1 ∨ fresh_reach (chain_abc false false) 1 m))) ∧
    (∀ m, is_Some (h' !! m) ↔ is_Some (chain_abc false false !! m)).
Proof.
  assert (Hrun : ∃ h', _markStale 4 (chain_abc false false) 1 = Some h').
  { eexists. vm_compute. reflexivity. }
  destruct Hrun as (h' & Hrun). exists h'. split; [exact Hrun|].
  exact (markStale_marks_exactly 4 (chain_abc false false) 1 h' Hrun).
Defined.

Lemma markStale_prunes_marked_witness :
  ∃ h' v', _markStale 4 (chain_abc false false) 0 = Some h' ∧ h' !! 0 = Some v' ∧
    subscribedVariables v' = [1] ∧ ∀ s, s ∈ subscribedVariables v' → is_Some (h' !! s).
Proof.
  assert (Hrun : ∃ h' v', _markStale 4 (chain_abc false false) 0 = Some h' ∧
                          h' !! 0 = Some v' ∧ stale v' = true).
  { eexists _, _. split; [vm_compute; reflexivity|]. split; vm_compute; reflexivity. }
  destruct Hrun as (h' & v' & Hrun & Hv' & Hs). exists h', v'.
  split; [exact Hrun|]. split; [exact Hv'|].
  exact (proj1 (markStale_prunes_marked 4 (chain_abc false false) 0 h' 0
                  (ex_leaf [7; 1] (Scalar 3) false) v' Hrun eq_refl Hv') eq_refl Hs).
Defined.

Lemma uncached_leaf_forgets_witness :
  ∃ h1 h2, getValue default_config 3 0 lone_uncached = Ret (Some (Scalar 3)) h1 ∧
           getValue default_config 3 0 h1 = Ret None h2 ∧
           ∃ w, h2 !! 0 = Some w ∧ value w = None.
Proof.
  apply (@uncached_leaf_forgets arr arr_numerix default_config 2 0 lone_uncached
           (mkVariable [] [] (Some (Scalar 3)) false false CVariable Leaf None 0 0)
           (Scalar 3) eq_refl eq_refl eq_refl eq_refl).
  vm_compute. lia.
Defined.


Lemma getValue_idempotent_witness :
  ∃ x h' w, getValue default_config 5 1 (chain_abc true false) = Ret (Some x) h' ∧
    h' !! 1 = Some w ∧ settled default_config w ∧
    (value w = Some x ∨ ∃ cur, value w = Some (nx_array cur x)) ∧
    ∀ fuel', getValue default_config (S fuel') 1 h' = Ret (value w) h'.
Proof.
  assert (Hrun : ∃ x h', getValue default_config 5 1 (chain_abc true false)
                         = Ret (Some x) h').
  { eexists _, _. vm_compute. reflexivity. }
  destruct Hrun as (x & h' & Hrun).
  destruct (@getValue_idempotent arr arr_numerix default_config 5 1 (chain_abc true false)
              (ex_node [0] [2] (Some (Scalar 3)) true true) x h' eq_refl eq_refl)
    as (w & Hw); [|exact Hrun|].
  - intros T.
    assert (S : sub_ranked id (chain_abc true false)).
    { apply sub_ranked_check, (bool_decide_unpack _). by vm_compute. }
    pose proof (sub_ranked_tc id _ 1 1 S T). lia.
  - exists x, h', w. split; [exact Hrun|exact Hw].
Defined.

Lemma getValue_ends_on_acyclic_witness :
  ∃ h', ended (getValue default_config 7 2 (chain_abc false false)) h'.
Proof.
  apply (@getValue_ends_on_acyclic arr arr_numerix default_config id 7 2
           (chain_abc false false) chain_abc_ranked).
  rewrite chain_abc_size. unfold id. lia.
Defined.

Lemma getValue_diverges_on_self_loop_witness :
  getValue default_config 50 0 self_loop = NoFuel.
Proof.
  exact (@getValue_diverges_on_self_loop arr arr_numerix default_config 50 0 self_loop
           (ex_node [0] [0] None true true) arr_sum [] eq_refl eq_refl eq_refl eq_refl).
Defined.

Lemma binary_operator_adds_node_witness :
  ∃ n h',
    _BinaryOperatorVariable default_config 2 0 arr_sum (Raw (Scalar 4)) None None true
      three_leaves = Ret (Created n) h' ∧
    born h' n ∧
    ∃ right, right = fresh_id three_leaves ∧
             extends three_leaves h' [right; n] n [0; right].
Proof.
  assert (Hrun : ∃ n h',
    _BinaryOperatorVariable default_config 2 0 arr_sum (Raw (Scalar 4)) None None true
      three_leaves = Ret (Created n) h').
  { eexists _, _. vm_compute. reflexivity. }
  destruct Hrun as (n & h' & Hrun). exists n, h'. split; [exact Hrun|].
  exact (@binary_operator_adds_node arr arr_numerix default_config 2 0 arr_sum
           (Raw (Scalar 4)) None None true three_leaves n h' Hrun).
Defined.

Lemma unary_operator_adds_node_witness :
  ∃ r h',
    _UnaryOperatorVariable default_config 2 0 arr_sum None None true three_leaves
      = Ret r h' ∧
    ∃ n vs, r = Created n ∧ three_leaves !! 0 = Some vs ∧
      has_static h' n CVariable (Operator arr_sum) (Some (getShape vs)) [0] ∧
      extends three_leaves h' [n] n [0] ∧ born h' n.
Proof.
  assert (Hrun : ∃ r h',
    _UnaryOperatorVariable default_config 2 0 arr_sum None None true three_leaves
      = Ret r h').
  { eexists _, _. vm_compute. reflexivity. }
  destruct Hrun as (r & h' & Hrun). exists r, h'. split; [exact Hrun|].
  exact (@unary_operator_adds_node arr arr_numerix default_config 2 0 arr_sum
           None None true three_leaves r h' Hrun).
Defined.

Lemma api_keeps_graph_well_formed_witness :
  ∃ h : heap arr, is_Some (h !! 3) ∧
    well_formed h ∧ (∀ n, ¬ tc (sub_edge h) n n) ∧ (∀ n, ¬ tc (req_edge h) n n).
Proof.
  assert (Hrun : ∃ h1 h2,
    Variable__init__ 2 CVariable Leaf None (Some (Scalar 3)) true (∅ : heap arr)
      = Ret 1 h1 ∧
    _BinaryOperatorVariable default_config 3 1 arr_sum (Raw (Scalar 4)) None None true h1
      = Ret (Created 3) h2 ∧
    is_Some (h2 !! 3)).
  { eexists _, _. split; [vm_compute; reflexivity|].
    split; [vm_compute; reflexivity|]. vm_compute. eauto. }
  destruct Hrun as (h1 & h2 & Hnew & Hbin & Hlive). exists h2. split; [exact Hlive|].
  apply (@api_keeps_graph_well_formed arr arr_numerix default_config h2).
  eapply rtc_l; [by eapply api_new|].
  apply rtc_once. eapply api_binary. rewrite Hbin. by apply ended_Ret.
Defined.

Lemma copy_is_independent_witness :
  ∃ n h1, copy default_config 4 0 (chain_abc false false) = Ret n h1 ∧
    ∃ x hg, getValue default_config 4 0 (chain_abc false false) = Ret x hg ∧
      chain_abc false false !! n = None ∧ n ≠ 0 ∧
      h1 = <[n := initial CVariable Leaf None x true]> hg ∧
      isolated n (initial CVariable Leaf None x true) h1.
Proof.
  assert (Hrun : ∃ n h1, copy default_config 4 0 (chain_abc false false) = Ret n h1).
  { eexists _, _. vm_compute. reflexivity. }
  destruct Hrun as (n & h1 & Hrun). exists n, h1. split; [exact Hrun|].
  exact (proj1 (@copy_is_independent arr arr_numerix default_config 4 0
                  (chain_abc false false) n h1 chain_abc_linked Hrun)).
Defined.

Lemma allclose_never_checks_shapes_witness :
  getShape (ex_leaf [] (Vec [1; 2; 3]%Z) false) = [3] ∧
  getShape (ex_leaf [] (Vec [1; 2; 3; 4]%Z) false) = [4] ∧
  ∃ n h', allclose default_config 2 0 arr_sum (Node 2) three_leaves = Ret (Created n) h' ∧
          allequal default_config 2 0 arr_sum (Node 2) three_leaves = Ret (Created n) h'.
Proof.
  split; [reflexivity|]. split; [reflexivity|].
  apply (proj2 (@allclose_never_checks_shapes arr arr_numerix default_config 2 0 arr_sum
                  (Node 2) three_leaves) 2 _ _ eq_refl eq_refl eq_refl); [done|done|lia].
Defined.

Lemma axisOperator_memoises_witness :
  ∃ r dicts' h',
    reductions.sum default_config 2 ∅ 0 arr_sum (Some 0%Z) three_leaves
      = Ret (r, dicts') h' ∧
    (∀ fuel' op',
       reductions.sum default_config fuel' dicts' 0 op' (Some 0%Z) h'
         = Ret (r, dicts') h') ∧
    dicts' !! (0, "maxVar", Some 0%Z) = None ∧
    ∃ n vs, r = Created n ∧ three_leaves !! 0 = Some vs ∧ three_leaves !! n = None ∧
      has_static h' n CVariable (Operator arr_sum) (Some (drop_axis (getShape vs) 0)) [0].
Proof.
  assert (Hrun : ∃ r dicts' h',
    _axisOperator default_config 2 ∅ 0 "sumVar" arr_sum (Some 0%Z) three_leaves
      = Ret (r, dicts') h').
  { eexists _, _, _. vm_compute. reflexivity. }
  destruct Hrun as (r & dicts' & h' & Hrun). exists r, dicts', h'.
  split; [exact Hrun|].
  destruct (@axisOperator_memoises arr arr_numerix default_config 2 ∅ 0 "sumVar" arr_sum
              (Some 0%Z) three_leaves r dicts' h' Hrun) as (Hmemo & Hother & Hnew).
  split; [exact Hmemo|]. split; [|exact (Hnew eq_refl)].
  rewrite Hother; [reflexivity|discriminate].
Defined.

Lemma dot_shape_witness :
  dot default_config 2 0 arr_sum (Node 2) 0 three_leaves = Raise TypeError three_leaves.
Proof.
  exact (@dot_shape arr arr_numerix default_config 2 0 arr_sum 2 0%Z three_leaves
           _ _ eq_refl eq_refl).
Defined.

Lemma swap_axis_spec_witness :
  swap_axis [2; 3; 4] 2 = inr [4; 3; 2] ∧ swap_axis [2; 3; 4] 5 = inl IndexError.
Proof.
  split.
  - exact (proj1 (swap_axis_spec [2; 3; 4] 2) 4 2 ltac:(lia) eq_refl eq_refl).
  - exact (proj2 (swap_axis_spec [2; 3; 4] 5) ltac:(simpl; lia)).
Defined.


Lemma cross_opShape_vectors_witness :
  cross_opShape _broadcastShapes [2] [2] (-1) (-1) (-1) None = inr [].
Proof. exact (cross_opShape_vectors _broadcastShapes 2 2 eq_refl). Defined.


Lemma getValue_reflects_setValue_witness :
  ∃ h1, setValue default_config 4 0 (Scalar 5) None (chain_abc false false) = Ret tt h1 ∧
        ∃ h2, getValue default_config 6 1 h1 = Ret (Some (Scalar 5)) h2.
Proof.
  refine (@getValue_reflects_setValue arr arr_numerix default_config 4
            (chain_abc false false) 0 1 (ex_leaf [7; 1] (Scalar 3) false)
            (ex_node [0] [2] (Some (Scalar 3)) false true) arr_sum (Scalar 5)
            eq_refl eq_refl eq_refl (chain_abc_no_self_dependence 0) _ eq_refl _ _).
  - set_solver.
  - apply Forall_cons_2; [by left|done].
  - rewrite chain_abc_size. lia.
Defined.

Lemma uncached_item_assignment_witness :
  ∃ y h1, getValue default_config 5 1 (pair_ab None) = Ret y h1 ∧
          __setitem__ default_config 5 1 0 (Scalar 1) (pair_ab None) = Raise TypeError h1.
Proof.
  assert (Hrun : ∃ y h1, getValue default_config 5 1 (pair_ab None) = Ret y h1).
  { eexists _, _. vm_compute. reflexivity. }
  destruct Hrun as (y & h1 & Hrun). exists y, h1. split; [exact Hrun|].
  exact (proj1 (@uncached_item_assignment arr arr_numerix default_config 5 1 0 [] (Scalar 1)
                  (pair_ab None) (ex_node [0] [] None false false)
                  eq_refl eq_refl eq_refl) y h1 Hrun).
Defined.
